(** * pin_actions.py: pinning GitHub Action references to commit hashes

  A shallow embedding of [.github/pin_actions.py] and the properties of
  its tag resolution, cache, line rewriting and file processing.

  Conventions of the embedding.
  - A Python [str] is a Rocq [string]; a character stands for the code
    point of the same number (0..255). The character classes of [re] and
    the line boundaries of [str.splitlines] are the ones Python 3 uses on
    these code points.
  - The module-level dictionary [cache], the requests issued through
    [fetch_json] and the files on disk form an explicit [world] that every
    effectful function threads through a small state monad.
  - The hosting API is an oracle [remote]: for each URL, what [fetch_json]
    returns there ([None] for any failure), typed as the endpoint
    documents its answer. A key that the script tests for is an option, the
    other keys are there; with such answers the only calls of the script
    whose exception leaves the function that makes them are [re.sub] and
    the [os.remove] of [main].
  - [re.sub] reads its replacement text as a template: a text without
    backslash is inserted as it is, a backslash starts an escape or a
    group reference, and a template that cannot be read raises. The
    exception leaves [process_line] and [process_workflow_file] and is
    caught in [main]; a function that can raise returns an [outcome].
  - Calls to [logger] have no effect on any value and are left out, as is
    [get_auth_headers], whose headers the oracle does not look at; of
    [main], the parsing of the arguments and the log levels are left out. *)

From Stdlib Require Import ZArith Lia Bool Ascii String List.
From stdpp Require Import base option gmap strings list.

Local Open Scope string_scope.

(** ** Python string primitives *)

Module Str.

Definition code (c : ascii) : N := N_of_ascii c.

Definition between (lo hi : N) (c : ascii) : bool :=
  ((lo <=? code c) && (code c <=? hi))%N.

(** [\d]: the decimal digits. *)
Definition is_digit (c : ascii) : bool := between 48 57 c.

(** [\w]: alphanumeric code points and the underscore. *)
Definition is_word (c : ascii) : bool :=
  between 48 57 c || between 65 90 c || (code c =? 95)%N || between 97 122 c
  || (code c =? 170)%N || between 178 179 c || (code c =? 181)%N
  || between 185 186 c || between 188 190 c || between 192 214 c
  || between 216 246 c || between 248 255 c.

(** [\s]: white space. *)
Definition is_space (c : ascii) : bool :=
  between 9 13 c || between 28 32 c || (code c =? 133)%N || (code c =? 160)%N.

(** [[0-9a-f]] *)
Definition is_lower_hex (c : ascii) : bool := between 48 57 c || between 97 102 c.

(** [[0-9a-zA-Z-]] *)
Definition is_alnum_dash (c : ascii) : bool :=
  between 48 57 c || between 65 90 c || between 97 122 c || (code c =? 45)%N.

(** [[a-zA-Z-]] *)
Definition is_alpha_dash (c : ascii) : bool :=
  between 65 90 c || between 97 122 c || (code c =? 45)%N.

Definition is_char (d : ascii) (c : ascii) : bool := Ascii.eqb c d.

(** The characters at which [str.splitlines] ends a line. *)
Definition is_linebreak (c : ascii) : bool :=
  between 10 13 c || between 28 30 c || (code c =? 133)%N.

Definition LF : ascii := ascii_of_N 10.
Definition CR : ascii := ascii_of_N 13.

(** [s.startswith(p)] *)
Definition startswith (s p : string) : bool := String.prefix p s.

(** [s[n:]] *)
Fixpoint drop (n : nat) (s : string) : string :=
  match n, s with
  | S k, String _ s' => drop k s'
  | _, _ => s
  end.

(** [s[:n]] *)
Fixpoint take (n : nat) (s : string) : string :=
  match n, s with
  | S k, String c s' => String c (take k s')
  | _, _ => ""
  end.

(** [sep.join(parts)] *)
Fixpoint join (sep : string) (parts : list string) : string :=
  match parts with
  | [] => ""
  | [p] => p
  | p :: ps => p +:+ sep +:+ join sep ps
  end.

(** [s.splitlines()]: the lines of [s] without their terminators; the
    pair CR LF is one terminator, and a terminator at the very end opens
    no further line. *)
Fixpoint splitlines (s : string) : list string :=
  match s with
  | "" => []
  | String c s' =>
      if is_linebreak c then
        "" :: (if Ascii.eqb c CR
               then match s' with
                    | String d s'' => if Ascii.eqb d LF then splitlines s'' else splitlines s'
                    | "" => []
                    end
               else splitlines s')
      else match splitlines s' with
           | [] => [String c ""]
           | l :: ls => String c l :: ls
           end
  end.

(** [s.replace(old, new)] for a non-empty [old]: [skip] counts the
    characters of an occurrence of [old] still to be passed over. *)
Fixpoint replace_from (old new : string) (skip : nat) (s : string) : string :=
  match s with
  | "" => ""
  | String c s' =>
      match skip with
      | S k => replace_from old new k s'
      | O => if startswith s old
             then new +:+ replace_from old new (String.length old - 1)%nat s'
             else String c (replace_from old new 0 s')
      end
  end.

(** With an empty [old], [new] is put before every character and at the end. *)
Fixpoint intersperse (new : string) (s : string) : string :=
  match s with
  | "" => new
  | String c s' => new +:+ String c (intersperse new s')
  end.

Definition replace (s old new : string) : string :=
  match old with
  | "" => intersperse new s
  | _ => replace_from old new 0 s
  end.

(** [s.split(sep)] for a one-character separator. *)
Fixpoint split (sep : ascii) (s : string) : list string :=
  match s with
  | "" => [""]
  | String c s' =>
      if Ascii.eqb c sep then "" :: split sep s'
      else match split sep s' with
           | [] => [String c ""]
           | p :: ps => String c p :: ps
           end
  end.

(** [int(s)] for a string of decimal digits. *)
Definition digit_value (c : ascii) : N := (code c - 48)%N.

Fixpoint int_from (acc : N) (s : string) : N :=
  match s with
  | "" => acc
  | String c s' => int_from (10 * acc + digit_value c)%N s'
  end.

Definition int (s : string) : N := int_from 0 s.

(** The white space that [int] skips at both ends of its argument. *)
Definition is_int_space (c : ascii) : bool :=
  between 9 13 c || (code c =? 32)%N || (code c =? 133)%N || (code c =? 160)%N.

Fixpoint lstrip (s : string) : string :=
  match s with
  | String c s' => if is_int_space c then lstrip s' else s
  | "" => ""
  end.

Fixpoint rstrip (s : string) : string :=
  match s with
  | "" => ""
  | String c s' =>
      match rstrip s' with
      | "" => if is_int_space c then "" else String c ""
      | t => String c t
      end
  end.

(** Decimal digits with single underscores between them; [after_digit]
    tells whether the character before was a digit. *)
Fixpoint numeral (after_digit : bool) (acc : N) (s : string) : option N :=
  match s with
  | "" => if after_digit then Some acc else None
  | String c s' =>
      if is_digit c then numeral true (10 * acc + digit_value c)%N s'
      else if (code c =? 95)%N && after_digit then numeral false acc s'
      else None
  end.

(** [int(s)] for any string, [None] standing for [ValueError]: white space
    at both ends, an optional sign, and a numeral. (Python refuses a
    numeral of more than 4300 digits; here it has its value, and the one
    caller, which wants a group number, refuses it as too high.) *)
Definition to_int (s : string) : option Z :=
  match rstrip (lstrip s) with
  | "" => None
  | String c s' =>
      if (code c =? 43)%N then option_map Z.of_N (numeral false 0 s')
      else if (code c =? 45)%N then option_map (fun n => (- Z.of_N n)%Z) (numeral false 0 s')
      else option_map Z.of_N (numeral false 0 (String c s'))
  end.

Fixpoint all (p : ascii -> bool) (s : string) : bool :=
  match s with
  | "" => true
  | String c s' => p c && all p s'
  end.

(** [not s] for an optional string: [None] and the empty string are falsy. *)
Definition falsy (o : option string) : bool :=
  match o with
  | None => true
  | Some s => String.eqb s ""
  end.

End Str.

(** ** Regular expressions: the backtracking matcher of [re]

  Patterns are abstract syntax; [run] explores the alternatives in the
  order Python does (greedy repetition first, left alternative first) and
  hands the rest of the input to a continuation, so that the first
  successful path decides the groups. *)

Module Re.

Inductive regex : Type :=
| Eps : regex
| Cls (p : ascii -> bool) : regex          (* one character of a class *)
| Cat (r1 r2 : regex) : regex               (* r1 r2 *)
| Alt (r1 r2 : regex) : regex               (* r1|r2 *)
| Star (r : regex) : regex                  (* r*, greedy *)
| Grp (n : nat) (r : regex) : regex         (* capturing group number n *)
| Eos : regex.                              (* $ *)

Definition Chr (c : ascii) : regex := Cls (Str.is_char c).
Definition Plus (r : regex) : regex := Cat r (Star r).
Definition Opt (r : regex) : regex := Alt r Eps.

Fixpoint Rep (n : nat) (r : regex) : regex :=
  match n with
  | O => Eps
  | S k => Cat r (Rep k r)
  end.

Abbreviation groups := (gmap nat string).

Section Run.
Context {R : Type}.

(** The loop of [r*] on an input of at most [fuel] characters: one more
    round of [body] that consumes something and then the loop again,
    else the continuation. In the patterns of the script and of [semver]
    every starred part consumes a character in each round. *)
Fixpoint star_loop (body : string -> groups -> (string -> groups -> option R) -> option R)
    (k : string -> groups -> option R) (fuel : nat) (s : string) (g : groups) : option R :=
  match fuel with
  | O => k s g
  | S f =>
      match body s g (fun s1 g1 =>
              if Nat.ltb (String.length s1) (String.length s)
              then star_loop body k f s1 g1 else None) with
      | Some x => Some x
      | None => k s g
      end
  end.

Fixpoint run (r : regex) (s : string) (g : groups)
    (k : string -> groups -> option R) : option R :=
  match r with
  | Eps => k s g
  | Cls p =>
      match s with
      | String c s' => if p c then k s' g else None
      | "" => None
      end
  | Cat r1 r2 => run r1 s g (fun s1 g1 => run r2 s1 g1 k)
  | Alt r1 r2 =>
      match run r1 s g k with
      | Some x => Some x
      | None => run r2 s g k
      end
  | Star r1 => star_loop (run r1) k (String.length s) s g
  | Grp n r1 =>
      run r1 s g (fun s1 g1 =>
        k s1 (<[n := Str.take (String.length s - String.length s1)%nat s]> g1))
  | Eos =>
      if String.eqb s "" || String.eqb s (String Str.LF "") then k s g else None
  end.
End Run.

(** A match object: the text before the match, the match, the text after
    it and the groups. *)
Record match_ := {
  pre : string;
  text : string;
  post : string;
  grp : groups
}.

(** [m[n]] *)
Definition group (m : match_) (n : nat) : string := default "" (grp m !! n).

(** The match that starts at the beginning of [s], if any. *)
Definition match_here (r : regex) (s : string) : option (string * groups) :=
  run r s ∅ (fun rest g => Some (rest, g)).

Definition found (before s rest : string) (g : groups) : match_ :=
  {| pre := before;
     text := Str.take (String.length s - String.length rest)%nat s;
     post := rest;
     grp := g |}.

(** [re.match(r, s)] *)
Definition match' (r : regex) (s : string) : option match_ :=
  match match_here r s with
  | Some (rest, g) => Some (found "" s rest g)
  | None => None
  end.

(** [re.search(r, s)]: the leftmost match; [before] is the text already
    passed over. *)
Fixpoint search_from (r : regex) (before : string) (s : string) : option match_ :=
  match match_here r s with
  | Some (rest, g) => Some (found before s rest g)
  | None =>
      match s with
      | "" => None
      | String c s' => search_from r (before +:+ String c "") s'
      end
  end.

Definition search (r : regex) (s : string) : option match_ := search_from r "" s.

(** *** The replacement template of [re.sub]

    A replacement text is read as [parse_template] of Python 3.8 to 3.11
    reads it (from 3.12 on the name in [\g<name>] must be made of digits).
    The tokenizer takes a backslash and the character after it as one
    token and raises on a backslash at the end. *)

Definition BACKSLASH : ascii := ascii_of_N 92.

Inductive token : Type :=
| Plain (c : ascii)
| Escaped (c : ascii).

Fixpoint tokens (source : string) : option (list token) :=
  match source with
  | "" => Some []
  | String c rest =>
      if Ascii.eqb c BACKSLASH then
        match rest with
        | "" => None
        | String d rest' =>
            match tokens rest' with
            | Some ts => Some (Escaped d :: ts)
            | None => None
            end
        end
      else
        match tokens rest with
        | Some ts => Some (Plain c :: ts)
        | None => None
        end
  end.

(** A template: literal texts and references to groups. *)
Inductive piece : Type :=
| Literal (s : string)
| Reference (index : nat).

Definition is_octal (c : ascii) : bool := Str.between 48 55 c.

Definition is_ascii_letter (c : ascii) : bool :=
  Str.between 65 90 c || Str.between 97 122 c.

(** The escapes [\a \b \f \n \r \t \v] and the doubled backslash. *)
Definition ESCAPES (c : ascii) : option ascii :=
  if Ascii.eqb c "a" then Some (ascii_of_N 7)
  else if Ascii.eqb c "b" then Some (ascii_of_N 8)
  else if Ascii.eqb c "f" then Some (ascii_of_N 12)
  else if Ascii.eqb c "n" then Some (ascii_of_N 10)
  else if Ascii.eqb c "r" then Some (ascii_of_N 13)
  else if Ascii.eqb c "t" then Some (ascii_of_N 9)
  else if Ascii.eqb c "v" then Some (ascii_of_N 11)
  else if Ascii.eqb c BACKSLASH then Some BACKSLASH
  else None.

(** [int(digits, 8)] and [int(digits)] *)
Definition octal (ds : list ascii) : N :=
  fold_left (fun acc d => (8 * acc + Str.digit_value d)%N) ds 0%N.

Definition decimal (ds : list ascii) : N :=
  fold_left (fun acc d => (10 * acc + Str.digit_value d)%N) ds 0%N.

Definition literal (c : ascii) (parsed : option (list piece)) : option (list piece) :=
  match parsed with
  | Some t => Some (Literal (String c "") :: t)
  | None => None
  end.

(** [addgroup]: a reference to a group that the pattern does not have
    raises. *)
Definition addgroup (n_groups : nat) (index : N) (parsed : option (list piece))
    : option (list piece) :=
  if (N.of_nat n_groups <? index)%N then None
  else match parsed with
       | Some t => Some (Reference (N.to_nat index) :: t)
       | None => None
       end.

(** The loop of [parse_template] over the tokens, [None] when it raises;
    [group_name] is [getuntil] inside [\g<name>] together with what is
    done with the name. The patterns have no named group, so a name that
    is an identifier raises; an identifier begins with a letter or an
    underscore, [to_int] gives [None] for it, and so the one test on
    [to_int] stands for both cases. *)
Fixpoint parse_tokens (n_groups : nat) (ts : list token) {struct ts}
    : option (list piece) :=
  match ts with
  | [] => Some []
  | Plain c :: rest => literal c (parse_tokens n_groups rest)
  | Escaped c :: rest =>
      if Ascii.eqb c "g" then
        match rest with
        | Plain d :: rest1 =>
            if Ascii.eqb d "<" then group_name n_groups "" rest1 else None
        | _ => None
        end
      else if Ascii.eqb c "0" then
        match rest with
        | Plain d1 :: rest1 =>
            if is_octal d1 then
              match rest1 with
              | Plain d2 :: rest2 =>
                  if is_octal d2
                  then literal (ascii_of_N (octal [d1; d2])) (parse_tokens n_groups rest2)
                  else literal (ascii_of_N (octal [d1])) (parse_tokens n_groups rest1)
              | _ => literal (ascii_of_N (octal [d1])) (parse_tokens n_groups rest1)
              end
            else literal (ascii_of_N 0) (parse_tokens n_groups rest)
        | _ => literal (ascii_of_N 0) (parse_tokens n_groups rest)
        end
      else if Str.is_digit c then
        match rest with
        | Plain d1 :: rest1 =>
            if Str.is_digit d1 then
              match rest1 with
              | Plain d2 :: rest2 =>
                  if is_octal c && is_octal d1 && is_octal d2 then
                    if (255 <? octal [c; d1; d2])%N then None
                    else literal (ascii_of_N (octal [c; d1; d2])) (parse_tokens n_groups rest2)
                  else addgroup n_groups (decimal [c; d1]) (parse_tokens n_groups rest1)
              | _ => addgroup n_groups (decimal [c; d1]) (parse_tokens n_groups rest1)
              end
            else addgroup n_groups (decimal [c]) (parse_tokens n_groups rest)
        | _ => addgroup n_groups (decimal [c]) (parse_tokens n_groups rest)
        end
      else
        match ESCAPES c with
        | Some e => literal e (parse_tokens n_groups rest)
        | None =>
            if is_ascii_letter c then None
            else
              match parse_tokens n_groups rest with
              | Some t => Some (Literal (String BACKSLASH (String c "")) :: t)
              | None => None
              end
        end
  end
with group_name (n_groups : nat) (name : string) (ts : list token) {struct ts}
    : option (list piece) :=
  match ts with
  | [] => None
  | Plain c :: rest =>
      if Ascii.eqb c ">" then
        if String.eqb name "" then None
        else
          match Str.to_int name with
          | Some index =>
              if (index <? 0)%Z then None
              else addgroup n_groups (Z.to_N index) (parse_tokens n_groups rest)
          | None => None
          end
      else group_name n_groups (name +:+ String c "") rest
  | Escaped c :: rest =>
      group_name n_groups (name +:+ String BACKSLASH (String c "")) rest
  end.

(** [pattern.groups]: the highest group number of a pattern. *)
Fixpoint n_groups (r : regex) : nat :=
  match r with
  | Grp n r1 => Nat.max n (n_groups r1)
  | Cat r1 r2 | Alt r1 r2 => Nat.max (n_groups r1) (n_groups r2)
  | Star r1 => n_groups r1
  | Eps | Cls _ | Eos => O
  end.

Definition parse_template (r : regex) (repl : string) : option (list piece) :=
  match tokens repl with
  | Some ts => parse_tokens (n_groups r) ts
  | None => None
  end.

(** [expand_template]: the literals as they are, a reference replaced by
    the text of its group ([whole] for group 0), by nothing for a group
    that took no part in the match. *)
Fixpoint expand (t : list piece) (whole : string) (g : groups) : string :=
  match t with
  | [] => ""
  | Literal s :: t' => s +:+ expand t' whole g
  | Reference O :: t' => whole +:+ expand t' whole g
  | Reference n :: t' => default "" (g !! n) +:+ expand t' whole g
  end.

(** The replacements of [re.sub] for a template that has been read: every
    non-overlapping match, from the left, is replaced by the template
    expanded with its groups. [skip] counts the characters of a match still
    to be passed over. *)
Fixpoint sub_from (r : regex) (t : list piece) (skip : nat) (s : string) : string :=
  match s with
  | "" =>
      match skip, match_here r "" with
      | O, Some (_, g) => expand t "" g
      | _, _ => ""
      end
  | String c s' =>
      match skip with
      | S k => sub_from r t k s'
      | O =>
          match match_here r s with
          | Some (rest, g) =>
              let n := (String.length s - String.length rest)%nat in
              let new := expand t (Str.take n s) g in
              match n with
              | O => new +:+ String c (sub_from r t 0 s')
              | S n' => new +:+ sub_from r t n' s'
              end
          | None => String c (sub_from r t 0 s')
          end
      end
  end.

(** [re.sub(r, repl, s)]; [None] when the template cannot be read and
    [re.sub] raises, whether or not [r] matches in [s]. *)
Definition sub (r : regex) (repl s : string) : option string :=
  match parse_template r repl with
  | Some t => Some (sub_from r t 0 s)
  | None => None
  end.

End Re.

(** ** The [semver] package

    [semver] is a dependency of the script, not part of it. This module
    follows the package's documented contract: [VersionInfo.parse] accepts
    exactly the strings its regular expression matches (it raises
    [ValueError] otherwise, here [None]), and versions are ordered by the
    precedence rules of Semantic Versioning 2.0.0, build metadata ignored. *)

Module Semver.

Import Re.

Record VersionInfo := {
  major : N;
  minor : N;
  patch : N;
  prerelease : option string;
  build : option string
}.

Definition digit : regex := Cls Str.is_digit.
Definition nonzero_digit : regex := Cls (Str.between 49 57).

(** [0|[1-9]\d*] *)
Definition numeric : regex := Alt (Chr "0") (Cat nonzero_digit (Star digit)).

(** [0|[1-9]\d*|\d*[a-zA-Z-][0-9a-zA-Z-]*] *)
Definition prerelease_identifier : regex :=
  Alt (Chr "0")
    (Alt (Cat nonzero_digit (Star digit))
         (Cat (Star digit) (Cat (Cls Str.is_alpha_dash) (Star (Cls Str.is_alnum_dash))))).

(** [[0-9a-zA-Z-]+] *)
Definition build_identifier : regex := Plus (Cls Str.is_alnum_dash).

(** The regular expression of the package; the groups major, minor, patch,
    prerelease and build are numbered 1 to 5. *)
Definition REGEX : regex :=
  Cat (Grp 1 numeric) (Cat (Chr ".")
  (Cat (Grp 2 numeric) (Cat (Chr ".")
  (Cat (Grp 3 numeric)
  (Cat (Opt (Cat (Chr "-")
         (Grp 4 (Cat prerelease_identifier
                     (Star (Cat (Chr ".") prerelease_identifier))))))
  (Cat (Opt (Cat (Chr "+")
         (Grp 5 (Cat build_identifier
                     (Star (Cat (Chr ".") build_identifier))))))
       Eos)))))).

(** [VersionInfo.parse(version)]; [None] stands for [ValueError]. *)
Definition parse (version : string) : option VersionInfo :=
  match Re.match' REGEX version with
  | None => None
  | Some m =>
      Some {| major := Str.int (group m 1);
              minor := Str.int (group m 2);
              patch := Str.int (group m 3);
              prerelease := grp m !! 4;
              build := grp m !! 5 |}
  end.

(** A pre-release identifier: numeric when it is all digits. *)
Inductive identifier : Type :=
| Numeric (n : N)
| Alphanumeric (s : string).

Definition convert (part : string) : identifier :=
  if negb (String.eqb part "") && Str.all Str.is_digit part
  then Numeric (Str.int part) else Alphanumeric part.

Definition identifiers (pre : string) : list identifier :=
  map convert (Str.split "." pre).

(** Numeric identifiers compare as numbers and are lower than the others,
    which compare as text. *)
Definition compare_identifier (a b : identifier) : comparison :=
  match a, b with
  | Numeric x, Numeric y => N.compare x y
  | Numeric _, Alphanumeric _ => Lt
  | Alphanumeric _, Numeric _ => Gt
  | Alphanumeric x, Alphanumeric y => String.compare x y
  end.

(** Identifier by identifier from the left; when all of the shorter list
    are equal, the longer list is the higher. *)
Fixpoint compare_identifiers (l1 l2 : list identifier) : comparison :=
  match l1, l2 with
  | [], [] => Eq
  | [], _ :: _ => Lt
  | _ :: _, [] => Gt
  | a :: l1', b :: l2' =>
      match compare_identifier a b with
      | Eq => compare_identifiers l1' l2'
      | c => c
      end
  end.

(** A version without pre-release is higher than the same with one. *)
Definition compare_prerelease (p1 p2 : option string) : comparison :=
  match p1, p2 with
  | None, None => Eq
  | None, Some _ => Gt
  | Some _, None => Lt
  | Some a, Some b => compare_identifiers (identifiers a) (identifiers b)
  end.

Definition then_ (c1 c2 : comparison) : comparison :=
  match c1 with
  | Eq => c2
  | _ => c1
  end.

(** [v1.compare(v2)] *)
Definition compare (v1 v2 : VersionInfo) : comparison :=
  then_ (N.compare (major v1) (major v2))
 (then_ (N.compare (minor v1) (minor v2))
 (then_ (N.compare (patch v1) (patch v2))
        (compare_prerelease (prerelease v1) (prerelease v2)))).

(** [v1 > v2] *)
Definition gt (v1 v2 : VersionInfo) : bool :=
  match compare v1 v2 with
  | Gt => true
  | _ => false
  end.

End Semver.

(** ** Data of the script *)

(** A cache entry: [{"sha": ..., "full_version": ...}]. *)
Record details := {
  sha : string;
  full_version : string
}.

(** An element of a repository's releases list. *)
Record release := {
  tag_name : string
}.

(** The answer of the tag reference endpoint: the key ["object"] may be
    missing; when present it holds the hash under ["sha"]. *)
Record ref_data := {
  object : option string
}.

(** An element of a repository's tags list. *)
Record tag_info := {
  name : string
}.

(** The answer of the latest release endpoint: the key ["tag_name"] may be
    missing. *)
Record release_data := {
  latest_tag_name : option string
}.

(** What the hosting API answers at each URL; [None] is the [None] of
    [fetch_json] (status other than 200, network failure, malformed body). *)
Record remote := {
  releases_at : string -> option (list release);
  ref_at : string -> option ref_data;
  tags_at : string -> option (list tag_info);
  latest_at : string -> option release_data
}.

(** The content of the cache file once read by [json.load]. The timestamp
    is [None] when the key is missing, [Some None] when
    [datetime.fromisoformat] or the subtraction from [datetime.now()] raises,
    and otherwise a time in microseconds; [entries] is [None] when the key
    is missing. *)
Record cache_data := {
  timestamp : option (option Z);
  entries : option (gmap string details)
}.

Inductive cache_file_state : Type :=
| Missing                              (* cache_file.exists() is false *)
| Unreadable                           (* open or json.load raises *)
| Stored (data : cache_data).

(** The mutable state: the global [cache], the URLs fetched so far (latest
    first), the cache file, the files by path, the paths that cannot be
    opened for writing, and the writes made so far (latest first). *)
Record world := {
  cache : gmap string details;
  requests : list string;
  cache_file : cache_file_state;
  files : gmap string string;
  readonly : gset string;
  writes : list (string * string)
}.

Definition set_cache (c : gmap string details) (w : world) : world :=
  {| cache := c; requests := requests w; cache_file := cache_file w;
     files := files w; readonly := readonly w; writes := writes w |}.

Definition log_request (url : string) (w : world) : world :=
  {| cache := cache w; requests := url :: requests w; cache_file := cache_file w;
     files := files w; readonly := readonly w; writes := writes w |}.

Definition write_file (path content : string) (w : world) : world :=
  {| cache := cache w; requests := requests w; cache_file := cache_file w;
     files := <[path := content]> (files w); readonly := readonly w;
     writes := (path, content) :: writes w |}.

(** The state of the process when the module has been loaded: [cache = {}]
    and nothing requested or written yet. *)
Definition fresh (f : cache_file_state) (fs : gmap string string) (ro : gset string) : world :=
  {| cache := ∅; requests := []; cache_file := f; files := fs; readonly := ro; writes := [] |}.

(** ** The state monad *)

Definition M (A : Type) : Type := world -> A * world.

Definition ret {A : Type} (a : A) : M A := fun w => (a, w).

Definition bind {A B : Type} (m : M A) (k : A -> M B) : M B :=
  fun w => let '(a, w') := m w in k a w'.

Definition get : M world := fun w => (w, w).

Definition modify (f : world -> world) : M unit := fun w => (tt, f w).

Declare Scope prog_scope.
Delimit Scope prog_scope with prog.
Notation "x <- m ;; k" := (bind m (fun x => k))
  (at level 100, m at next level, right associativity) : prog_scope.
Notation "m ;;; k" := (bind m (fun _ => k))
  (at level 100, right associativity) : prog_scope.

Local Open Scope prog_scope.

(** What a call that can raise gives: its value, or an exception that
    goes up to the caller. *)
Inductive outcome (A : Type) : Type :=
| Value (a : A)
| Exception.

Arguments Value {A} a.
Arguments Exception {A}.

(** A [for] loop over [l] that threads the accumulator [acc]; an
    exception in the body leaves the loop. *)
Fixpoint for_each {A B : Type} (body : B -> A -> M (outcome B)) (l : list A) (acc : B)
    : M (outcome B) :=
  match l with
  | [] => ret (Value acc)
  | x :: l' =>
      r <- body acc x ;;
      match r with
      | Value acc' => for_each body l' acc'
      | Exception => ret Exception
      end
  end.

Definition HOURS : Z := 3600 * 1000000.

(** ** The cache file *)

(** [load_cache()] at time [now]. Every exception is caught and logged;
    an early [return] and a caught exception both leave [cache] as it is. *)
Definition load_cache (now : Z) : M unit :=
  w <- get ;;
  match cache_file w with
  | Missing => ret tt
  | Unreadable => ret tt
  | Stored cache_data =>
      match timestamp cache_data with
      | None => ret tt
      | Some None => ret tt
      | Some (Some cache_time) =>
          if (24 * HOURS <=? now - cache_time)%Z then ret tt
          else modify (set_cache (default ∅ (entries cache_data)))
      end
  end.

(** ** The hosting API *)

(** [fetch_json(url)], read through the view of the endpoint it addresses. *)
Definition fetch_json {A : Type} (view : string -> option A) (url : string) : M (option A) :=
  modify (log_request url) ;;; ret (view url).

Section Script.

Context (api : remote).

Definition get_all_releases (repo : string) : M (list release) :=
  let releases_url := "https://api.github.com/repos/" +:+ repo +:+ "/releases" in
  r <- fetch_json (releases_at api) releases_url ;;
  ret (default [] r).

(** ** Versions *)

Definition parse_semver (version_tag : string) : bool * option Semver.VersionInfo :=
  let version := version_tag in
  let version := if Str.startswith version "v" then Str.drop 1 version else version in
  match Semver.parse version with
  | Some v => (true, Some v)
  | None => (false, None)
  end.

(** One round of the loop over the releases. *)
Definition latest_step (major_version : N)
    (acc : string * option Semver.VersionInfo) (release : release)
    : string * option Semver.VersionInfo :=
  let '(latest_version, latest_parsed) := acc in
  let tag_name := tag_name release in
  match parse_semver tag_name with
  | (true, Some parsed) =>
      if negb (Semver.major parsed =? major_version)%N then acc
      else match latest_parsed with
           | None => (tag_name, Some parsed)
           | Some lp => if Semver.gt parsed lp then (tag_name, Some parsed) else acc
           end
  | _ => acc
  end.

Definition get_latest_version (repo current_tag : string) : M string :=
  match parse_semver current_tag with
  | (true, Some parsed_current) =>
      let major_version := Semver.major parsed_current in
      releases <- get_all_releases repo ;;
      match releases with
      | [] => ret current_tag
      | _ => ret (fst (fold_left (latest_step major_version) releases (current_tag, None)))
      end
  | _ => ret current_tag
  end.

(** ** Tag resolution *)

Definition get_tag_sha (repo tag : string) : M (option string) :=
  let ref_url := "https://api.github.com/repos/" +:+ repo +:+ "/git/refs/tags/" +:+ tag in
  ref_data <- fetch_json (ref_at api) ref_url ;;
  match ref_data with
  | None => ret None
  | Some rd =>
      match object rd with
      | None => ret None
      | Some sha => ret (Some sha)
      end
  end.

Definition get_exact_tag_match (repo tag : string) : M string :=
  let tag_url := "https://api.github.com/repos/" +:+ repo +:+ "/tags" in
  tags_data <- fetch_json (tags_at api) tag_url ;;
  match tags_data with
  | None => ret tag
  | Some [] => ret tag
  | Some tags =>
      match find (fun tag_info => String.eqb (name tag_info) tag) tags with
      | Some _ => ret tag
      | None => ret tag
      end
  end.

Definition get_latest_release_tag (repo tag : string) : M string :=
  if negb (Str.startswith tag "v") || (3 <? String.length tag)%nat then ret tag
  else
    let release_url := "https://api.github.com/repos/" +:+ repo +:+ "/releases/latest" in
    release_data <- fetch_json (latest_at api) release_url ;;
    match release_data with
    | None => ret tag
    | Some rd =>
        match latest_tag_name rd with
        | None => ret tag
        | Some latest_tag =>
            if negb (Str.startswith latest_tag tag) then ret tag
            else ret latest_tag
        end
    end.

Definition get_cached_details (repo tag : string) (check_for_updates : bool)
    : M (option details) :=
  let cache_key := repo +:+ "@" +:+ tag in
  w <- get ;;
  if negb check_for_updates then ret (cache w !! cache_key) else ret None.

Definition update_cache (repo tag sha full_version : string) : M unit :=
  let cache_key := repo +:+ "@" +:+ tag in
  modify (fun w => set_cache
            (<[cache_key := {| sha := sha; full_version := full_version |}]> (cache w)) w).

(** The part of [fetch_tag_details] after the target tag is known: the
    hash, the full version, and the cache update. *)
Definition fetch_uncached (repo latest_tag : string) : M (option string * option string) :=
  sha <- get_tag_sha repo latest_tag ;;
  match sha with
  | None => ret (None, None)
  | Some sha =>
      if String.eqb sha "" then ret (None, None)
      else
        full_version <- get_exact_tag_match repo latest_tag ;;
        full_version <- (if String.eqb full_version latest_tag
                         then get_latest_release_tag repo latest_tag
                         else ret full_version) ;;
        update_cache repo latest_tag sha full_version ;;;
        ret (Some sha, Some full_version)
  end.

Definition fetch_tag_details (repo tag : string) (check_for_updates : bool)
    : M (option string * option string) :=
  details <- get_cached_details repo tag check_for_updates ;;
  match details with
  | Some d => ret (Some (sha d), Some (full_version d))
  | None =>
      if negb check_for_updates then fetch_uncached repo tag
      else
        latest_tag <- get_latest_version repo tag ;;
        if negb (String.eqb latest_tag tag) then
          details <- get_cached_details repo latest_tag check_for_updates ;;
          match details with
          | Some d => ret (Some (sha d), Some (full_version d))
          | None => fetch_uncached repo latest_tag
          end
        else fetch_uncached repo latest_tag
  end.

(** ** Line rewriting *)

Definition word_or_dash : Re.regex := Re.Cls (fun c => Str.is_word c || Str.is_char "-" c).
Definition digits : Re.regex := Re.Plus (Re.Cls Str.is_digit).
Definition spaces : Re.regex := Re.Star (Re.Cls Str.is_space).

(** The repository part, [[\w-]+/[\w-]+]. *)
Definition owner_repo : Re.regex :=
  Re.Cat (Re.Plus word_or_dash) (Re.Cat (Re.Chr "/") (Re.Plus word_or_dash)).

(** The version part, [v\d+(?:\.\d+)*]. *)
Definition v_version : Re.regex :=
  Re.Cat (Re.Chr "v") (Re.Cat digits (Re.Star (Re.Cat (Re.Chr ".") digits))).

(** The pinned pattern, [([\w-]+/[\w-]+)@([0-9a-f]{40})\s*#\s*(V)] where [V]
    is the version part above. *)
Definition pinned_pattern : Re.regex :=
  Re.Cat (Re.Grp 1 owner_repo) (Re.Cat (Re.Chr "@")
  (Re.Cat (Re.Grp 2 (Re.Rep 40 (Re.Cls Str.is_lower_hex)))
  (Re.Cat spaces (Re.Cat (Re.Chr "#") (Re.Cat spaces (Re.Grp 3 v_version)))))).

(** The unpinned pattern, [([\w-]+/[\w-]+)@(V)]. *)
Definition unpinned_pattern : Re.regex :=
  Re.Cat (Re.Grp 1 owner_repo) (Re.Cat (Re.Chr "@") (Re.Grp 2 v_version)).

(** An optional string inside an f-string. *)
Definition fmt (o : option string) : string := default "None" o.

Definition is_pinned_action (line : string) : bool :=
  match Re.search pinned_pattern line with
  | Some _ => true
  | None => false
  end.

(** [full_version == current_version] *)
Definition same_version (full_version : option string) (current_version : string) : bool :=
  match full_version with
  | Some v => String.eqb v current_version
  | None => false
  end.

(** [re.sub] raises when it cannot read the replacement text as a
    template; nothing in the function catches the exception. *)
Definition process_pinned_action (line : string) (check_for_updates : bool)
    : M (outcome (string * bool)) :=
  if negb check_for_updates then ret (Value (line, false))
  else
    match Re.search pinned_pattern line with
    | None => ret (Value (line, false))
    | Some match_ =>
        let repo := Re.group match_ 1 in
        let current_version := Re.group match_ 3 in
        r <- fetch_tag_details repo current_version true ;;
        let '(sha, full_version) := r in
        if Str.falsy sha || same_version full_version current_version
        then ret (Value (line, false))
        else
          match
            Re.sub pinned_pattern (repo +:+ "@" +:+ fmt sha +:+ " # " +:+ fmt full_version) line
          with
          | Some new_line => ret (Value (new_line, true))
          | None => ret Exception
          end
    end.

Definition process_unpinned_action (line : string) (check_for_updates : bool)
    : M (outcome (string * bool)) :=
  match Re.search unpinned_pattern line with
  | None => ret (Value (line, false))
  | Some match_ =>
      let repo := Re.group match_ 1 in
      let tag := Re.group match_ 2 in
      let key := repo +:+ "@" +:+ tag in
      r <- fetch_tag_details repo tag check_for_updates ;;
      let '(sha, full_version) := r in
      if Str.falsy sha then ret (Value (line, false))
      else
        let new_line :=
          Str.replace line key (repo +:+ "@" +:+ fmt sha +:+ " # " +:+ fmt full_version) in
        ret (Value (new_line, true))
  end.

Definition process_line (line : string) (check_for_updates : bool)
    : M (outcome (string * bool)) :=
  (if is_pinned_action line then process_pinned_action else process_unpinned_action)
    line check_for_updates.

(** ** File processing *)

(** The body of the loop over the lines: the accumulator is
    [(updated_lines, changes_made)]. *)
Definition process_lines_step (check_for_updates : bool)
    (acc : list string * bool) (line : string) : M (outcome (list string * bool)) :=
  let '(updated_lines, changes_made) := acc in
  r <- process_line line check_for_updates ;;
  match r with
  | Value (updated_line, line_changed) =>
      ret (Value ((updated_lines ++ [updated_line])%list, changes_made || line_changed))
  | Exception => ret Exception
  end.

(** [open(file_path, 'w', newline='')] and [file.write(new_content)]: a path
    that cannot be opened raises before anything is written. *)
Definition write_text (file_path new_content : string) : M unit :=
  w <- get ;;
  if bool_decide (file_path ∈ readonly w) then ret tt
  else modify (write_file file_path new_content).

(** Reading and writing are inside a [try]; the loop over the lines is
    not, and an exception of [process_line] leaves the function before
    anything is written. *)
Definition process_workflow_file (file_path : string) (check_for_updates : bool)
    : M (outcome unit) :=
  w <- get ;;
  match files w !! file_path with
  | None => ret (Value tt)
  | Some content =>
      let lines := Str.splitlines content in
      r <- for_each (process_lines_step check_for_updates) lines ([], false) ;;
      match r with
      | Exception => ret Exception
      | Value (updated_lines, changes_made) =>
          if negb changes_made then ret (Value tt)
          else
            let new_content := Str.join (String Str.LF "") updated_lines in
            write_text file_path new_content ;;; ret (Value tt)
      end
  end.

End Script.

(** ** Saving the cache, the comment version and the driver *)

Definition set_cache_file (f : cache_file_state) (w : world) : world :=
  {| cache := cache w; requests := requests w; cache_file := f;
     files := files w; readonly := readonly w; writes := writes w |}.

(** What happens when the cache file is written: it is written in full,
    or it cannot be opened (the file stays as it was), or the write breaks
    off (what is left cannot be read back). *)
Inductive write_outcome : Type :=
| Written
| NotOpened
| Broken.

(** [save_cache()] at time [now]; the exception of a failed write is caught
    and logged. *)
Definition save_cache (now : Z) (outcome : write_outcome) : M unit :=
  w <- get ;;
  match outcome with
  | Written =>
      modify (set_cache_file
                (Stored {| timestamp := Some (Some now); entries := Some (cache w) |}))
  | NotOpened => ret tt
  | Broken => modify (set_cache_file Unreadable)
  end.

(** The pattern of [extract_comment_version], [#\s*(V)] where [V] is the
    version part. *)
Definition comment_pattern : Re.regex :=
  Re.Cat (Re.Chr "#") (Re.Cat spaces (Re.Grp 1 v_version)).

Definition extract_comment_version (line : string) : option string :=
  match Re.search comment_pattern line with
  | Some comment_match => Some (Re.group comment_match 1)
  | None => None
  end.

(** The flags of the command line that decide what [main] does. *)
Record arguments := {
  dry_run : bool;
  clear_cache : bool;
  upgrade : bool
}.

(** What the search for workflow files under [args.directory] gives: the
    directory does not exist, or the search raises, or the files found, the
    [.yml] ones before the [.yaml] ones. *)
Inductive discovery : Type :=
| NoDirectory
| SearchFails
| Found (workflow_files : list string).

(** The file system as [main] meets it, apart from the workflow files
    themselves: the discovery, whether [os.remove] can delete the cache file,
    and how saving the cache goes. *)
Record system := {
  discovered : discovery;
  removable : bool;
  saving : write_outcome
}.

(** [main] returns, or the exception of [os.remove], raised outside the
    [try], ends it. *)
Inductive ending : Type :=
| Returned
| Raised.

Definition cache_file_exists (w : world) : bool :=
  match cache_file w with
  | Missing => false
  | _ => true
  end.

Section Driver.

Context (api : remote).

(** [main] from the search for the workflow files on. An exception of
    [process_workflow_file] is caught by the [except] at the end: the files
    that are left and [save_cache] are passed over. *)
Definition process_all (args : arguments) (sys : system) (now_save : Z) : M ending :=
  match discovered sys with
  | NoDirectory => ret Returned
  | SearchFails => ret Returned
  | Found [] => ret Returned
  | Found workflow_files =>
      r <- for_each (fun (_ : unit) file_path =>
                       if dry_run args then ret (Value tt)
                       else process_workflow_file api file_path (upgrade args))
                    workflow_files tt ;;
      match r with
      | Value _ => save_cache now_save (saving sys) ;;; ret Returned
      | Exception => ret Returned
      end
  end.

(** [main()]: [now_load] and [now_save] are the times at which [load_cache]
    and [save_cache] read the clock. *)
Definition main (args : arguments) (sys : system) (now_load now_save : Z) : M ending :=
  w <- get ;;
  if clear_cache args && cache_file_exists w then
    if removable sys then
      modify (set_cache_file Missing) ;;; process_all args sys now_save
    else ret Raised
  else
    load_cache now_load ;;; process_all args sys now_save.

End Driver.

(** ** The words of a pattern

    What a pattern without [$] can consume, apart from any matcher: used
    to say what the text of a match looks like and where a match exists. *)

Inductive word : Re.regex -> string -> Prop :=
| word_eps : word Re.Eps ""
| word_cls p c : p c = true -> word (Re.Cls p) (String c "")
| word_cat r1 r2 x y : word r1 x -> word r2 y -> word (Re.Cat r1 r2) (x +:+ y)
| word_alt_l r1 r2 x : word r1 x -> word (Re.Alt r1 r2) x
| word_alt_r r1 r2 x : word r2 x -> word (Re.Alt r1 r2) x
| word_star_nil r : word (Re.Star r) ""
| word_star_more r x y : word r x -> word (Re.Star r) y -> word (Re.Star r) (x +:+ y)
| word_grp n r x : word r x -> word (Re.Grp n r) x.

(** No [$] in the pattern. *)
Fixpoint anchor_free (r : Re.regex) : bool :=
  match r with
  | Re.Eos => false
  | Re.Cat r1 r2 | Re.Alt r1 r2 => anchor_free r1 && anchor_free r2
  | Re.Star r1 | Re.Grp _ r1 => anchor_free r1
  | Re.Eps | Re.Cls _ => true
  end.

(** No capturing group in the pattern. *)
Fixpoint group_free (r : Re.regex) : bool :=
  match r with
  | Re.Grp _ _ => false
  | Re.Cat r1 r2 | Re.Alt r1 r2 => group_free r1 && group_free r2
  | Re.Star r1 => group_free r1
  | Re.Eps | Re.Cls _ | Re.Eos => true
  end.

(** ** Vocabulary of the properties

    Definitions that the statements below use to speak about the script:
    what a line asks to be resolved, the results of the loop over the lines
    of a file, the display version in the words of the specification and
    as the script computes it, the text of a file by lines and
    terminators. *)

(** The resolution that [process_line] asks for on [line]: repository, tag
    and the flag passed to [fetch_tag_details]; [None] when the line makes
    no call. *)
Definition requested_resolution (line : string) (check_for_updates : bool)
    : option (string * string * bool) :=
  if is_pinned_action line then
    if check_for_updates then
      match Re.search pinned_pattern line with
      | Some m => Some (Re.group m 1, Re.group m 3, true)
      | None => None
      end
    else None
  else
    match Re.search unpinned_pattern line with
    | Some m => Some (Re.group m 1, Re.group m 2, check_for_updates)
    | None => None
    end.

(** The results [(updated_line, line_changed)] of [process_line] on the
    lines of a file, in order, each from the world the previous one left,
    up to the first line on which [process_line] raises. *)
Fixpoint line_results (api : remote) (check_for_updates : bool) (lines : list string)
    (w : world) : list (string * bool) :=
  match lines with
  | [] => []
  | line :: rest =>
      match process_line api line check_for_updates w with
      | (Value r, w') => r :: line_results api check_for_updates rest w'
      | (Exception, _) => []
      end
  end.

(** Whether [process_line] raises on one of the lines. *)
Fixpoint lines_raise (api : remote) (check_for_updates : bool) (lines : list string)
    (w : world) : bool :=
  match lines with
  | [] => false
  | line :: rest =>
      match process_line api line check_for_updates w with
      | (Value _, w') => lines_raise api check_for_updates rest w'
      | (Exception, _) => true
      end
  end.

(** The world after the loop over the lines: after the last line, or after
    the line on which [process_line] raises. *)
Fixpoint lines_world (api : remote) (check_for_updates : bool) (lines : list string)
    (w : world) : world :=
  match lines with
  | [] => w
  | line :: rest =>
      match process_line api line check_for_updates w with
      | (Value _, w') => lines_world api check_for_updates rest w'
      | (Exception, w') => w'
      end
  end.

(** The tag of the latest release of [repo], when the endpoint answers and
    the answer has one. *)
Definition latest_release_of (api : remote) (repo : string) : option string :=
  match latest_at api ("https://api.github.com/repos/" +:+ repo +:+ "/releases/latest") with
  | Some rd => latest_tag_name rd
  | None => None
  end.

(** The tag list of [repo]; empty when the endpoint does not answer. *)
Definition tag_list_of (api : remote) (repo : string) : list tag_info :=
  default [] (tags_at api ("https://api.github.com/repos/" +:+ repo +:+ "/tags")).

(** A short alias: begins with [v] and has at most 3 characters. *)
Definition short_alias (tag : string) : bool :=
  Str.startswith tag "v" && (String.length tag <=? 3)%nat.

(** The display version in the words of the specification: the target tag
    when it is in the tag list; else the latest release's tag when the target
    is a short alias that this tag begins with; else the target tag. *)
Definition claimed_display (tags : list tag_info) (latest : option string)
    (target : string) : string :=
  if existsb (fun t => String.eqb (name t) target) tags then target
  else if short_alias target then
    match latest with
    | Some latest_tag => if Str.startswith latest_tag target then latest_tag else target
    | None => target
    end
  else target.

(** The same without the first case: the tag list plays no part. *)
Definition display_version (latest : option string) (target : string) : string :=
  if short_alias target then
    match latest with
    | Some latest_tag => if Str.startswith latest_tag target then latest_tag else target
    | None => target
    end
  else target.

(** A tag without its optional leading [v]. *)
Definition strip_v (tag : string) : string :=
  if Str.startswith tag "v" then Str.drop 1 tag else tag.

(** The version of [tag] when it parses as a semantic version of major
    number [major_version]. *)
Definition same_major_version (major_version : N) (tag : string)
    : option Semver.VersionInfo :=
  match Semver.parse (strip_v tag) with
  | Some parsed => if (Semver.major parsed =? major_version)%N then Some parsed else None
  | None => None
  end.

(** The releases that [get_all_releases] returns for [repo]. *)
Definition releases_of (api : remote) (repo : string) : list release :=
  default [] (releases_at api ("https://api.github.com/repos/" +:+ repo +:+ "/releases")).

(** [tag] is the tag of a release of the list whose version has major
    number [major_version] and that no other such release exceeds. *)
Definition highest_of_major (major_version : N) (releases : list release)
    (tag : string) : Prop :=
  exists r p,
    In r releases /\ tag = tag_name r /\
    same_major_version major_version (tag_name r) = Some p /\
    forall r' p', In r' releases ->
      same_major_version major_version (tag_name r') = Some p' ->
      Semver.gt p' p = false.

(** What the loop has found after the releases [seen]. *)
Definition loop_invariant (major_version : N) (tag0 : string) (seen : list release)
    (acc : string * option Semver.VersionInfo) : Prop :=
  (acc = (tag0, None) /\
   forall r, In r seen -> same_major_version major_version (tag_name r) = None) \/
  (exists r p,
      In r seen /\ acc = (tag_name r, Some p) /\
      same_major_version major_version (tag_name r) = Some p /\
      forall r' p', In r' seen ->
        same_major_version major_version (tag_name r') = Some p' ->
        Semver.gt p' p = false).

(** Two worlds with the same files, the same writes made and the same
    read-only paths. *)
Definition same_disk (w w' : world) : Prop :=
  files w' = files w /\ writes w' = writes w /\ readonly w' = readonly w.

(** A computation that leaves the disk alone. *)
Definition keeps_disk {A : Type} (m : M A) : Prop :=
  forall w, same_disk w (snd (m w)).

(** The line terminators that the text of a workflow file is built from. *)
Inductive terminator : Type :=
| LF_
| CRLF_
| CR_.

Definition terminator_text (t : terminator) : string :=
  match t with
  | LF_ => String Str.LF ""
  | CRLF_ => String Str.CR (String Str.LF "")
  | CR_ => String Str.CR ""
  end.

(** The text of a file: terminated lines, then a last line without
    terminator, empty when the file ends with a terminator. *)
Fixpoint file_text (rows : list (string * terminator)) (last : string) : string :=
  match rows with
  | [] => last
  | (line, t) :: rest => line +:+ terminator_text t +:+ file_text rest last
  end.

Definition no_linebreak (line : string) : bool :=
  Str.all (fun c => negb (Str.is_linebreak c)) line.

(** No line ends with a lone CR right before an empty line that ends with
    LF: the two would read as one CR LF. *)
Fixpoint separable (rows : list (string * terminator)) : bool :=
  match rows with
  | [] => true
  | (_, t) :: rest =>
      match t, rest with
      | CR_, ("", LF_) :: _ => false
      | _, _ => separable rest
      end
  end.

(** The lines of [file_text rows last]. *)
Definition lines_of (rows : list (string * terminator)) (last : string) : list string :=
  (map fst rows ++ (if String.eqb last "" then [] else [last]))%list.

(** The line that rewriting the first match alone would give: the match
    [m] replaced by [new], the text before and after it as it was. *)
Definition first_only (m : Re.match_) (new : string) : string :=
  Re.pre m +:+ new +:+ Re.post m.

(** A commit hash as the pinned pattern wants it: 40 characters of
    [[0-9a-f]]. *)
Definition is_sha (h : string) : bool :=
  (String.length h =? 40)%nat && Str.all Str.is_lower_hex h.

(** The tag reference endpoint gives only such hashes (or none). *)
Definition hashes_well_formed (api : remote) : Prop :=
  forall url h, ref_at api url = Some {| object := Some h |} -> h = "" \/ is_sha h = true.

(** The cache holds only such hashes, and display versions that begin with
    the tag of their key, as [update_cache] stores them. *)
Definition cache_well_formed (c : gmap string details) : Prop :=
  forall repo tag d, c !! (repo +:+ "@" +:+ tag) = Some d ->
    (sha d = "" \/ is_sha (sha d) = true) /\ Str.startswith (full_version d) tag = true.

(** A computation after which the world is related to the one before. *)
Definition preserves (R : world -> world -> Prop) {A : Type} (m : M A) : Prop :=
  forall w, R w (snd (m w)).

(** The cache is the same. *)
Definition cache_kept (w w' : world) : Prop := cache w' = cache w.

(** Every entry of the cache is still there, unchanged. *)
Definition entries_kept (w w' : world) : Prop := cache w ⊆ cache w'.

(** Every key of the cache is still there. *)
Definition keys_kept (w w' : world) : Prop := dom (cache w) ⊆ dom (cache w').

(** Only the log of requests may differ. *)
Definition state_kept (w w' : world) : Prop :=
  cache w' = cache w /\ cache_file w' = cache_file w /\ files w' = files w /\
  readonly w' = readonly w /\ writes w' = writes w.

(** The cache file is the same. *)
Definition cache_file_kept (w w' : world) : Prop := cache_file w' = cache_file w.

(** A URL of the repositories API. *)
Definition api_url (url : string) : bool :=
  Str.startswith url "https://api.github.com/repos/".

(** The requests made in between all went to the repositories API. *)
Definition requests_extend (w w' : world) : Prop :=
  exists new, requests w' = (new ++ requests w)%list /\ Forall (fun u => api_url u = true) new.

(** At most [n] requests are made. *)
Definition costs {A : Type} (n : nat) (m : M A) : Prop :=
  forall w, (length (requests (snd (m w))) <= length (requests w) + n)%nat.

(** The tag that a resolution looks up. *)
Definition target_of (api : remote) (repo tag : string) (check_for_updates : bool)
    (w : world) : string :=
  if check_for_updates then fst (get_latest_version api repo tag w) else tag.

(** No [@] in the line. *)
Definition no_at (line : string) : bool :=
  Str.all (fun c => negb (Ascii.eqb c "@")) line.

(** No backslash in the text. *)
Definition no_backslash (text : string) : bool :=
  Str.all (fun c => negb (Ascii.eqb c Re.BACKSLASH)) text.

(** The template that stands for a text as it is. *)
Fixpoint plain (text : string) : list Re.piece :=
  match text with
  | "" => []
  | String c rest => Re.Literal (String c "") :: plain rest
  end.

(** Among the workflow files the disk changes at the paths of [paths]
    only: every write made in between goes to one of them, and every other
    workflow file is as before. (The cache file is a field of its own in
    the world and is not spoken of here.) *)
Definition writes_within (paths : list string) (w w' : world) : Prop :=
  (exists new, writes w' = (new ++ writes w)%list /\
               Forall (fun written => In (fst written) paths) new) /\
  (forall path, ~ In path paths -> files w' !! path = files w !! path) /\
  readonly w' = readonly w.

(** The workflow files of a discovery. *)
Definition found_files (d : discovery) : list string :=
  match d with
  | Found workflow_files => workflow_files
  | NoDirectory | SearchFails => []
  end.

(** ** Scenarios *)

Module Scenario.

Definition sha_a : string := "aaaaaaaaaaaaaaaaaaaaaaaaaaaaaaaaaaaaaaaa".
Definition sha_b : string := "bbbbbbbbbbbbbbbbbbbbbbbbbbbbbbbbbbbbbbbb".

Definition checkout : string := "https://api.github.com/repos/actions/checkout".

(** An API that answers nothing at all. *)
Definition offline : remote :=
  {| releases_at := fun _ => None; ref_at := fun _ => None;
     tags_at := fun _ => None; latest_at := fun _ => None |}.

(** The releases of actions/checkout are listed, and no tag reference is found. *)
Definition releases_only : remote :=
  {| releases_at := fun url =>
       if String.eqb url (checkout +:+ "/releases")
       then Some [ {| tag_name := "v4.1.0" |}; {| tag_name := "v4.2.0" |};
                   {| tag_name := "v5.0.0" |} ]
       else None;
     ref_at := fun _ => None;
     tags_at := fun _ => None;
     latest_at := fun _ => None |}.

(** The tag [v4] of actions/checkout exists, is in the tag list, and the
    latest release is [v4.2.0]. *)
Definition checkout_v4 : remote :=
  {| releases_at := fun _ => None;
     ref_at := fun url =>
       if String.eqb url (checkout +:+ "/git/refs/tags/v4")
       then Some {| object := Some sha_a |} else None;
     tags_at := fun url =>
       if String.eqb url (checkout +:+ "/tags")
       then Some [ {| name := "v4.2.0" |}; {| name := "v4" |} ] else None;
     latest_at := fun url =>
       if String.eqb url (checkout +:+ "/releases/latest")
       then Some {| latest_tag_name := Some "v4.2.0" |} else None |}.

(** The releases of actions/checkout are listed and the tag [v4.2.0] is
    found. *)
Definition releases_and_refs : remote :=
  {| releases_at := releases_at releases_only;
     ref_at := fun url =>
       if String.eqb url (checkout +:+ "/git/refs/tags/v4.2.0")
       then Some {| object := Some sha_b |} else None;
     tags_at := fun _ => None;
     latest_at := fun _ => None |}.

(** The same, but what the tag reference endpoint gives for [v4.2.0] is
    no commit hash: a backslash and the characters of [tail]. *)
Definition odd_hash (tail : string) : remote :=
  {| releases_at := releases_at releases_only;
     ref_at := fun url =>
       if String.eqb url (checkout +:+ "/git/refs/tags/v4.2.0")
       then Some {| object := Some (String Re.BACKSLASH tail) |} else None;
     tags_at := fun _ => None;
     latest_at := fun _ => None |}.

(** A cache that already holds the resolution of [v4.2.0]. *)
Definition warm_cache : gmap string details :=
  {[ "actions/checkout@v4.2.0" := {| sha := sha_b; full_version := "v4.2.0" |} ]}.

Definition start : world := fresh Missing ∅ ∅.

Definition v4_1_0 : Semver.VersionInfo :=
  {| Semver.major := 4; Semver.minor := 1; Semver.patch := 0;
     Semver.prerelease := None; Semver.build := None |}.

(** A workflow file of two lines, the first ended by CR LF, the second by
    LF. *)
Definition workflow_rows : list (string * terminator) :=
  [ ("name: ci", CRLF_); ("  uses: actions/checkout@v4", LF_) ].

Definition workflow : gmap string string :=
  {[ "ci.yml" := file_text workflow_rows "" ]}.

(** A line pinned to [v4.1.0]. *)
Definition pinned_line : string := "uses: actions/checkout@" +:+ sha_a +:+ " # v4.1.0".


(** A cache file written at time 0 with one entry. *)
Definition old_file : cache_file_state :=
  Stored {| timestamp := Some (Some 0%Z); entries := Some warm_cache |}.

End Scenario.

(** * Properties *)

(** ** The state monad *)

Ltac run_prog :=
  unfold bind, ret, get, modify in *; cbn [fst snd] in *.

Lemma bind_run {A B : Type} (m : M A) (k : A -> M B) (w : world) :
  bind m k w = k (fst (m w)) (snd (m w)).
Proof. unfold bind. destruct (m w) as [a w']. reflexivity. Qed.

(** ** Cache lookups *)

Section CacheFacts.

Context (api : remote).

(** A lookup never changes the world. *)
Lemma get_cached_details_world repo tag check_for_updates w :
  snd (get_cached_details repo tag check_for_updates w) = w.
Proof. unfold get_cached_details. run_prog. destruct check_for_updates; reflexivity. Qed.

(** With [check_for_updates] set, no lookup returns an entry, whatever the
    key and the cache. *)
Lemma get_cached_details_upgrade repo tag w :
  get_cached_details repo tag true w = (None, w).
Proof. reflexivity. Qed.

(** In upgrade mode the resolution is the uncached one for the target tag:
    neither of the two lookups is honored. *)
Lemma fetch_tag_details_upgrade repo tag w :
  fetch_tag_details api repo tag true w =
  fetch_uncached api repo (fst (get_latest_version api repo tag w))
                 (snd (get_latest_version api repo tag w)).
Proof.
  unfold fetch_tag_details.
  rewrite bind_run, get_cached_details_upgrade. cbn [fst snd negb].
  rewrite bind_run.
  destruct (negb (String.eqb (fst (get_latest_version api repo tag w)) tag));
    [rewrite bind_run, get_cached_details_upgrade|]; reflexivity.
Qed.

End CacheFacts.

(** ** C1: the cache in upgrade mode *)

(** C1. In upgrade mode the first lookup returns no entry, and so does the
    second: with the releases [v4.1.0], [v4.2.0], [v5.0.0] the target tag for
    [v4.1.0] is [v4.2.0], the cache holds an entry for
    [actions/checkout@v4.2.0], and [fetch_tag_details] still goes on to the
    tag reference endpoint and returns what it finds there (here nothing)
    instead of the cached pair. *)
Theorem upgrade_ignores_cached_target :
  let w := set_cache Scenario.warm_cache Scenario.start in
  let r := fetch_tag_details Scenario.releases_only "actions/checkout" "v4.1.0" true w in
  fst (get_cached_details "actions/checkout" "v4.1.0" true w) = None /\
  fst (get_latest_version Scenario.releases_only "actions/checkout" "v4.1.0" w) = "v4.2.0" /\
  cache w !! "actions/checkout@v4.2.0"
    = Some {| sha := Scenario.sha_b; full_version := "v4.2.0" |} /\
  fst r = (None, None) /\
  requests (snd r) = [ "https://api.github.com/repos/actions/checkout/git/refs/tags/v4.2.0";
                       "https://api.github.com/repos/actions/checkout/releases" ].
Proof. vm_compute. repeat split; reflexivity. Qed.

(** ** C7: pinned lines without upgrade *)

Section LineFacts.

Context (api : remote).

(** C7. With update mode off a line that matches the pinned pattern comes
    back as it is, no change is reported and the world is untouched; a
    second pass over the result does the same. *)
Theorem pinned_line_idempotent (line : string) (w : world) :
  is_pinned_action line = true ->
  process_line api line false w = (Value (line, false), w) /\
  forall line' changed,
    fst (process_line api line false w) = Value (line', changed) ->
    process_line api line' false (snd (process_line api line false w))
    = (Value (line, false), w).
Proof.
  intros Hpin.
  assert (H1 : process_line api line false w = (Value (line, false), w)).
  { unfold process_line. rewrite Hpin. reflexivity. }
  split; [exact H1|]. rewrite H1. cbn [fst snd]. intros line' changed [= <- <-]. exact H1.
Qed.

(** A tag reference that is not found, has no object or an empty hash
    makes the resolution return [(None, None)]; nothing is cached. *)
Lemma missing_reference_yields_null repo target w :
  let url := "https://api.github.com/repos/" +:+ repo +:+ "/git/refs/tags/" +:+ target in
  ref_at api url = None \/ ref_at api url = Some {| object := None |} \/
  ref_at api url = Some {| object := Some "" |} ->
  fetch_uncached api repo target w = ((None, None), log_request url w).
Proof.
  intros url H. unfold fetch_uncached, get_tag_sha, fetch_json. run_prog. fold url.
  destruct H as [-> | [-> | ->]]; reflexivity.
Qed.

(** C8. When the resolution a line asks for yields no hash ([None] or an
    empty string), the line comes back as it is and no change is reported;
    [process_line] returns a result, it does not raise. *)
Theorem null_hash_leaves_line (line : string) (check_for_updates : bool) (w : world) :
  (forall repo tag c,
      requested_resolution line check_for_updates = Some (repo, tag, c) ->
      Str.falsy (fst (fst (fetch_tag_details api repo tag c w))) = true) ->
  fst (process_line api line check_for_updates w) = Value (line, false).
Proof.
  unfold requested_resolution, process_line. intros H.
  destruct (is_pinned_action line).
  - unfold process_pinned_action. destruct check_for_updates; [|reflexivity].
    cbn [negb]. destruct (Re.search pinned_pattern line) as [m|]; [|reflexivity].
    rewrite bind_run. specialize (H _ _ _ eq_refl).
    destruct (fetch_tag_details api (Re.group m 1) (Re.group m 3) true w) as [[s v] w'].
    cbn [fst snd] in *. rewrite H. reflexivity.
  - unfold process_unpinned_action.
    destruct (Re.search unpinned_pattern line) as [m|]; [|reflexivity].
    rewrite bind_run. specialize (H _ _ _ eq_refl).
    destruct (fetch_tag_details api (Re.group m 1) (Re.group m 2) check_for_updates w)
      as [[s v] w'].
    cbn [fst snd] in *. rewrite H. reflexivity.
Qed.

End LineFacts.

Lemma pinned_line_idempotent_witness :
  let line := "uses: actions/checkout@" +:+ Scenario.sha_a +:+ " # v4.1.0" in
  is_pinned_action line = true /\
  process_line Scenario.offline line false Scenario.start
  = (Value (line, false), Scenario.start).
Proof.
  split; [vm_compute; reflexivity|].
  apply (pinned_line_idempotent Scenario.offline). vm_compute. reflexivity.
Defined.

Lemma null_hash_leaves_line_witness :
  fst (process_line Scenario.offline "uses: actions/checkout@v4" false Scenario.start)
  = Value ("uses: actions/checkout@v4", false).
Proof.
  apply (null_hash_leaves_line Scenario.offline).
  intros repo tag c H. vm_compute in H. injection H as <- <- <-.
  vm_compute. reflexivity.
Defined.

(** ** C2: the display version *)

Section DisplayVersion.

Context (api : remote).

(** The tag list never changes the answer of [get_exact_tag_match]. *)
Lemma get_exact_tag_match_value repo tag w :
  fst (get_exact_tag_match api repo tag w) = tag.
Proof.
  unfold get_exact_tag_match, fetch_json. run_prog.
  destruct (tags_at api _) as [[|t ts]|]; try reflexivity.
  destruct (find _ _); reflexivity.
Qed.

Lemma get_latest_release_tag_value repo tag w :
  fst (get_latest_release_tag api repo tag w)
  = display_version (latest_release_of api repo) tag.
Proof.
  unfold get_latest_release_tag, display_version, short_alias, latest_release_of, fetch_json.
  destruct (Str.startswith tag "v"); cbn [negb orb andb]; [|reflexivity].
  assert (E : (3 <? String.length tag)%nat = negb (String.length tag <=? 3)%nat).
  { destruct (Nat.ltb_spec 3 (String.length tag)), (Nat.leb_spec (String.length tag) 3);
      try reflexivity; lia. }
  rewrite E. destruct (String.length tag <=? 3)%nat; cbn [negb]; [|reflexivity].
  run_prog. destruct (latest_at api _) as [rd|]; [|reflexivity].
  destruct rd as [o]. destruct o as [l|]; [|reflexivity].
  cbn [latest_tag_name]. destruct (Str.startswith l tag); reflexivity.
Qed.

(** Once the hash of the target tag is found, the pair returned is that
    hash and the display version. *)
Lemma fetch_uncached_found repo target w hash :
  ref_at api ("https://api.github.com/repos/" +:+ repo +:+ "/git/refs/tags/" +:+ target)
    = Some {| object := Some hash |} ->
  hash <> "" ->
  fst (fetch_uncached api repo target w)
  = (Some hash, Some (display_version (latest_release_of api repo) target)).
Proof.
  intros Href Hne. unfold fetch_uncached.
  rewrite bind_run. unfold get_tag_sha at 1 2. unfold fetch_json. run_prog.
  rewrite Href. cbn [object fst snd].
  destruct (String.eqb_spec hash "") as [->|_]; [congruence|].
  set (w1 := log_request _ w).
  pose proof (get_exact_tag_match_value repo target w1) as Hx.
  destruct (get_exact_tag_match api repo target w1) as [fv w2]. cbn [fst] in Hx. subst fv.
  rewrite String.eqb_refl.
  pose proof (get_latest_release_tag_value repo target w2) as Hl.
  destruct (get_latest_release_tag api repo target w2) as [fv w3]. cbn [fst] in Hl. subst fv.
  reflexivity.
Qed.

(** C2, as the script has it. For every resolution that reaches the tag
    reference endpoint and finds a hash there, the display version is the
    latest release's tag when the target tag is a short alias that this tag
    begins with, and the target tag otherwise, whether or not the target
    tag is in the tag list. *)
Theorem display_version_of_target (repo tag : string) (check_for_updates : bool)
    (w : world) (hash : string) :
  let target :=
    if check_for_updates then fst (get_latest_version api repo tag w) else tag in
  fst (get_cached_details repo tag check_for_updates w) = None ->
  ref_at api ("https://api.github.com/repos/" +:+ repo +:+ "/git/refs/tags/" +:+ target)
    = Some {| object := Some hash |} ->
  hash <> "" ->
  fst (fetch_tag_details api repo tag check_for_updates w)
  = (Some hash, Some (display_version (latest_release_of api repo) target)).
Proof.
  intros target Hmiss Href Hne. subst target. destruct check_for_updates.
  - rewrite fetch_tag_details_upgrade. apply fetch_uncached_found; assumption.
  - unfold fetch_tag_details. rewrite bind_run.
    rewrite Hmiss. rewrite get_cached_details_world. cbn [negb].
    apply fetch_uncached_found; assumption.
Qed.

End DisplayVersion.

(** The claim fails where the tag list has the target tag and the latest
    release begins with it: [v4] is in the tag list of actions/checkout, the
    claim gives [v4], the script gives [v4.2.0]. *)
Lemma display_version_counterexample :
  let api := Scenario.checkout_v4 in
  let r := fetch_tag_details api "actions/checkout" "v4" false Scenario.start in
  existsb (fun t => String.eqb (name t) "v4") (tag_list_of api "actions/checkout") = true /\
  fst r = (Some Scenario.sha_a, Some "v4.2.0") /\
  snd (fst r) <> Some (claimed_display (tag_list_of api "actions/checkout")
                         (latest_release_of api "actions/checkout") "v4").
Proof. vm_compute. repeat split; try reflexivity. discriminate. Qed.

Lemma display_version_of_target_witness :
  fst (fetch_tag_details Scenario.checkout_v4 "actions/checkout" "v4" false Scenario.start)
  = (Some Scenario.sha_a, Some "v4.2.0").
Proof.
  apply (display_version_of_target Scenario.checkout_v4 "actions/checkout" "v4" false
           Scenario.start Scenario.sha_a).
  - vm_compute. reflexivity.
  - vm_compute. reflexivity.
  - discriminate.
Defined.

(** ** The order of versions *)

Module SemverFacts.

Import Semver.

Lemma ascii_compare_refl a : Ascii.compare a a = Eq.
Proof. unfold Ascii.compare. apply N.compare_refl. Qed.

Lemma ascii_compare_gt_trans a b c :
  Ascii.compare a b = Gt -> Ascii.compare b c = Gt -> Ascii.compare a c = Gt.
Proof. unfold Ascii.compare. rewrite !N.compare_gt_iff. lia. Qed.

Lemma string_compare_refl s : String.compare s s = Eq.
Proof. induction s as [|a s IH]; cbn; [|rewrite ascii_compare_refl]; auto. Qed.

Lemma string_compare_gt_trans s1 : forall s2 s3,
  String.compare s1 s2 = Gt -> String.compare s2 s3 = Gt -> String.compare s1 s3 = Gt.
Proof.
  induction s1 as [|a s1 IH]; intros [|b s2] [|c s3]; cbn; try congruence.
  destruct (Ascii.compare a b) eqn:Eab; try congruence;
    destruct (Ascii.compare b c) eqn:Ebc; try congruence; intros H1 H2.
  - apply Ascii.compare_eq_iff in Eab, Ebc. subst.
    rewrite ascii_compare_refl. eauto.
  - apply Ascii.compare_eq_iff in Eab. subst. rewrite Ebc. reflexivity.
  - apply Ascii.compare_eq_iff in Ebc. subst. rewrite Eab. reflexivity.
  - rewrite (ascii_compare_gt_trans _ _ _ Eab Ebc). reflexivity.
Qed.

Lemma compare_identifier_refl a : compare_identifier a a = Eq.
Proof. destruct a; cbn; [apply N.compare_refl | apply string_compare_refl]. Qed.

Lemma compare_identifier_eq a b : compare_identifier a b = Eq -> a = b.
Proof.
  destruct a, b; cbn; try discriminate; intros H.
  - apply N.compare_eq_iff in H. congruence.
  - apply String.compare_eq_iff in H. congruence.
Qed.

Lemma compare_identifier_gt_trans a b c :
  compare_identifier a b = Gt -> compare_identifier b c = Gt ->
  compare_identifier a c = Gt.
Proof.
  destruct a, b, c; cbn; try congruence.
  - rewrite !N.compare_gt_iff. lia.
  - apply string_compare_gt_trans.
Qed.

Lemma compare_identifiers_refl l : compare_identifiers l l = Eq.
Proof. induction l as [|a l IH]; cbn; [|rewrite compare_identifier_refl]; auto. Qed.

Lemma compare_identifiers_gt_trans l1 : forall l2 l3,
  compare_identifiers l1 l2 = Gt -> compare_identifiers l2 l3 = Gt ->
  compare_identifiers l1 l3 = Gt.
Proof.
  induction l1 as [|a l1 IH]; intros [|b l2] [|c l3]; cbn; try congruence.
  destruct (compare_identifier a b) eqn:Eab; try congruence;
    destruct (compare_identifier b c) eqn:Ebc; try congruence; intros H1 H2.
  - apply compare_identifier_eq in Eab, Ebc. subst.
    rewrite compare_identifier_refl. eauto.
  - apply compare_identifier_eq in Eab. subst. rewrite Ebc. reflexivity.
  - apply compare_identifier_eq in Ebc. subst. rewrite Eab. reflexivity.
  - rewrite (compare_identifier_gt_trans _ _ _ Eab Ebc). reflexivity.
Qed.

Lemma compare_prerelease_refl p : compare_prerelease p p = Eq.
Proof. destruct p; cbn; [apply compare_identifiers_refl | reflexivity]. Qed.

Lemma compare_prerelease_gt_trans p1 p2 p3 :
  compare_prerelease p1 p2 = Gt -> compare_prerelease p2 p3 = Gt ->
  compare_prerelease p1 p3 = Gt.
Proof.
  destruct p1, p2, p3; cbn; try congruence. apply compare_identifiers_gt_trans.
Qed.

(** One numeric field before the rest of the comparison. *)
Lemma then_gt_trans (a b c : N) (ab bc ac : comparison) :
  (ab = Gt -> bc = Gt -> ac = Gt) ->
  then_ (a ?= b)%N ab = Gt -> then_ (b ?= c)%N bc = Gt -> then_ (a ?= c)%N ac = Gt.
Proof.
  intros H.
  destruct (N.compare_spec a b), (N.compare_spec b c), (N.compare_spec a c);
    cbn; try congruence; try lia; auto.
Qed.

Lemma compare_refl v : compare v v = Eq.
Proof.
  unfold compare. rewrite !N.compare_refl. cbn. apply compare_prerelease_refl.
Qed.

Lemma compare_gt_trans v1 v2 v3 :
  compare v1 v2 = Gt -> compare v2 v3 = Gt -> compare v1 v3 = Gt.
Proof.
  unfold compare. repeat apply then_gt_trans. apply compare_prerelease_gt_trans.
Qed.

(** [>] on versions is irreflexive and transitive. *)
Lemma gt_irrefl v : gt v v = false.
Proof. unfold gt. rewrite compare_refl. reflexivity. Qed.

Lemma gt_trans v1 v2 v3 : gt v1 v2 = true -> gt v2 v3 = true -> gt v1 v3 = true.
Proof.
  unfold gt. intros H1 H2.
  destruct (compare v1 v2) eqn:E1; try discriminate.
  destruct (compare v2 v3) eqn:E2; try discriminate.
  rewrite (compare_gt_trans _ _ _ E1 E2). reflexivity.
Qed.

End SemverFacts.

(** ** C4 and C6: the target tag in upgrade mode *)

Section LatestVersion.

Context (api : remote).

Lemma parse_semver_strip tag :
  parse_semver tag =
  match Semver.parse (strip_v tag) with
  | Some v => (true, Some v)
  | None => (false, None)
  end.
Proof. reflexivity. Qed.

Lemma latest_step_same_major major_version acc r :
  latest_step major_version acc r =
  match same_major_version major_version (tag_name r) with
  | None => acc
  | Some p =>
      match snd acc with
      | None => (tag_name r, Some p)
      | Some lp => if Semver.gt p lp then (tag_name r, Some p) else acc
      end
  end.
Proof.
  destruct acc as [lv lp]. unfold latest_step, same_major_version.
  rewrite parse_semver_strip.
  destruct (Semver.parse (strip_v (tag_name r))) as [p|]; [|reflexivity].
  destruct (Semver.major p =? major_version)%N; reflexivity.
Qed.

Lemma loop_invariant_step major_version tag0 seen acc r :
  loop_invariant major_version tag0 seen acc ->
  loop_invariant major_version tag0 (seen ++ [r]) (latest_step major_version acc r).
Proof.
  intros Hinv. rewrite latest_step_same_major.
  destruct (same_major_version major_version (tag_name r)) as [p|] eqn:Er.
  - destruct Hinv as [[-> Hnone] | (r0 & p0 & Hin & -> & Hr0 & Hmax)]; cbn [snd].
    + right. exists r, p. repeat split; auto.
      * apply in_or_app. right. left. reflexivity.
      * intros r' p' Hin' Hr'. apply in_app_or in Hin' as [Hin'|[<-|[]]].
        -- rewrite (Hnone _ Hin') in Hr'. discriminate.
        -- assert (p' = p) as -> by congruence. apply SemverFacts.gt_irrefl.
    + destruct (Semver.gt p p0) eqn:Egt.
      * right. exists r, p. repeat split; auto.
        -- apply in_or_app. right. left. reflexivity.
        -- intros r' p' Hin' Hr'. apply in_app_or in Hin' as [Hin'|[<-|[]]].
           ++ destruct (Semver.gt p' p) eqn:E; [|reflexivity].
              rewrite <- (Hmax _ _ Hin' Hr'). symmetry.
              eapply SemverFacts.gt_trans; eassumption.
           ++ assert (p' = p) as -> by congruence. apply SemverFacts.gt_irrefl.
      * right. exists r0, p0. repeat split; auto.
        -- apply in_or_app. left. assumption.
        -- intros r' p' Hin' Hr'. apply in_app_or in Hin' as [Hin'|[<-|[]]].
           ++ eapply Hmax; eassumption.
           ++ assert (p' = p) as -> by congruence. assumption.
  - destruct Hinv as [[-> Hnone] | (r0 & p0 & Hin & -> & Hr0 & Hmax)].
    + left. split; [reflexivity|].
      intros r' Hin'. apply in_app_or in Hin' as [Hin'|[<-|[]]]; auto.
    + right. exists r0, p0. repeat split; auto.
      * apply in_or_app. left. assumption.
      * intros r' p' Hin' Hr'. apply in_app_or in Hin' as [Hin'|[<-|[]]].
        -- eapply Hmax; eassumption.
        -- congruence.
Qed.

Lemma loop_invariant_fold major_version tag0 releases : forall seen acc,
  loop_invariant major_version tag0 seen acc ->
  loop_invariant major_version tag0 (seen ++ releases)
    (fold_left (latest_step major_version) releases acc).
Proof.
  induction releases as [|r rs IH]; intros seen acc Hinv; cbn [fold_left].
  - rewrite app_nil_r. assumption.
  - replace (seen ++ r :: rs)%list with ((seen ++ [r]) ++ rs)%list
      by (rewrite <- app_assoc; reflexivity).
    apply IH. apply loop_invariant_step. assumption.
Qed.

(** The value of [get_latest_version] for a tag that parses: the loop over
    the releases of the repository, also when there are none. *)
Lemma get_latest_version_value repo tag w parsed :
  parse_semver tag = (true, Some parsed) ->
  fst (get_latest_version api repo tag w)
  = fst (fold_left (latest_step (Semver.major parsed)) (releases_of api repo) (tag, None)).
Proof.
  intros Hp. unfold get_latest_version. rewrite Hp.
  unfold get_all_releases, fetch_json, releases_of. run_prog.
  destruct (default [] _); reflexivity.
Qed.

(** C4. In upgrade mode, for an input tag that parses as a semantic version,
    the target tag is the tag of a release with the same major number that
    no other release with this major number exceeds, when there is one; and
    it is the input tag when the releases endpoint does not answer, when the
    list is empty, and when no release parses with the same major number. *)
Theorem latest_version_same_major (repo tag : string) (w : world)
    (parsed : Semver.VersionInfo) :
  parse_semver tag = (true, Some parsed) ->
  let target := fst (get_latest_version api repo tag w) in
  let url := "https://api.github.com/repos/" +:+ repo +:+ "/releases" in
  ((exists r, In r (releases_of api repo) /\
              same_major_version (Semver.major parsed) (tag_name r) <> None) ->
   highest_of_major (Semver.major parsed) (releases_of api repo) target) /\
  ((forall r, In r (releases_of api repo) ->
              same_major_version (Semver.major parsed) (tag_name r) = None) ->
   target = tag) /\
  (releases_at api url = None -> target = tag) /\
  (releases_at api url = Some [] -> target = tag).
Proof.
  intros Hp target url. subst target.
  rewrite (get_latest_version_value _ _ _ _ Hp).
  pose proof (loop_invariant_fold (Semver.major parsed) tag (releases_of api repo) []
                (tag, None)) as Hinv.
  cbn [app] in Hinv.
  assert (Hcases :
    (forall r, In r (releases_of api repo) ->
               same_major_version (Semver.major parsed) (tag_name r) = None) ->
    fst (fold_left (latest_step (Semver.major parsed)) (releases_of api repo) (tag, None))
    = tag).
  { intros Hnone.
    destruct Hinv as [[-> _] | (r & p & Hin & _ & Hr & _)].
    - left. split; [reflexivity | intros r []].
    - reflexivity.
    - rewrite (Hnone _ Hin) in Hr. discriminate. }
  split; [|split; [exact Hcases|split]].
  - intros (r1 & Hin1 & Hr1).
    destruct Hinv as [[_ Hnone] | (r & p & Hin & -> & Hr & Hmax)].
    + left. split; [reflexivity | intros r []].
    + elim Hr1. auto.
    + exists r, p. cbn [fst]. auto.
  - intros Hnone. apply Hcases. unfold releases_of. subst url. rewrite Hnone.
    intros r [].
  - intros Hempty. apply Hcases. unfold releases_of. subst url. rewrite Hempty.
    intros r [].
Qed.

(** C6. A tag that is not a valid semantic version once an optional leading
    [v] is stripped makes [parse_semver] return failure, a value and not an
    exception, and upgrade-checking then keeps the tag: [get_latest_version]
    returns it without any request, and the resolution is the one of the
    input tag. *)
Theorem non_semver_not_upgraded (repo tag : string) (w : world) :
  Semver.parse (strip_v tag) = None ->
  parse_semver tag = (false, None) /\
  get_latest_version api repo tag w = (tag, w) /\
  fetch_tag_details api repo tag true w = fetch_uncached api repo tag w.
Proof.
  intros Hp.
  assert (H1 : parse_semver tag = (false, None)).
  { rewrite parse_semver_strip, Hp. reflexivity. }
  assert (H2 : get_latest_version api repo tag w = (tag, w)).
  { unfold get_latest_version. rewrite H1. reflexivity. }
  repeat split; auto.
  rewrite fetch_tag_details_upgrade, H2. reflexivity.
Qed.

End LatestVersion.

Lemma latest_version_same_major_witness :
  highest_of_major 4 (releases_of Scenario.releases_only "actions/checkout")
    (fst (get_latest_version Scenario.releases_only "actions/checkout" "v4.1.0"
            Scenario.start)).
Proof.
  assert (Hp : parse_semver "v4.1.0" = (true, Some Scenario.v4_1_0))
    by (vm_compute; reflexivity).
  apply (proj1 (latest_version_same_major Scenario.releases_only "actions/checkout"
                  "v4.1.0" Scenario.start Scenario.v4_1_0 Hp)).
  exists {| tag_name := "v4.1.0" |}. split.
  - vm_compute. left. reflexivity.
  - vm_compute. discriminate.
Defined.

(** The second scenario of the specification with a full version in the
    comment: [v4.2.0] is chosen, [v5.0.0] is not. *)
Example upgrade_within_major :
  fst (get_latest_version Scenario.releases_only "actions/checkout" "v4.1.0" Scenario.start)
  = "v4.2.0".
Proof. vm_compute. reflexivity. Qed.

Lemma non_semver_not_upgraded_witness :
  parse_semver "latest" = (false, None) /\
  parse_semver "v1.x" = (false, None) /\
  get_latest_version Scenario.releases_only "actions/checkout" "v1.x" Scenario.start
  = ("v1.x", Scenario.start).
Proof.
  split; [|split].
  - apply (non_semver_not_upgraded Scenario.offline "" "latest" Scenario.start).
    vm_compute. reflexivity.
  - apply (non_semver_not_upgraded Scenario.offline "" "v1.x" Scenario.start).
    vm_compute. reflexivity.
  - apply (non_semver_not_upgraded Scenario.releases_only "actions/checkout" "v1.x"
             Scenario.start).
    vm_compute. reflexivity.
Defined.

(** A major-only tag such as [v4] is not a semantic version for the
    package, so it is kept as well. *)
Example major_only_tag_kept :
  parse_semver "v4" = (false, None) /\
  fst (get_latest_version Scenario.releases_only "actions/checkout" "v4" Scenario.start)
  = "v4".
Proof. vm_compute. split; reflexivity. Qed.

(** ** C5: loading the cache *)

(** C5. [load_cache] replaces the in-memory cache by the stored entries
    when the stored timestamp is less than 24 hours before [now], and only
    then; with an older timestamp the in-memory cache is left as it was, so
    that from the empty cache of a starting process no lookup finds an
    entry; and a file that cannot be read or parsed, or a timestamp that
    cannot, leaves it as it was too. In every case [load_cache] returns. *)
Theorem load_cache_freshness (now : Z) (w0 : world) :
  let w := snd (load_cache now w0) in
  (cache w <> cache w0 ->
   exists data t, cache_file w0 = Stored data /\ timestamp data = Some (Some t) /\
                  (now - t < 24 * HOURS)%Z) /\
  (forall data t, cache_file w0 = Stored data -> timestamp data = Some (Some t) ->
     (now - t < 24 * HOURS)%Z -> cache w = default ∅ (entries data)) /\
  (forall data t, cache_file w0 = Stored data -> timestamp data = Some (Some t) ->
     (24 * HOURS <= now - t)%Z ->
     cache w = cache w0 /\
     (cache w0 = ∅ -> forall repo tag check_for_updates,
        fst (get_cached_details repo tag check_for_updates w) = None)) /\
  (cache_file w0 = Unreadable \/
   (exists data, cache_file w0 = Stored data /\ timestamp data = Some None) ->
   cache w = cache w0).
Proof.
  intros w. subst w. unfold load_cache. run_prog.
  destruct (cache_file w0) as [| |data] eqn:Ef; cbn [snd];
    [ | | destruct (timestamp data) as [[t|]|] eqn:Et; cbn [snd];
          [destruct (Z.leb_spec (24 * HOURS) (now - t)) as [Hold|Hnew]; cbn [snd]| | ] ];
    (split; [|split; [|split]]);
    try (intros H; exfalso; apply H; reflexivity);
    try (intros d t' Hd Ht'; try injection Hd as <-; try congruence;
         assert (t' = t) as -> by congruence; try reflexivity; try lia);
    try (intros [H|(d & Hd & Ht')]; try injection Hd as <-; congruence).
  - intros _. split; [reflexivity|].
    intros Hempty repo tag c. unfold get_cached_details. run_prog.
    destruct c; cbn; [reflexivity|]. rewrite Hempty. apply lookup_empty.
  - intros _. exists data, t. auto.
Qed.

Lemma load_cache_freshness_witness :
  let w := snd (load_cache (25 * HOURS) (fresh Scenario.old_file ∅ ∅)) in
  cache w = ∅ /\
  fst (get_cached_details "actions/checkout" "v4.2.0" false w) = None.
Proof.
  pose proof (load_cache_freshness (25 * HOURS) (fresh Scenario.old_file ∅ ∅)) as H.
  destruct H as (_ & _ & Hstale & _).
  destruct (Hstale _ 0%Z eq_refl eq_refl ltac:(vm_compute; discriminate)) as [Hc Hl].
  split; [exact Hc | apply Hl; reflexivity].
Defined.

(** ** Resolution and line rewriting leave the disk alone *)

Lemma same_disk_refl w : same_disk w w.
Proof. repeat split. Qed.

Lemma same_disk_trans w1 w2 w3 : same_disk w1 w2 -> same_disk w2 w3 -> same_disk w1 w3.
Proof. unfold same_disk. intros (? & ? & ?) (? & ? & ?). repeat split; congruence. Qed.

Lemma keeps_disk_ret {A : Type} (a : A) : keeps_disk (ret a).
Proof. intros w. apply same_disk_refl. Qed.

Lemma keeps_disk_bind {A B : Type} (m : M A) (k : A -> M B) :
  keeps_disk m -> (forall a, keeps_disk (k a)) -> keeps_disk (bind m k).
Proof.
  intros Hm Hk w. rewrite bind_run.
  eapply same_disk_trans; [apply Hm | apply Hk].
Qed.

Lemma keeps_disk_get : keeps_disk get.
Proof. intros w. apply same_disk_refl. Qed.

Lemma keeps_disk_log url : keeps_disk (modify (log_request url)).
Proof. intros w. repeat split. Qed.

Lemma keeps_disk_set_cache (f : world -> gmap string details) :
  keeps_disk (modify (fun w => set_cache (f w) w)).
Proof. intros w. repeat split. Qed.

Create HintDb disk.

#[local] Hint Resolve keeps_disk_ret keeps_disk_get keeps_disk_log keeps_disk_set_cache
  : disk.

(** Goes through a computation: binds, then the cases of every test. *)
Ltac keeps_disk_tac :=
  repeat first
    [ solve [auto with disk]
    | match goal with
      | |- keeps_disk (bind _ _) => apply keeps_disk_bind; [|intros ?]
      | |- keeps_disk (match ?x with _ => _ end) => destruct x
      | |- keeps_disk (if ?x then _ else _) => destruct x
      end ].

Section Frame.

Context (api : remote).

Lemma keeps_disk_fetch_json {A : Type} (view : string -> option A) url :
  keeps_disk (fetch_json view url).
Proof. unfold fetch_json. keeps_disk_tac. Qed.

#[local] Hint Resolve keeps_disk_fetch_json : disk.

Lemma keeps_disk_get_latest_version repo tag : keeps_disk (get_latest_version api repo tag).
Proof. unfold get_latest_version, get_all_releases. keeps_disk_tac. Qed.

Lemma keeps_disk_get_cached_details repo tag c : keeps_disk (get_cached_details repo tag c).
Proof. unfold get_cached_details. keeps_disk_tac. Qed.

Lemma keeps_disk_get_tag_sha repo tag : keeps_disk (get_tag_sha api repo tag).
Proof. unfold get_tag_sha. keeps_disk_tac. Qed.

Lemma keeps_disk_get_exact_tag_match repo tag : keeps_disk (get_exact_tag_match api repo tag).
Proof. unfold get_exact_tag_match. keeps_disk_tac. Qed.

Lemma keeps_disk_get_latest_release_tag repo tag :
  keeps_disk (get_latest_release_tag api repo tag).
Proof. unfold get_latest_release_tag. keeps_disk_tac. Qed.

Lemma keeps_disk_update_cache repo tag hash version :
  keeps_disk (update_cache repo tag hash version).
Proof. unfold update_cache. apply keeps_disk_set_cache. Qed.

#[local] Hint Resolve keeps_disk_get_tag_sha keeps_disk_get_exact_tag_match
  keeps_disk_get_latest_release_tag keeps_disk_update_cache : disk.

Lemma keeps_disk_fetch_uncached repo tag : keeps_disk (fetch_uncached api repo tag).
Proof. unfold fetch_uncached. keeps_disk_tac. Qed.

#[local] Hint Resolve keeps_disk_get_latest_version keeps_disk_get_cached_details
  keeps_disk_fetch_uncached : disk.

Lemma keeps_disk_fetch_tag_details repo tag c : keeps_disk (fetch_tag_details api repo tag c).
Proof. unfold fetch_tag_details. keeps_disk_tac. Qed.

#[local] Hint Resolve keeps_disk_fetch_tag_details : disk.

Lemma keeps_disk_process_line line c : keeps_disk (process_line api line c).
Proof.
  unfold process_line, process_pinned_action, process_unpinned_action.
  destruct (is_pinned_action line); keeps_disk_tac.
Qed.

Lemma same_disk_lines_world c lines : forall w,
  same_disk w (lines_world api c lines w).
Proof.
  induction lines as [|line rest IH]; intros w; cbn [lines_world].
  - apply same_disk_refl.
  - pose proof (keeps_disk_process_line line c w) as H.
    destruct (process_line api line c w) as [[r|] w']; cbn [snd] in H.
    + eapply same_disk_trans; [exact H | apply IH].
    + exact H.
Qed.

Lemma process_lines_step_run c ls b line w :
  process_lines_step api c (ls, b) line w
  = (match fst (process_line api line c w) with
     | Value r => Value ((ls ++ [fst r])%list, b || snd r)
     | Exception => Exception
     end,
     snd (process_line api line c w)).
Proof.
  unfold process_lines_step. rewrite bind_run.
  destruct (process_line api line c w) as [[[l' b']|] w']; reflexivity.
Qed.

(** The loop over the lines: it raises when a line does; else the lines
    and the flags collected are those of [line_results]. The world is the
    one the last line processed left. *)
Lemma for_each_lines c lines : forall acc w,
  for_each (process_lines_step api c) lines acc w
  = (if lines_raise api c lines w then Exception
     else Value ((fst acc ++ map fst (line_results api c lines w))%list,
                 snd acc || existsb snd (line_results api c lines w)),
     lines_world api c lines w).
Proof.
  induction lines as [|line rest IH]; intros [ls b] w;
    cbn [for_each line_results lines_world lines_raise].
  - cbn. rewrite app_nil_r, orb_false_r. reflexivity.
  - rewrite bind_run, process_lines_step_run. cbn [fst snd].
    destruct (process_line api line c w) as [[[l' b']|] w']; cbn [fst snd]; [|reflexivity].
    rewrite IH. cbn [fst snd map existsb].
    rewrite <- app_assoc, orb_assoc. reflexivity.
Qed.

End Frame.

(** ** Lines of a text *)

Lemma splitlines_plain (line : string) :
  no_linebreak line = true ->
  Str.splitlines line = if String.eqb line "" then [] else [line].
Proof.
  induction line as [|c l IH]; [reflexivity|].
  cbn [no_linebreak Str.all]. intros [Hc Hl]%andb_prop.
  apply negb_true_iff in Hc. cbn [Str.splitlines]. rewrite Hc.
  unfold no_linebreak in IH. rewrite (IH Hl).
  destruct l; reflexivity.
Qed.

Lemma file_text_not_LF rows last :
  forallb no_linebreak (map fst rows) = true -> no_linebreak last = true ->
  match rows with ("", LF_) :: _ => False | _ => True end ->
  match file_text rows last with
  | String d _ => Ascii.eqb d Str.LF = false
  | "" => True
  end.
Proof.
  intros Hrows Hlast Hfirst.
  assert (Hline : forall l rest, no_linebreak (String l rest) = true ->
                                 Ascii.eqb l Str.LF = false).
  { intros l rest [H _]%andb_prop. apply negb_true_iff in H.
    destruct (Ascii.eqb_spec l Str.LF) as [->|]; [discriminate H|reflexivity]. }
  destruct rows as [|[line t] rest]; cbn [file_text].
  - destruct last as [|d last']; [exact I|]. eapply Hline, Hlast.
  - cbn [map fst forallb] in Hrows. apply andb_prop in Hrows as [Hl _].
    destruct line as [|d line']; [|eapply Hline, Hl].
    destruct t; cbn; try reflexivity. contradiction.
Qed.

Lemma splitlines_CR (rest : string) :
  match rest with String d _ => Ascii.eqb d Str.LF = false | "" => True end ->
  Str.splitlines (String Str.CR rest) = "" :: Str.splitlines rest.
Proof.
  destruct rest as [|d rest']; [reflexivity|]. intros Hd.
  change (Str.splitlines (String Str.CR (String d rest')))
    with ("" :: (if Ascii.eqb d Str.LF then Str.splitlines rest'
                 else Str.splitlines (String d rest'))).
  rewrite Hd. reflexivity.
Qed.

(** A terminated line in front of a text is one line more. *)
Lemma splitlines_row (line : string) (t : terminator) (rest : string) :
  no_linebreak line = true ->
  (t = CR_ -> match rest with String d _ => Ascii.eqb d Str.LF = false | "" => True end) ->
  Str.splitlines (line +:+ terminator_text t +:+ rest) = line :: Str.splitlines rest.
Proof.
  intros Hl Hcr. induction line as [|c l IH].
  - destruct t; [reflexivity | reflexivity | apply splitlines_CR, Hcr; reflexivity].
  - cbn [no_linebreak Str.all] in Hl. apply andb_prop in Hl as [Hc Hl].
    apply negb_true_iff in Hc.
    change (String c l +:+ terminator_text t +:+ rest)
      with (String c (l +:+ terminator_text t +:+ rest)).
    cbn [Str.splitlines]. rewrite Hc, (IH Hl). reflexivity.
Qed.

(** [splitlines] gives back the lines a text was built from, whatever
    their terminators. *)
Lemma splitlines_file_text (rows : list (string * terminator)) (last : string) :
  forallb no_linebreak (map fst rows) = true ->
  no_linebreak last = true ->
  separable rows = true ->
  Str.splitlines (file_text rows last) = lines_of rows last.
Proof.
  unfold lines_of. intros Hrows Hlast.
  induction rows as [|[line t] rest IH]; intros Hsep; cbn [file_text map fst app].
  - apply splitlines_plain. assumption.
  - cbn [map fst forallb] in Hrows. apply andb_prop in Hrows as [Hl Hrest].
    rewrite splitlines_row.
    + rewrite IH; [reflexivity|assumption|].
      cbn [separable] in Hsep. destruct t; try assumption.
      destruct rest as [|[[|] []] ?]; try assumption; discriminate.
    + assumption.
    + intros ->. apply file_text_not_LF; try assumption.
      cbn [separable] in Hsep.
      destruct rest as [|[[|] []] ?]; try exact I. discriminate.
Qed.

(** ** C9 and C10: writing a workflow file back *)

Section FileFacts.

Context (api : remote).

(** A line that is not reported changed is the line that came in. *)
Lemma process_line_unchanged line c w updated_line :
  fst (process_line api line c w) = Value (updated_line, false) ->
  updated_line = line.
Proof.
  unfold process_line.
  destruct (is_pinned_action line).
  - unfold process_pinned_action. destruct c; [|intros [= <-]; reflexivity]. cbn [negb].
    destruct (Re.search pinned_pattern line) as [m|]; [|intros [= <-]; reflexivity].
    rewrite bind_run.
    destruct (fetch_tag_details api _ _ true w) as [[s v] w']. cbn [fst snd].
    destruct (Str.falsy s || same_version v (Re.group m 3)); [intros [= <-]; reflexivity|].
    destruct (Re.sub _ _ _); discriminate.
  - unfold process_unpinned_action.
    destruct (Re.search unpinned_pattern line) as [m|]; [|intros [= <-]; reflexivity].
    rewrite bind_run.
    destruct (fetch_tag_details api _ _ c w) as [[s v] w']. cbn [fst snd].
    destruct (Str.falsy s); [intros [= <-]; reflexivity|discriminate].
Qed.

Lemma line_results_unchanged c lines : forall w,
  lines_raise api c lines w = false ->
  Forall2 (fun line r => snd r = false -> fst r = line) lines (line_results api c lines w).
Proof.
  induction lines as [|line rest IH]; intros w; cbn [line_results lines_raise];
    [constructor|].
  pose proof (process_line_unchanged line c w) as H.
  destruct (process_line api line c w) as [[[l b]|] w']; [|discriminate].
  intros Hrest. constructor; [|apply IH, Hrest].
  cbn [fst snd] in *. intros ->. apply H. reflexivity.
Qed.

(** What [process_workflow_file] does to a readable file. *)
Lemma process_workflow_file_run file_path c w content :
  files w !! file_path = Some content ->
  let results := line_results api c (Str.splitlines content) w in
  let w1 := lines_world api c (Str.splitlines content) w in
  process_workflow_file api file_path c w
  = if lines_raise api c (Str.splitlines content) w then (Exception, w1)
    else if existsb snd results
    then (Value tt,
          snd (write_text file_path (Str.join (String Str.LF "") (map fst results)) w1))
    else (Value tt, w1).
Proof.
  intros Hread results w1. unfold process_workflow_file. run_prog. rewrite Hread.
  rewrite for_each_lines. cbn [fst snd app orb]. fold results. fold w1.
  destruct (lines_raise api c (Str.splitlines content) w); [reflexivity|].
  destruct (existsb snd results); cbn [negb]; [|reflexivity].
  destruct (write_text _ _ w1) as [[] w2]. reflexivity.
Qed.

(** C9. When no line of the file is reported changed, nothing is written:
    the writes made and the content of every file are as before. *)
Theorem no_change_no_write (file_path : string) (check_for_updates : bool) (w : world) :
  (forall content, files w !! file_path = Some content ->
     Forall (fun r => snd r = false)
            (line_results api check_for_updates (Str.splitlines content) w)) ->
  let w' := snd (process_workflow_file api file_path check_for_updates w) in
  writes w' = writes w /\ files w' = files w.
Proof.
  intros Hall w'. subst w'.
  destruct (files w !! file_path) as [content|] eqn:Hread.
  - rewrite (process_workflow_file_run _ _ _ _ Hread).
    specialize (Hall _ eq_refl).
    assert (Hno : existsb snd (line_results api check_for_updates
                                 (Str.splitlines content) w) = false).
    { induction Hall as [|r rs Hr _ IH]; [reflexivity|].
      cbn [existsb]. rewrite Hr, IH. reflexivity. }
    rewrite Hno.
    destruct (same_disk_lines_world api check_for_updates (Str.splitlines content) w)
      as (Hf & Hw & _).
    destruct (lines_raise _ _ _ _); cbn [snd]; auto.
  - unfold process_workflow_file. run_prog. rewrite Hread. auto.
Qed.

(** A text joined by LF is its lines each ended by LF, but for the last. *)
Lemma join_file_text (ls : list string) (l : string) :
  Str.join (String Str.LF "") (ls ++ [l]) = file_text (map (fun x => (x, LF_)) ls) l.
Proof.
  induction ls as [|x ls IH]; [reflexivity|].
  cbn [app map file_text terminator_text]. rewrite <- IH.
  destruct (ls ++ [l])%list eqn:E; [destruct ls; discriminate|]. reflexivity.
Qed.

(** C10. When the loop over the lines of a writable file comes to its end
    (no line raises) and some line is reported changed, the file becomes
    the results of the lines of [splitlines] joined by LF: lines ended by LF
    and a last line without terminator. A line that is not reported changed
    is there as it was. For a text built from lines with the terminators
    LF, CR LF or CR, these lines are the ones [splitlines] gives, so every
    terminator has become LF and the one at the end of the file is gone. *)
Theorem written_file_is_joined (file_path : string) (check_for_updates : bool) (w : world)
    (content : string) :
  files w !! file_path = Some content ->
  file_path ∉ readonly w ->
  lines_raise api check_for_updates (Str.splitlines content) w = false ->
  let results := line_results api check_for_updates (Str.splitlines content) w in
  Exists (fun r => snd r = true) results ->
  let w' := snd (process_workflow_file api file_path check_for_updates w) in
  let new_content := Str.join (String Str.LF "") (map fst results) in
  files w' !! file_path = Some new_content /\
  writes w' = (file_path, new_content) :: writes w /\
  (exists init final,
      map fst results = (init ++ [final])%list /\
      new_content = file_text (map (fun x => (x, LF_)) init) final) /\
  Forall2 (fun line r => snd r = false -> fst r = line) (Str.splitlines content) results /\
  (forall rows last,
      content = file_text rows last ->
      forallb no_linebreak (map fst rows) = true -> no_linebreak last = true ->
      separable rows = true ->
      Str.splitlines content = lines_of rows last).
Proof.
  intros Hread Hro Hends results Hsome w' new_content.
  subst w'. rewrite (process_workflow_file_run _ _ _ _ Hread), Hends. fold results.
  assert (Hyes : existsb snd results = true).
  { apply existsb_exists. apply Exists_exists in Hsome as (r & Hin & Hr).
    exists r. split; [|exact Hr]. apply list_elem_of_In. exact Hin. }
  rewrite Hyes. fold new_content. cbn [snd].
  destruct (same_disk_lines_world api check_for_updates (Str.splitlines content) w)
    as (Hf & Hw & Hr).
  unfold write_text. run_prog. rewrite Hr.
  rewrite bool_decide_eq_false_2 by exact Hro. cbn [snd write_file files writes].
  split; [apply lookup_insert_eq|]. split; [rewrite Hw; reflexivity|].
  split; [|split].
  - destruct (exists_last (l := map fst results)) as (init & final & Hlast).
    { destruct results; [inversion Hsome|discriminate]. }
    exists init, final. split; [exact Hlast|].
    unfold new_content. rewrite Hlast. apply join_file_text.
  - apply line_results_unchanged, Hends.
  - intros rows last -> Hrows Hlast Hsep. apply splitlines_file_text; assumption.
Qed.

End FileFacts.

Lemma no_change_no_write_witness :
  let w := fresh Missing Scenario.workflow ∅ in
  let w' := snd (process_workflow_file Scenario.offline "ci.yml" false w) in
  writes w' = [] /\ files w' = Scenario.workflow.
Proof.
  apply (no_change_no_write Scenario.offline "ci.yml" false
           (fresh Missing Scenario.workflow ∅)).
  intros content H. vm_compute in H. injection H as <-.
  vm_compute. repeat constructor.
Defined.

Lemma written_file_is_joined_witness :
  let w := fresh Missing Scenario.workflow ∅ in
  let w' := snd (process_workflow_file Scenario.checkout_v4 "ci.yml" false w) in
  files w' !! "ci.yml"
  = Some ("name: ci" +:+ String Str.LF ""
          +:+ "  uses: actions/checkout@aaaaaaaaaaaaaaaaaaaaaaaaaaaaaaaaaaaaaaaa # v4.2.0").
Proof.
  refine (proj1 (written_file_is_joined Scenario.checkout_v4 "ci.yml" false
                   (fresh Missing Scenario.workflow ∅)
                   (file_text Scenario.workflow_rows "") _ _ _ _)).
  - vm_compute. reflexivity.
  - cbn. set_solver.
  - vm_compute. reflexivity.
  - vm_compute. apply Exists_cons_tl, Exists_cons_hd. reflexivity.
Defined.

(** ** Strings *)

Module StrFacts.

Lemma app_nil_l (s : string) : "" +:+ s = s.
Proof. reflexivity. Qed.

Lemma app_cons (c : ascii) (s t : string) : String c s +:+ t = String c (s +:+ t).
Proof. reflexivity. Qed.

Lemma app_nil_r (s : string) : s +:+ "" = s.
Proof. induction s as [|c s IH]; [|rewrite app_cons, IH]; reflexivity. Qed.

Lemma app_assoc (x y z : string) : (x +:+ y) +:+ z = x +:+ (y +:+ z).
Proof. induction x as [|c x IH]; [|rewrite !app_cons, IH]; reflexivity. Qed.

Lemma length_app (x y : string) :
  String.length (x +:+ y) = (String.length x + String.length y)%nat.
Proof. induction x as [|c x IH]; [|rewrite app_cons; cbn; rewrite IH]; reflexivity. Qed.

Lemma take_app (x s : string) : Str.take (String.length x) (x +:+ s) = x.
Proof.
  induction x as [|c x IH]; [destruct s; reflexivity|].
  rewrite app_cons. cbn. rewrite IH. reflexivity.
Qed.

(** The text consumed between an input and what is left of it. *)
Lemma take_consumed (x s : string) :
  Str.take (String.length (x +:+ s) - String.length s) (x +:+ s) = x.
Proof.
  rewrite length_app.
  replace (String.length x + String.length s - String.length s)%nat
    with (String.length x) by lia.
  apply take_app.
Qed.

Lemma startswith_app (x s : string) : Str.startswith (x +:+ s) x = true.
Proof.
  unfold Str.startswith. induction x as [|c x IH].
  - destruct s; reflexivity.
  - rewrite app_cons. cbn. rewrite IH. destruct (ascii_dec c c); [reflexivity|congruence].
Qed.

Lemma startswith_inv (s p : string) :
  Str.startswith s p = true -> exists rest, s = p +:+ rest.
Proof.
  unfold Str.startswith. revert s. induction p as [|c p IH]; intros s H.
  - exists s. reflexivity.
  - destruct s as [|d s]; cbn in H; [discriminate|].
    destruct (ascii_dec c d) as [->|]; [|discriminate].
    destruct (IH _ H) as [rest ->]. exists rest. reflexivity.
Qed.

End StrFacts.

(** ** The matcher and the words of a pattern *)

Module ReFacts.

Import Re.

Section Matcher.

Context {R : Type}.

Implicit Types (k : string -> groups -> option R) (res : R).

Lemma run_cat r1 r2 s g k :
  run (Cat r1 r2) s g k = run r1 s g (fun s1 g1 => run r2 s1 g1 k).
Proof. reflexivity. Qed.

Lemma run_grp n r s g k :
  run (Grp n r) s g k
  = run r s g (fun s1 g1 =>
      k s1 (<[n := Str.take (String.length s - String.length s1) s]> g1)).
Proof. reflexivity. Qed.

Lemma run_chr c s g k res :
  run (Chr c) s g k = Some res -> exists s1, s = String c s1 /\ k s1 g = Some res.
Proof.
  destruct s as [|d s1]; cbn; [discriminate|]. unfold Str.is_char.
  destruct (Ascii.eqb_spec d c) as [->|]; [|discriminate]. eauto.
Qed.

(** Soundness of the loop of [r*], given soundness of [r]. *)
Lemma star_loop_sound r :
  (forall s g k res, run r s g k = Some res ->
     exists x s1 g1, s = x +:+ s1 /\ word r x /\ k s1 g1 = Some res /\
                     (group_free r = true -> g1 = g)) ->
  forall fuel s g k res, star_loop (run r) k fuel s g = Some res ->
    exists x s1 g1, s = x +:+ s1 /\ word (Star r) x /\ k s1 g1 = Some res /\
                    (group_free r = true -> g1 = g).
Proof.
  intros Hr. induction fuel as [|f IH]; intros s g k res H; cbn [star_loop] in H.
  - exists "", s, g. repeat split; auto. constructor.
  - destruct (run r s g _) as [res'|] eqn:Ebody.
    + injection H as ->. apply Hr in Ebody as (x & s1 & g1 & -> & Hx & Hk & Hg).
      destruct (_ <? _)%nat; [|discriminate].
      apply IH in Hk as (y & s2 & g2 & -> & Hy & Hk & Hg2).
      exists (x +:+ y), s2, g2. repeat split; auto.
      * symmetry. apply StrFacts.app_assoc.
      * constructor; assumption.
      * intros Hgf. rewrite Hg2, Hg; auto.
    + exists "", s, g. repeat split; auto. constructor.
Qed.

(** Soundness: when the matcher succeeds, it has consumed a word of the
    pattern and the continuation has succeeded on the rest. *)
Lemma run_sound r :
  anchor_free r = true ->
  forall s g k res, run r s g k = Some res ->
    exists x s1 g1, s = x +:+ s1 /\ word r x /\ k s1 g1 = Some res /\
                    (group_free r = true -> g1 = g).
Proof.
  induction r as [|p|r1 IH1 r2 IH2|r1 IH1 r2 IH2|r IH|n r IH|];
    cbn [anchor_free]; intros Ha s g k res H.
  - exists "", s, g. repeat split; auto. constructor.
  - cbn [run] in H. destruct s as [|c s1]; [discriminate|].
    destruct (p c) eqn:Hp; [|discriminate].
    exists (String c ""), s1, g. repeat split; auto. constructor. assumption.
  - apply andb_prop in Ha as [Ha1 Ha2]. rewrite run_cat in H.
    apply (IH1 Ha1) in H as (x & s1 & g1 & -> & Hx & Hk & Hg1).
    apply (IH2 Ha2) in Hk as (y & s2 & g2 & -> & Hy & Hk & Hg2).
    exists (x +:+ y), s2, g2. repeat split; auto.
    + symmetry. apply StrFacts.app_assoc.
    + constructor; assumption.
    + cbn [group_free]. intros [G1 G2]%andb_prop. rewrite Hg2, Hg1; auto.
  - apply andb_prop in Ha as [Ha1 Ha2]. cbn [run] in H.
    destruct (run r1 s g k) as [res'|] eqn:E1.
    + injection H as ->. apply (IH1 Ha1) in E1 as (x & s1 & g1 & -> & Hx & Hk & Hg1).
      exists x, s1, g1. repeat split; auto.
      * apply word_alt_l. assumption.
      * cbn [group_free]. intros [G1 G2]%andb_prop. auto.
    + apply (IH2 Ha2) in H as (x & s1 & g1 & -> & Hx & Hk & Hg1).
      exists x, s1, g1. repeat split; auto.
      * apply word_alt_r. assumption.
      * cbn [group_free]. intros [G1 G2]%andb_prop. auto.
  - cbn [run] in H. eapply star_loop_sound in H; eauto.
  - rewrite run_grp in H.
    apply (IH Ha) in H as (x & s1 & g1 & -> & Hx & Hk & Hg1).
    exists x, s1,
      (<[n := Str.take (String.length (x +:+ s1) - String.length s1) (x +:+ s1)]> g1).
    repeat split; auto.
    + constructor. assumption.
    + cbn [group_free]. discriminate.
  - discriminate.
Qed.

(** The loop of [r*] succeeds when its continuation does at once. *)
Lemma star_loop_stop r fuel s g k :
  k s g <> None -> star_loop (run r) k fuel s g <> None.
Proof.
  intros Hk. destruct fuel as [|f]; cbn [star_loop]; [assumption|].
  destruct (run r s g _); [discriminate|assumption].
Qed.

(** Completeness: where a word of the pattern is followed by a rest on
    which the continuation succeeds whatever the groups, the matcher
    succeeds; for [r*] with any fuel that covers the input. *)
Lemma run_complete r x :
  word r x ->
  forall s1 g k, (forall g', k s1 g' <> None) ->
    run r (x +:+ s1) g k <> None /\
    match r with
    | Star r' => forall fuel, (String.length (x +:+ s1) <= fuel)%nat ->
                              star_loop (run r') k fuel (x +:+ s1) g <> None
    | _ => True
    end.
Proof.
  induction 1 as [|p c Hp|r1 r2 x y _ IH1 _ IH2|r1 r2 x _ IH|r1 r2 x _ IH
                 |r|r x y _ IH1 _ IH2|n r x _ IH];
    intros s1 g k Hk.
  - split; [apply Hk|exact I].
  - split; [|exact I]. rewrite StrFacts.app_cons. cbn [run]. rewrite Hp. apply Hk.
  - split; [|exact I]. rewrite StrFacts.app_assoc, run_cat.
    apply IH1. intros g'. apply IH2. assumption.
  - split; [|exact I]. cbn [run].
    destruct (run r1 (x +:+ s1) g k) eqn:E; [discriminate|].
    exfalso. eapply (proj1 (IH s1 g k Hk)). exact E.
  - split; [|exact I]. cbn [run].
    destruct (run r1 (x +:+ s1) g k); [discriminate|]. apply IH. assumption.
  - split; [|intros fuel _]; apply star_loop_stop, Hk.
  - assert (Hloop : forall fuel, (String.length ((x +:+ y) +:+ s1) <= fuel)%nat ->
                star_loop (run r) k fuel ((x +:+ y) +:+ s1) g <> None).
    { intros fuel Hfuel. destruct x as [|c x].
      - apply (proj2 (IH2 s1 g k Hk)). exact Hfuel.
      - rewrite StrFacts.app_assoc in *.
        destruct fuel as [|f]; [rewrite StrFacts.app_cons in Hfuel; cbn in Hfuel; lia|].
        cbn [star_loop].
        destruct (run r (String c x +:+ y +:+ s1) g _) eqn:E; [discriminate|].
        exfalso. revert E. apply IH1. intros g'.
        assert (Hlt : (String.length (y +:+ s1) <? String.length (String c x +:+ y +:+ s1))%nat
                      = true).
        { apply Nat.ltb_lt. rewrite (StrFacts.length_app (String c x)). cbn. lia. }
        rewrite Hlt. apply (proj2 (IH2 s1 g' k Hk)).
        rewrite (StrFacts.length_app (String c x)) in Hfuel. cbn in Hfuel. lia. }
    split; [|exact Hloop]. cbn [run]. apply Hloop. lia.
  - split; [|exact I]. rewrite run_grp. apply IH. intros g'. apply Hk.
Qed.

End Matcher.

End ReFacts.

(** ** Words taken apart *)

Section Words.

Import Re.

Lemma word_cat_inv r1 r2 x :
  word (Cat r1 r2) x -> exists a b, x = a +:+ b /\ word r1 a /\ word r2 b.
Proof. inversion 1; subst; eauto. Qed.

Lemma word_grp_inv n r x : word (Grp n r) x -> word r x.
Proof. inversion 1; subst; assumption. Qed.

Lemma word_chr_inv c x : word (Chr c) x -> x = String c "".
Proof.
  unfold Chr. inversion 1 as [|p d Hd| | | | | |]; subst. unfold Str.is_char in Hd.
  apply Ascii.eqb_eq in Hd. congruence.
Qed.

Lemma all_app p (a b : string) : Str.all p (a +:+ b) = Str.all p a && Str.all p b.
Proof.
  induction a as [|c a IH]; [reflexivity|].
  rewrite StrFacts.app_cons. cbn [Str.all]. rewrite IH, andb_assoc. reflexivity.
Qed.

Lemma all_impl (p q : ascii -> bool) (x : string) :
  (forall c, p c = true -> q c = true) -> Str.all p x = true -> Str.all q x = true.
Proof.
  intros Hpq. induction x as [|c x IH]; [reflexivity|]. cbn [Str.all].
  intros [Hc Hx]%andb_prop. rewrite (Hpq _ Hc), (IH Hx). reflexivity.
Qed.

Lemma word_cls_inv p x : word (Cls p) x -> Str.all p x = true.
Proof. inversion 1 as [|q c Hc| | | | | |]; subst. cbn. rewrite Hc. reflexivity. Qed.

Lemma word_star_cls p x : word (Star (Cls p)) x -> Str.all p x = true.
Proof.
  remember (Star (Cls p)) as r eqn:Hr. induction 1 as [| | | | | |r' x y Hx _ _ IH|];
    try discriminate Hr.
  - reflexivity.
  - injection Hr as ->. rewrite all_app, (word_cls_inv _ _ Hx), (IH eq_refl). reflexivity.
Qed.

Lemma word_plus_cls p x : word (Plus (Cls p)) x -> Str.all p x = true.
Proof.
  unfold Plus. intros (a & b & -> & Ha & Hb)%word_cat_inv.
  rewrite all_app, (word_cls_inv _ _ Ha), (word_star_cls _ _ Hb). reflexivity.
Qed.

(** A repository name as the patterns take it has no backslash. *)
Lemma owner_repo_no_backslash repo : word owner_repo repo -> no_backslash repo = true.
Proof.
  unfold owner_repo, word_or_dash.
  intros (a & x & -> & Ha%word_plus_cls & H)%word_cat_inv.
  apply word_cat_inv in H as (sl & b & -> & ->%word_chr_inv & Hb%word_plus_cls).
  assert (Hc : forall c, Str.is_word c || Str.is_char "-" c = true ->
                         negb (Ascii.eqb c BACKSLASH) = true).
  { intros c Hc. destruct (Ascii.eqb_spec c BACKSLASH) as [->|]; [|reflexivity].
    vm_compute in Hc. discriminate Hc. }
  unfold no_backslash. rewrite !all_app, (all_impl _ _ _ Hc Ha), (all_impl _ _ _ Hc Hb).
  reflexivity.
Qed.

(** A text without backslash is its own template. *)
Lemma tokens_plain (text : string) :
  no_backslash text = true ->
  tokens text = Some (map Plain (list_ascii_of_string text)).
Proof.
  induction text as [|c text IH]; [reflexivity|].
  unfold no_backslash. cbn [Str.all]. intros [Hc Ht]%andb_prop.
  apply negb_true_iff in Hc. cbn [tokens list_ascii_of_string map].
  rewrite Hc, (IH Ht). reflexivity.
Qed.

Lemma parse_tokens_plain (n : nat) (text : string) :
  parse_tokens n (map Plain (list_ascii_of_string text)) = Some (plain text).
Proof.
  induction text as [|c text IH]; [reflexivity|].
  cbn [list_ascii_of_string map parse_tokens plain]. rewrite IH. reflexivity.
Qed.

Lemma parse_template_plain (r : regex) (text : string) :
  no_backslash text = true -> parse_template r text = Some (plain text).
Proof.
  intros H. unfold parse_template. rewrite (tokens_plain _ H). apply parse_tokens_plain.
Qed.

Lemma expand_plain (text whole : string) (g : groups) : expand (plain text) whole g = text.
Proof.
  induction text as [|c text IH]; [reflexivity|].
  cbn [plain expand]. rewrite IH. reflexivity.
Qed.

End Words.

(** ** The leftmost match and the replacements *)

Section Leftmost.

Import Re.

(** [search] returns the match at the first position where there is one. *)
Lemma search_from_leftmost r : forall s before m,
  search_from r before s = Some m ->
  exists a b,
    s = a +:+ b /\ pre m = before +:+ a /\
    match_here r b = Some (post m, grp m) /\
    text m = Str.take (String.length b - String.length (post m)) b /\
    (forall a1 a2, a = a1 +:+ a2 -> a2 <> "" -> match_here r (a2 +:+ b) = None).
Proof.
  assert (Hhere : forall s before m rest g,
             match_here r s = Some (rest, g) -> Some (found before s rest g) = Some m ->
             exists a b,
               s = a +:+ b /\ pre m = before +:+ a /\
               match_here r b = Some (post m, grp m) /\
               text m = Str.take (String.length b - String.length (post m)) b /\
               (forall a1 a2, a = a1 +:+ a2 -> a2 <> "" -> match_here r (a2 +:+ b) = None)).
  { intros s before m rest g E [= <-]. exists "", s. cbn [pre post grp text found].
    repeat split; auto.
    - symmetry. apply StrFacts.app_nil_r.
    - intros a1 a2 Ha Hne. destruct a1, a2; try discriminate Ha. congruence. }
  induction s as [|c s IH]; intros before m H; cbn [search_from] in H.
  - destruct (match_here r "") as [[rest g]|] eqn:E; [|discriminate]. eauto.
  - destruct (match_here r (String c s)) as [[rest g]|] eqn:E; [eauto|].
    apply IH in H as (a & b & -> & Hpre & Hm & Ht & Hleft).
    exists (String c a), b. repeat split; auto.
    + rewrite Hpre, StrFacts.app_assoc. reflexivity.
    + intros a1 a2 Ha Hne. destruct a1 as [|d a1].
      * rewrite StrFacts.app_nil_l in Ha. subst a2. exact E.
      * rewrite StrFacts.app_cons in Ha. injection Ha as <- Ha. eauto.
Qed.

(** Passing over the characters of an occurrence. *)
Lemma replace_from_skip old new x : forall s,
  Str.replace_from old new (String.length x) (x +:+ s) = Str.replace_from old new 0 s.
Proof.
  induction x as [|c x IH]; intros s; [reflexivity|].
  rewrite StrFacts.app_cons. cbn [String.length Str.replace_from]. apply IH.
Qed.

Lemma replace_from_cons old new c s :
  Str.replace_from old new 0 (String c s)
  = if Str.startswith (String c s) old
    then new +:+ Str.replace_from old new (String.length old - 1) s
    else String c (Str.replace_from old new 0 s).
Proof. reflexivity. Qed.

(** [replace] copies the text before the first occurrence, puts the new
    text for it and goes on after it. *)
Lemma replace_first (old new : string) : old <> "" -> forall a rest,
  (forall a1 a2, a = a1 +:+ a2 -> a2 <> "" ->
     Str.startswith (a2 +:+ old +:+ rest) old = false) ->
  Str.replace (a +:+ old +:+ rest) old new = a +:+ new +:+ Str.replace rest old new.
Proof.
  intros Hne. unfold Str.replace. destruct old as [|o old']; [congruence|].
  induction a as [|c a IH]; intros rest Hfirst.
  - rewrite !StrFacts.app_nil_l.
    pose proof (StrFacts.startswith_app (String o old') rest) as Hs.
    rewrite (StrFacts.app_cons o old' rest) in *.
    rewrite replace_from_cons, Hs.
    replace (String.length (String o old') - 1)%nat with (String.length old')
      by (cbn [String.length]; lia).
    rewrite replace_from_skip. reflexivity.
  - pose proof (Hfirst "" (String c a) eq_refl ltac:(discriminate)) as Hs.
    rewrite (StrFacts.app_cons c a) in *.
    rewrite replace_from_cons, Hs, (StrFacts.app_cons c a (new +:+ _)). f_equal. apply IH.
    intros a1 a2 Ha Hne2. apply (Hfirst (String c a1) a2); [|assumption].
    rewrite StrFacts.app_cons, Ha. reflexivity.
Qed.

Lemma sub_from_cons r t c s :
  sub_from r t 0 (String c s)
  = match match_here r (String c s) with
    | Some (rest, g) =>
        match (String.length (String c s) - String.length rest)%nat with
        | O => expand t "" g +:+ String c (sub_from r t 0 s)
        | S n =>
            expand t (Str.take (S n) (String c s)) g +:+ sub_from r t n s
        end
    | None => String c (sub_from r t 0 s)
    end.
Proof.
  cbn [sub_from]. destruct (match_here r (String c s)) as [[rest g]|]; [|reflexivity].
  cbv zeta. destruct (_ - _)%nat; reflexivity.
Qed.

(** Passing over the characters of a match. *)
Lemma sub_from_skip r t x : forall s,
  sub_from r t (String.length x) (x +:+ s) = sub_from r t 0 s.
Proof.
  induction x as [|c x IH]; intros s; [reflexivity|].
  rewrite StrFacts.app_cons. cbn [String.length sub_from]. apply IH.
Qed.

(** [sub] copies the text before the first match, puts the expanded
    template for the match and goes on after it. *)
Lemma sub_first r t : forall a x rest g,
  match_here r (x +:+ rest) = Some (rest, g) -> x <> "" ->
  (forall a1 a2, a = a1 +:+ a2 -> a2 <> "" -> match_here r (a2 +:+ x +:+ rest) = None) ->
  sub_from r t 0 (a +:+ x +:+ rest) = a +:+ expand t x g +:+ sub_from r t 0 rest.
Proof.
  induction a as [|c a IH]; intros x rest g Hm Hne Hleft.
  - rewrite !StrFacts.app_nil_l. destruct x as [|d x]; [congruence|].
    rewrite StrFacts.app_cons in *. rewrite sub_from_cons, Hm.
    assert (Hn : (String.length (String d (x +:+ rest)) - String.length rest)%nat
                 = S (String.length x)).
    { cbn [String.length]. rewrite StrFacts.length_app. lia. }
    rewrite Hn. cbn [Str.take]. rewrite StrFacts.take_app, sub_from_skip. reflexivity.
  - pose proof (Hleft "" (String c a) eq_refl ltac:(discriminate)) as Hs.
    rewrite (StrFacts.app_cons c a) in *.
    rewrite sub_from_cons, Hs, (StrFacts.app_cons c a (expand t x g +:+ _)). f_equal.
    apply IH; [assumption..|].
    intros a1 a2 Ha Hne2. apply (Hleft (String c a1) a2); [|assumption].
    rewrite StrFacts.app_cons, Ha. reflexivity.
Qed.

(** The text of a match of the unpinned pattern and its groups. *)
Lemma match_here_unpinned b rest g :
  match_here unpinned_pattern b = Some (rest, g) ->
  exists repo tag,
    b = (repo +:+ "@" +:+ tag) +:+ rest /\
    word owner_repo repo /\ word v_version tag /\
    g = <[2 := tag]> (<[1 := repo]> ∅).
Proof.
  unfold match_here, unpinned_pattern. rewrite ReFacts.run_cat, ReFacts.run_grp.
  intros H.
  apply ReFacts.run_sound in H as (x & s1 & g1 & -> & Hx & Hk & Hg); [|reflexivity].
  rewrite (Hg eq_refl), StrFacts.take_consumed, ReFacts.run_cat in Hk.
  apply ReFacts.run_chr in Hk as (s2 & -> & Hk). rewrite ReFacts.run_grp in Hk.
  apply ReFacts.run_sound in Hk as (y & s3 & g3 & -> & Hy & Hk & Hg3); [|reflexivity].
  rewrite (Hg3 eq_refl), StrFacts.take_consumed in Hk. injection Hk as <- <-.
  exists x, y. repeat split; auto.
  rewrite !StrFacts.app_assoc. reflexivity.
Qed.

Lemma word_unpinned repo tag :
  word owner_repo repo -> word v_version tag ->
  word unpinned_pattern (repo +:+ "@" +:+ tag).
Proof.
  intros Hr Ht. unfold unpinned_pattern.
  apply word_cat; [apply word_grp, Hr|].
  apply (word_cat _ _ "@" tag); [apply word_cls; reflexivity | apply word_grp, Ht].
Qed.

(** The text of a match of the pinned pattern and its groups. *)
Lemma match_here_pinned b rest g :
  match_here pinned_pattern b = Some (rest, g) ->
  exists repo h s1 s2 v,
    b = (repo +:+ "@" +:+ h +:+ s1 +:+ "#" +:+ s2 +:+ v) +:+ rest /\
    word owner_repo repo /\ word v_version v /\
    g = <[3 := v]> (<[2 := h]> (<[1 := repo]> ∅)).
Proof.
  unfold match_here, pinned_pattern. rewrite ReFacts.run_cat, ReFacts.run_grp.
  intros H.
  apply ReFacts.run_sound in H as (repo & r1 & g1 & -> & Hrepo & Hk & Hg); [|reflexivity].
  rewrite (Hg eq_refl), StrFacts.take_consumed, ReFacts.run_cat in Hk.
  apply ReFacts.run_chr in Hk as (r2 & -> & Hk).
  rewrite ReFacts.run_cat, ReFacts.run_grp in Hk.
  apply ReFacts.run_sound in Hk as (h & r3 & g3 & -> & _ & Hk & Hg3); [|reflexivity].
  rewrite (Hg3 eq_refl), StrFacts.take_consumed, ReFacts.run_cat in Hk.
  apply ReFacts.run_sound in Hk as (s1 & r4 & g4 & -> & _ & Hk & Hg4); [|reflexivity].
  rewrite (Hg4 eq_refl), ReFacts.run_cat in Hk.
  apply ReFacts.run_chr in Hk as (r5 & -> & Hk). rewrite ReFacts.run_cat in Hk.
  apply ReFacts.run_sound in Hk as (s2 & r6 & g6 & -> & _ & Hk & Hg6); [|reflexivity].
  rewrite (Hg6 eq_refl), ReFacts.run_grp in Hk.
  apply ReFacts.run_sound in Hk as (v & r7 & g7 & -> & Hv & Hk & Hg7); [|reflexivity].
  rewrite (Hg7 eq_refl), StrFacts.take_consumed in Hk. injection Hk as <- <-.
  exists repo, h, s1, s2, v. repeat split; auto.
  rewrite !StrFacts.app_assoc. reflexivity.
Qed.

End Leftmost.

(** ** C3: several references on one line *)

Section FirstMatch.

Context (api : remote).

Import Re.

(** The leftmost match of the unpinned pattern: its text is
    [repo@tag] for its two groups, no match starts before it, and
    [replace] finds the first occurrence of this text exactly there. *)
Lemma search_unpinned_shape line m :
  search unpinned_pattern line = Some m ->
  line = pre m +:+ text m +:+ post m /\
  text m = group m 1 +:+ "@" +:+ group m 2 /\
  (forall a1 a2, pre m = a1 +:+ a2 -> a2 <> "" ->
     match_here unpinned_pattern (a2 +:+ text m +:+ post m) = None) /\
  (forall new, Str.replace line (text m) new
               = pre m +:+ new +:+ Str.replace (post m) (text m) new).
Proof.
  unfold search. intros H.
  apply search_from_leftmost in H as (a & b & -> & Hpre & Hm & Ht & Hleft).
  rewrite StrFacts.app_nil_l in Hpre. subst a.
  destruct (match_here_unpinned _ _ _ Hm) as (repo & tag & -> & Hrepo & Htag & Hg).
  rewrite StrFacts.take_consumed in Ht.
  assert (H1 : group m 1 = repo).
  { unfold group. rewrite Hg, lookup_insert_ne, lookup_insert_eq by discriminate.
    reflexivity. }
  assert (H2 : group m 2 = tag).
  { unfold group. rewrite Hg, lookup_insert_eq. reflexivity. }
  rewrite H1, H2, Ht. repeat split; auto.
  intros new. apply replace_first.
  - destruct repo; discriminate.
  - intros a1 a2 Ha Hne.
    destruct (Str.startswith _ _) eqn:Hs; [exfalso|reflexivity].
    apply StrFacts.startswith_inv in Hs as [rest' Hs].
    specialize (Hleft a1 a2 Ha Hne). rewrite Hs in Hleft. revert Hleft.
    apply (ReFacts.run_complete unpinned_pattern _ (word_unpinned _ _ Hrepo Htag)).
    discriminate.
Qed.

(** The leftmost match of the pinned pattern: no match starts before it,
    its first group is a repository name, and [sub] copies the text before
    it, puts the expanded template for it and goes on after it. *)
Lemma search_pinned_shape line m :
  search pinned_pattern line = Some m ->
  line = pre m +:+ text m +:+ post m /\
  (forall a1 a2, pre m = a1 +:+ a2 -> a2 <> "" ->
     match_here pinned_pattern (a2 +:+ text m +:+ post m) = None) /\
  word owner_repo (group m 1) /\
  (forall t, sub_from pinned_pattern t 0 line
             = pre m +:+ expand t (text m) (grp m) +:+ sub_from pinned_pattern t 0 (post m)).
Proof.
  unfold search. intros H.
  apply search_from_leftmost in H as (a & b & -> & Hpre & Hm & Ht & Hleft).
  rewrite StrFacts.app_nil_l in Hpre. subst a.
  destruct (match_here_pinned _ _ _ Hm) as (repo & h & s1 & s2 & v & -> & Hrepo & _ & Hg).
  rewrite StrFacts.take_consumed in Ht. rewrite Ht.
  repeat split; auto.
  - unfold group. rewrite Hg, !lookup_insert_ne, lookup_insert_eq by discriminate.
    exact Hrepo.
  - intros t. apply sub_first; [exact Hm| |exact Hleft].
    destruct repo; discriminate.
Qed.

(** C3, as the script has it. Repository and tag come from the leftmost
    match [m] alone, and the text before it stays. On an unpinned line the
    match is replaced by [repo@sha # version] and, in the text after it,
    every occurrence of the matched text [repo@tag] is replaced likewise,
    the rest staying as it is. On a pinned line in update mode [re.sub]
    reads [repo@sha # version] as a template: when it cannot be read the
    call raises; else the match is replaced by the expanded template and, in
    the text after it, every further match of the pinned pattern is
    replaced by the template expanded with its own groups, the rest staying
    as it is. A hash and a version without backslash make a template that
    expands to [repo@sha # version] itself. *)
Theorem first_match_rewritten (line : string) (check_for_updates : bool) (w : world)
    (m : match_) (hash : string) (version : option string) :
  hash <> "" ->
  let new := group m 1 +:+ "@" +:+ hash +:+ " # " +:+ fmt version in
  (is_pinned_action line = false ->
   search unpinned_pattern line = Some m ->
   fst (fetch_tag_details api (group m 1) (group m 2) check_for_updates w)
     = (Some hash, version) ->
   line = pre m +:+ text m +:+ post m /\
   text m = group m 1 +:+ "@" +:+ group m 2 /\
   (forall a1 a2, pre m = a1 +:+ a2 -> a2 <> "" ->
      match_here unpinned_pattern (a2 +:+ text m +:+ post m) = None) /\
   fst (process_line api line check_for_updates w)
     = Value (pre m +:+ new +:+ Str.replace (post m) (text m) new, true)) /\
  (search pinned_pattern line = Some m ->
   fst (fetch_tag_details api (group m 1) (group m 3) true w) = (Some hash, version) ->
   same_version version (group m 3) = false ->
   line = pre m +:+ text m +:+ post m /\
   (forall a1 a2, pre m = a1 +:+ a2 -> a2 <> "" ->
      match_here pinned_pattern (a2 +:+ text m +:+ post m) = None) /\
   fst (process_line api line true w)
     = match parse_template pinned_pattern new with
       | Some t =>
           Value (pre m +:+ expand t (text m) (grp m)
                  +:+ sub_from pinned_pattern t 0 (post m), true)
       | None => Exception
       end /\
   (no_backslash hash = true -> no_backslash (fmt version) = true ->
    fst (process_line api line true w)
    = Value (pre m +:+ new +:+ sub_from pinned_pattern (plain new) 0 (post m), true))).
Proof.
  intros Hne new. assert (Hf : Str.falsy (Some hash) = false).
  { cbn. destruct (String.eqb_spec hash ""); congruence. }
  split.
  - intros Hpin Hs Hr.
    destruct (search_unpinned_shape _ _ Hs) as (Hline & Htext & Hleft & Hrep).
    repeat split; auto.
    unfold process_line. rewrite Hpin. unfold process_unpinned_action. rewrite Hs.
    rewrite bind_run.
    destruct (fetch_tag_details api _ _ check_for_updates w) as [[s v] w'].
    cbn [fst snd] in *. injection Hr as -> ->. rewrite Hf. unfold ret. cbn [fst].
    rewrite <- Htext, Hrep. reflexivity.
  - intros Hs Hr Hv.
    destruct (search_pinned_shape _ _ Hs) as (Hline & Hleft & Hrepo & Hsub).
    assert (Hres : fst (process_line api line true w)
                   = match parse_template pinned_pattern new with
                     | Some t =>
                         Value (pre m +:+ expand t (text m) (grp m)
                                +:+ sub_from pinned_pattern t 0 (post m), true)
                     | None => Exception
                     end).
    { unfold process_line, is_pinned_action. rewrite Hs.
      unfold process_pinned_action. cbn [negb]. rewrite Hs, bind_run.
      destruct (fetch_tag_details api _ _ true w) as [[s v] w'].
      cbn [fst snd] in *. injection Hr as -> ->. rewrite Hf, Hv. cbn [orb].
      change (fmt (Some hash)) with hash. fold new. unfold sub.
      destruct (parse_template pinned_pattern new) as [t|]; [|reflexivity].
      unfold ret. cbn [fst]. rewrite Hsub. reflexivity. }
    repeat split; auto.
    intros Hh Hver. rewrite Hres.
    assert (Hnew : no_backslash new = true).
    { unfold new, no_backslash. rewrite !all_app.
      apply owner_repo_no_backslash in Hrepo. unfold no_backslash in *.
      rewrite Hrepo, Hh, Hver. reflexivity. }
    rewrite (parse_template_plain _ _ Hnew), expand_plain. reflexivity.
Qed.

End FirstMatch.

(** The claim fails on a line that repeats a reference: both occurrences of
    [actions/checkout@v4] are rewritten, not the first alone. *)
Lemma repeated_reference_rewritten :
  let line := "uses: actions/checkout@v4 # or actions/checkout@v4" in
  let new := "actions/checkout@aaaaaaaaaaaaaaaaaaaaaaaaaaaaaaaaaaaaaaaa # v4.2.0" in
  exists m,
    Re.search unpinned_pattern line = Some m /\
    fst (process_line Scenario.checkout_v4 line false Scenario.start)
      = Value ("uses: " +:+ new +:+ " # or " +:+ new, true) /\
    first_only m new = "uses: " +:+ new +:+ " # or actions/checkout@v4" /\
    fst (process_line Scenario.checkout_v4 line false Scenario.start)
      <> Value (first_only m new, true).
Proof.
  eexists. split; [vm_compute; reflexivity|].
  vm_compute. repeat split; try reflexivity. discriminate.
Qed.

(** On a pinned line in update mode every match of the pinned pattern is
    replaced by the text made for the first one, here also the reference to
    another action. *)
Example second_pinned_reference_overwritten :
  fst (process_line Scenario.releases_and_refs
         ("uses: actions/checkout@" +:+ Scenario.sha_a +:+ " # v4.1.0 then actions/cache@"
          +:+ Scenario.sha_a +:+ " # v3.0.0")
         true Scenario.start)
  = Value ("uses: actions/checkout@" +:+ Scenario.sha_b +:+ " # v4.2.0 then actions/checkout@"
           +:+ Scenario.sha_b +:+ " # v4.2.0", true).
Proof. vm_compute. reflexivity. Qed.

(** A hash that begins with a backslash is read as a template: with the
    digit 1 after the backslash the repository name of the match is put
    where the hash should be, and with the letter q [re.sub] raises. *)
Example backslash_hash_is_a_template :
  fst (process_line (Scenario.odd_hash "1") Scenario.pinned_line true Scenario.start)
  = Value ("uses: actions/checkout@actions/checkout # v4.2.0", true).
Proof. vm_compute. reflexivity. Qed.

Example unreadable_template_raises :
  fst (process_line (Scenario.odd_hash "q") Scenario.pinned_line true Scenario.start)
  = Exception.
Proof. vm_compute. reflexivity. Qed.

Lemma first_match_rewritten_witness :
  fst (process_line Scenario.checkout_v4 "uses: actions/checkout@v4 # or actions/checkout@v4"
         false Scenario.start)
  = Value ("uses: actions/checkout@aaaaaaaaaaaaaaaaaaaaaaaaaaaaaaaaaaaaaaaa # v4.2.0"
           +:+ " # or actions/checkout@aaaaaaaaaaaaaaaaaaaaaaaaaaaaaaaaaaaaaaaa # v4.2.0", true)
  /\
  fst (process_line Scenario.releases_and_refs
         ("uses: actions/checkout@" +:+ Scenario.sha_a +:+ " # v4.1.0 then actions/cache@"
          +:+ Scenario.sha_a +:+ " # v3.0.0")
         true Scenario.start)
  = Value ("uses: actions/checkout@" +:+ Scenario.sha_b +:+ " # v4.2.0 then actions/checkout@"
           +:+ Scenario.sha_b +:+ " # v4.2.0", true).
Proof.
  split.
  - destruct (Re.search unpinned_pattern "uses: actions/checkout@v4 # or actions/checkout@v4")
      as [m|] eqn:Hs; [|vm_compute in Hs; discriminate].
    pose proof (first_match_rewritten Scenario.checkout_v4
                  "uses: actions/checkout@v4 # or actions/checkout@v4" false Scenario.start
                  m Scenario.sha_a (Some "v4.2.0") ltac:(discriminate)) as [Hun _].
    assert (Hm : m = {| Re.pre := "uses: "; Re.text := "actions/checkout@v4";
                        Re.post := " # or actions/checkout@v4";
                        Re.grp := <[2 := "v4"]> (<[1 := "actions/checkout"]> ∅) |}).
    { vm_compute in Hs. injection Hs as <-. reflexivity. }
    subst m.
    destruct (Hun ltac:(vm_compute; reflexivity) Hs ltac:(vm_compute; reflexivity))
      as (_ & _ & _ & Hres).
    rewrite Hres. vm_compute. reflexivity.
  - destruct (Re.search pinned_pattern
                ("uses: actions/checkout@" +:+ Scenario.sha_a
                 +:+ " # v4.1.0 then actions/cache@" +:+ Scenario.sha_a +:+ " # v3.0.0"))
      as [m|] eqn:Hs; [|vm_compute in Hs; discriminate].
    pose proof (first_match_rewritten Scenario.releases_and_refs
                  ("uses: actions/checkout@" +:+ Scenario.sha_a
                   +:+ " # v4.1.0 then actions/cache@" +:+ Scenario.sha_a +:+ " # v3.0.0")
                  true Scenario.start
                  m Scenario.sha_b (Some "v4.2.0") ltac:(discriminate)) as [_ Hpin].
    assert (Hm : m = {| Re.pre := "uses: ";
                        Re.text := "actions/checkout@" +:+ Scenario.sha_a +:+ " # v4.1.0";
                        Re.post := " then actions/cache@" +:+ Scenario.sha_a +:+ " # v3.0.0";
                        Re.grp := <[3 := "v4.1.0"]> (<[2 := Scenario.sha_a]>
                                    (<[1 := "actions/checkout"]> ∅)) |}).
    { vm_compute in Hs. injection Hs as <-. vm_compute. reflexivity. }
    subst m.
    destruct (Hpin Hs ltac:(vm_compute; reflexivity) ltac:(vm_compute; reflexivity))
      as (_ & _ & _ & Hres).
    rewrite (Hres ltac:(vm_compute; reflexivity) ltac:(vm_compute; reflexivity)).
    vm_compute. reflexivity.
Defined.

(** ** A second pass over a line that the first pass pinned

    Beyond C7: with update mode off, a line that the first pass has changed
    matches the pinned pattern afterwards, so that a second pass leaves it
    alone, provided the hashes are commit hashes. *)

Section SecondPass.

Context (api : remote).

Import Re.

Lemma search_from_unfold r before s :
  search_from r before s
  = match match_here r s with
    | Some (rest, g) => Some (found before s rest g)
    | None =>
        match s with
        | "" => None
        | String c s' => search_from r (before +:+ String c "") s'
        end
    end.
Proof. destruct s; reflexivity. Qed.

(** Where a match exists at some position, [search] finds one. *)
Lemma search_from_complete r a : forall b before,
  match_here r b <> None -> search_from r before (a +:+ b) <> None.
Proof.
  induction a as [|c a IH]; intros b before Hb; rewrite search_from_unfold.
  - rewrite StrFacts.app_nil_l. destruct (match_here r b) as [p|]; [|congruence].
    destruct p. intros H. discriminate H.
  - destruct (match_here r (String c a +:+ b)) as [p|];
      [destruct p; intros H; discriminate H|].
    rewrite StrFacts.app_cons. apply IH, Hb.
Qed.

Lemma word_rep_hex (h : string) :
  Str.all Str.is_lower_hex h = true ->
  word (Rep (String.length h) (Cls Str.is_lower_hex)) h.
Proof.
  induction h as [|c h IH]; cbn [Str.all String.length Rep]; [constructor|].
  intros [Hc Hh]%andb_prop.
  apply (word_cat _ _ (String c "") h); [constructor; assumption | auto].
Qed.

Lemma word_one_space : word spaces " ".
Proof.
  apply (word_star_more _ " " ""); [apply word_cls; reflexivity | apply word_star_nil].
Qed.

(** The text that pinning writes is a word of the pinned pattern, up to the
    tag the display version begins with. *)
Lemma word_pinned repo h tag :
  word owner_repo repo -> is_sha h = true -> word v_version tag ->
  word pinned_pattern (repo +:+ "@" +:+ h +:+ " " +:+ "#" +:+ " " +:+ tag).
Proof.
  intros Hrepo [Hlen Hhex]%andb_prop Htag. apply Nat.eqb_eq in Hlen.
  unfold pinned_pattern.
  apply word_cat; [apply word_grp, Hrepo|].
  apply (word_cat _ _ "@"); [apply word_cls; reflexivity|].
  apply word_cat; [apply word_grp; rewrite <- Hlen; apply word_rep_hex, Hhex|].
  apply word_cat; [apply word_one_space|].
  apply (word_cat _ _ "#"); [apply word_cls; reflexivity|].
  apply word_cat; [apply word_one_space | apply word_grp, Htag].
Qed.

(** Without upgrade the resolution is the cached entry, or the uncached
    resolution of the tag itself. *)
Lemma fetch_tag_details_plain repo tag w :
  fetch_tag_details api repo tag false w
  = match cache w !! (repo +:+ "@" +:+ tag) with
    | Some d => ((Some (sha d), Some (full_version d)), w)
    | None => fetch_uncached api repo tag w
    end.
Proof.
  unfold fetch_tag_details. rewrite bind_run.
  unfold get_cached_details. run_prog. cbn [negb fst snd].
  destruct (cache w !! _); reflexivity.
Qed.

Lemma display_version_begins latest tag :
  exists rest, display_version latest tag = tag +:+ rest.
Proof.
  unfold display_version.
  destruct (short_alias tag); [|exists ""; rewrite StrFacts.app_nil_r; reflexivity].
  destruct latest as [l|]; [|exists ""; rewrite StrFacts.app_nil_r; reflexivity].
  destruct (Str.startswith l tag) eqn:Hs;
    [|exists ""; rewrite StrFacts.app_nil_r; reflexivity].
  apply StrFacts.startswith_inv in Hs as [rest ->]. eauto.
Qed.

(** What a resolution without upgrade returns when it returns a hash. *)
Lemma fetch_tag_details_plain_found repo tag w h v :
  hashes_well_formed api -> cache_well_formed (cache w) ->
  fst (fetch_tag_details api repo tag false w) = (Some h, v) -> h <> "" ->
  is_sha h = true /\ exists rest, v = Some (tag +:+ rest).
Proof.
  intros Hapi Hcache. rewrite fetch_tag_details_plain.
  destruct (cache w !! _) as [d|] eqn:Hd; cbn [fst snd].
  - intros [= <- <-] Hne. destruct (Hcache _ _ _ Hd) as [[?|Hsha] Hv]; [congruence|].
    split; [exact Hsha|].
    apply StrFacts.startswith_inv in Hv as [rest ->]. eauto.
  - destruct (ref_at api ("https://api.github.com/repos/" +:+ repo +:+ "/git/refs/tags/"
                          +:+ tag)) as [rd|] eqn:Href.
    2: { rewrite missing_reference_yields_null by (left; exact Href). discriminate. }
    destruct rd as [o]. destruct o as [h'|].
    2: { rewrite missing_reference_yields_null by (right; left; exact Href). discriminate. }
    destruct (String.eqb_spec h' "") as [->|Hne'].
    { rewrite missing_reference_yields_null by (right; right; exact Href). discriminate. }
    rewrite (fetch_uncached_found api repo tag w h' Href Hne').
    intros [= <- <-] _.
    destruct (Hapi _ _ Href) as [?|Hsha]; [congruence|]. split; [exact Hsha|].
    destruct (display_version_begins (latest_release_of api repo) tag) as [rest ->]. eauto.
Qed.

(** X19. With update mode off, a line that a pass has changed matches the
    pinned pattern, and one more pass returns it as it is and touches
    nothing, when the hashes of the API and of the cache have 40 characters
    of [0-9a-f] and the cached display versions begin with their tag. *)
Theorem second_pass_unchanged (line : string) (w : world) (new_line : string) :
  hashes_well_formed api -> cache_well_formed (cache w) ->
  let r1 := process_line api line false w in
  fst r1 = Value (new_line, true) ->
  is_pinned_action new_line = true /\
  process_line api new_line false (snd r1) = (Value (new_line, false), snd r1).
Proof.
  intros Hapi Hcache r1 Hchanged.
  assert (Hpin : is_pinned_action new_line = true).
  { subst r1. unfold process_line in *.
    destruct (is_pinned_action line) eqn:Hp; [discriminate Hchanged|].
    unfold process_unpinned_action in *.
    destruct (search unpinned_pattern line) as [m|] eqn:Hs; [|discriminate Hchanged].
    rewrite bind_run in *.
    pose proof (fetch_tag_details_plain_found (group m 1) (group m 2) w) as Hfound.
    destruct (fetch_tag_details api (group m 1) (group m 2) false w) as [[h v] w'].
    cbn [fst snd] in *. destruct h as [h|]; [|discriminate Hchanged].
    destruct (String.eqb_spec h "") as [->|Hne]; [discriminate Hchanged|].
    destruct (Hfound h v Hapi Hcache eq_refl Hne) as (Hsha & rest & ->).
    assert (Hf : Str.falsy (Some h) = false).
    { cbn. destruct (String.eqb_spec h ""); congruence. }
    rewrite Hf in Hchanged. unfold ret in Hchanged. cbn [fst] in Hchanged.
    injection Hchanged as <-.
    destruct (search_unpinned_shape _ _ Hs) as (_ & Htext & _ & Hrep).
    rewrite <- Htext, Hrep.
    unfold search in Hs. apply search_from_leftmost in Hs as (a & b & _ & _ & Hm & _ & _).
    destruct (match_here_unpinned _ _ _ Hm) as (repo & tag & _ & Hrepo & Htag & Hg).
    assert (H1 : group m 1 = repo).
    { unfold group. rewrite Hg, lookup_insert_ne, lookup_insert_eq by discriminate.
      reflexivity. }
    assert (H2 : group m 2 = tag).
    { unfold group. rewrite Hg, lookup_insert_eq. reflexivity. }
    rewrite H1, H2. cbn [fmt default].
    unfold is_pinned_action, search.
    destruct (search_from pinned_pattern "" _) eqn:E; [reflexivity|]. exfalso.
    revert E. apply search_from_complete.
    replace ((repo +:+ "@" +:+ h +:+ " # " +:+ tag +:+ rest) +:+ _)
      with ((repo +:+ "@" +:+ h +:+ " " +:+ "#" +:+ " " +:+ tag)
            +:+ (rest +:+ Str.replace (post m) (text m)
                            (repo +:+ "@" +:+ h +:+ " # " +:+ tag +:+ rest))).
    - apply (ReFacts.run_complete pinned_pattern _ (word_pinned _ _ _ Hrepo Hsha Htag)).
      discriminate.
    - rewrite !StrFacts.app_assoc. reflexivity. }
  split; [exact Hpin|].
  unfold process_line at 1. rewrite Hpin. reflexivity.
Qed.

End SecondPass.

(** * Further properties of the script *)

(** ** What a computation keeps *)

Section Preserves.

Context (R : world -> world -> Prop) `{!PreOrder R}.

Lemma preserves_ret {A : Type} (a : A) : preserves R (ret a).
Proof. intros w. reflexivity. Qed.

Lemma preserves_get : preserves R get.
Proof. intros w. reflexivity. Qed.

Lemma preserves_bind {A B : Type} (m : M A) (k : A -> M B) :
  preserves R m -> (forall a, preserves R (k a)) -> preserves R (bind m k).
Proof.
  intros Hm Hk w. rewrite bind_run. etransitivity; [apply Hm | apply Hk].
Qed.

Lemma preserves_for_each {A B : Type} (body : B -> A -> M (outcome B)) (l : list A) :
  (forall b a, preserves R (body b a)) -> forall acc, preserves R (for_each body l acc).
Proof.
  intros Hbody. induction l as [|x l IH]; intros acc; cbn [for_each].
  - apply preserves_ret.
  - apply preserves_bind; [apply Hbody|]. intros [acc'|]; [apply IH | apply preserves_ret].
Qed.

End Preserves.

#[local] Instance cache_kept_preorder : PreOrder cache_kept.
Proof. split; [intros w; reflexivity | intros a b c; unfold cache_kept; congruence]. Qed.

#[local] Instance entries_kept_preorder : PreOrder entries_kept.
Proof.
  split; [intros w; unfold entries_kept; reflexivity|].
  intros a b c; unfold entries_kept. apply transitivity.
Qed.

#[local] Instance keys_kept_preorder : PreOrder keys_kept.
Proof.
  split; [intros w; unfold keys_kept; reflexivity|].
  intros a b c; unfold keys_kept. apply transitivity.
Qed.

#[local] Instance state_kept_preorder : PreOrder state_kept.
Proof.
  split; [intros w; repeat split|].
  intros a b c (? & ? & ? & ? & ?) (? & ? & ? & ? & ?). repeat split; congruence.
Qed.

#[local] Instance cache_file_kept_preorder : PreOrder cache_file_kept.
Proof. split; [intros w; reflexivity | intros a b c; unfold cache_file_kept; congruence]. Qed.

#[local] Instance requests_extend_preorder : PreOrder requests_extend.
Proof.
  split.
  - intros w. exists []. split; [reflexivity|constructor].
  - intros a b c (n1 & H1 & F1) (n2 & H2 & F2). exists (n2 ++ n1)%list. split.
    + rewrite H2, H1, app_assoc. reflexivity.
    + apply Forall_app. split; assumption.
Qed.

Create HintDb kept.

(** Goes through a computation: binds, then the cases of every test. *)
Ltac preserves_tac :=
  repeat first
    [ solve [auto with kept]
    | match goal with
      | |- preserves ?R (ret ?a) => exact (preserves_ret R a)
      | |- preserves ?R get => exact (preserves_get R)
      | |- preserves ?R (bind ?m ?k) => refine (preserves_bind R m k _ _); [|intros ?]
      | |- preserves _ (match ?x with _ => _ end) => destruct x
      | |- preserves _ (if ?x then _ else _) => destruct x
      end ].

(** ** Requests and the cache during a resolution *)

Section ResolutionFacts.

Context (api : remote).

Lemma state_kept_fetch_json {A : Type} (view : string -> option A) url :
  preserves state_kept (fetch_json view url).
Proof. intros w. repeat split. Qed.

Lemma requests_fetch_json {A : Type} (view : string -> option A) rest :
  preserves requests_extend (fetch_json view ("https://api.github.com/repos/" +:+ rest)).
Proof.
  intros w. exists ["https://api.github.com/repos/" +:+ rest]. split; [reflexivity|].
  constructor; [|constructor]. apply StrFacts.startswith_app.
Qed.

Lemma requests_set_cache (f : world -> gmap string details) :
  preserves requests_extend (modify (fun w => set_cache (f w) w)).
Proof. intros w. exists []. split; [reflexivity|constructor]. Qed.

#[local] Hint Resolve state_kept_fetch_json requests_fetch_json requests_set_cache : kept.

Lemma state_kept_get_latest_version repo tag :
  preserves state_kept (get_latest_version api repo tag).
Proof. unfold get_latest_version, get_all_releases. preserves_tac. Qed.

Lemma state_kept_get_tag_sha repo tag : preserves state_kept (get_tag_sha api repo tag).
Proof. unfold get_tag_sha. preserves_tac. Qed.

Lemma state_kept_get_exact_tag_match repo tag :
  preserves state_kept (get_exact_tag_match api repo tag).
Proof. unfold get_exact_tag_match. preserves_tac. Qed.

Lemma state_kept_get_latest_release_tag repo tag :
  preserves state_kept (get_latest_release_tag api repo tag).
Proof. unfold get_latest_release_tag. preserves_tac. Qed.

Lemma requests_get_latest_version repo tag :
  preserves requests_extend (get_latest_version api repo tag).
Proof. unfold get_latest_version, get_all_releases. preserves_tac. Qed.

Lemma requests_get_cached_details repo tag c :
  preserves requests_extend (get_cached_details repo tag c).
Proof. unfold get_cached_details. preserves_tac. Qed.

Lemma requests_fetch_uncached repo tag : preserves requests_extend (fetch_uncached api repo tag).
Proof.
  unfold fetch_uncached, get_tag_sha, get_exact_tag_match, get_latest_release_tag,
    update_cache.
  preserves_tac.
Qed.

#[local] Hint Resolve requests_get_latest_version requests_get_cached_details
  requests_fetch_uncached : kept.

Lemma requests_fetch_tag_details repo tag c :
  preserves requests_extend (fetch_tag_details api repo tag c).
Proof. unfold fetch_tag_details. preserves_tac. Qed.

#[local] Hint Resolve requests_fetch_tag_details : kept.

Lemma requests_process_line line c : preserves requests_extend (process_line api line c).
Proof.
  unfold process_line, process_pinned_action, process_unpinned_action.
  destruct (is_pinned_action line); preserves_tac.
Qed.

End ResolutionFacts.

(** ** The cache after a resolution *)

Section CacheAfter.

Context (api : remote).

(** What [fetch_uncached] returns and does to the cache: nothing found and
    the cache as it was, or a non-empty hash that is stored with its display
    version under the key of the tag. *)
Lemma fetch_uncached_cases repo t w :
  let r := fetch_uncached api repo t w in
  (fst r = (None, None) /\ cache (snd r) = cache w) \/
  (exists h v, h <> "" /\ fst r = (Some h, Some v) /\
     cache (snd r) = <[repo +:+ "@" +:+ t := {| sha := h; full_version := v |}]> (cache w)).
Proof.
  intros r. subst r. unfold fetch_uncached. rewrite bind_run.
  destruct (state_kept_get_tag_sha api repo t w) as (Hc1 & _).
  destruct (get_tag_sha api repo t w) as [o w1]. cbn [fst snd] in *.
  destruct o as [h|]; [|left; auto].
  destruct (String.eqb_spec h "") as [->|Hne]; [left; auto|].
  right. exists h. rewrite bind_run.
  destruct (state_kept_get_exact_tag_match api repo t w1) as (Hc2 & _).
  destruct (get_exact_tag_match api repo t w1) as [fv w2]. cbn [fst snd] in *.
  rewrite bind_run.
  assert (Hc3 : cache (snd ((if String.eqb fv t then get_latest_release_tag api repo t
                             else ret fv) w2)) = cache w2).
  { destruct (String.eqb fv t); [|reflexivity].
    apply (state_kept_get_latest_release_tag api repo t w2). }
  destruct ((if String.eqb fv t then get_latest_release_tag api repo t else ret fv) w2)
    as [fv' w3]. cbn [fst snd] in *.
  exists fv'. split; [assumption|]. split; [reflexivity|].
  unfold update_cache. run_prog. cbn [cache set_cache]. congruence.
Qed.

(** The three ways of a resolution: a cached entry, or the uncached
    resolution of the tag, or in upgrade mode the uncached resolution of the
    target tag after the releases have been asked for. *)
Lemma fetch_tag_details_cases repo tag c w :
  exists w1, state_kept w w1 /\
    ((c = false /\ w1 = w /\ exists d, cache w !! (repo +:+ "@" +:+ tag) = Some d /\
        fetch_tag_details api repo tag c w = ((Some (sha d), Some (full_version d)), w)) \/
     ((c = true \/ cache w !! (repo +:+ "@" +:+ tag) = None) /\
      fetch_tag_details api repo tag c w
      = fetch_uncached api repo (target_of api repo tag c w) w1)).
Proof.
  destruct c.
  - exists (snd (get_latest_version api repo tag w)). split.
    + apply state_kept_get_latest_version.
    + right. split; [auto|]. apply fetch_tag_details_upgrade.
  - exists w. split; [reflexivity|]. rewrite fetch_tag_details_plain.
    destruct (cache w !! _) as [d|] eqn:Hd; [left|right]; eauto 10.
Qed.

Lemma falsy_some h : h <> "" -> Str.falsy (Some h) = false.
Proof. intros Hne. cbn. destruct (String.eqb_spec h ""); congruence. Qed.

(** X1. A resolution that returns no hash ([None] or an empty string)
    leaves the cache as it was: a failure is never cached. *)
Theorem failed_resolution_caches_nothing (repo tag : string) (check_for_updates : bool)
    (w : world) :
  Str.falsy (fst (fst (fetch_tag_details api repo tag check_for_updates w))) = true ->
  cache (snd (fetch_tag_details api repo tag check_for_updates w)) = cache w.
Proof.
  destruct (fetch_tag_details_cases repo tag check_for_updates w)
    as (w1 & (Hc & _) & [(_ & _ & d & _ & ->) | (_ & ->)]); [reflexivity|].
  intros Hf.
  destruct (fetch_uncached_cases repo (target_of api repo tag check_for_updates w) w1)
    as [(_ & Hk) | (h & v & Hne & Hr & _)].
  - congruence.
  - rewrite Hr in Hf. cbn [fst] in Hf. rewrite (falsy_some _ Hne) in Hf. discriminate.
Qed.

(** X2. A resolution that returns a hash is answered from the cache
    afterwards: resolving the tag it looked up, without upgrade, gives the
    same pair and leaves the world, and so the log of requests, as it is. *)
Theorem resolution_is_cached (repo tag : string) (check_for_updates : bool) (w : world)
    (h : string) (v : option string) :
  let r := fetch_tag_details api repo tag check_for_updates w in
  fst r = (Some h, v) ->
  fetch_tag_details api repo (target_of api repo tag check_for_updates w) false (snd r)
  = (fst r, snd r).
Proof.
  intros r Hr. subst r. rewrite fetch_tag_details_plain.
  destruct (fetch_tag_details_cases repo tag check_for_updates w)
    as (w1 & _ & [(-> & _ & d & Hd & E) | (_ & E)]); rewrite E in *; cbn [fst snd].
  - cbn [target_of]. rewrite Hd. reflexivity.
  - destruct (fetch_uncached_cases repo (target_of api repo tag check_for_updates w) w1)
      as [(Hnone & _) | (h' & v' & _ & Hr' & Hk)].
    + congruence.
    + rewrite Hk, lookup_insert_eq. cbn [sha full_version]. rewrite Hr'.
      destruct (fetch_uncached api repo _ w1) as [p w2]. reflexivity.
Qed.

(** No resolution removes a key from the cache. *)
Lemma keys_kept_fetch_tag_details repo tag c :
  preserves keys_kept (fetch_tag_details api repo tag c).
Proof.
  intros w. unfold keys_kept.
  destruct (fetch_tag_details_cases repo tag c w)
    as (w1 & (Hc & _) & [(_ & _ & d & _ & ->) | (_ & ->)]); [reflexivity|].
  destruct (fetch_uncached_cases repo (target_of api repo tag c w) w1)
    as [(_ & ->) | (h & v & _ & _ & ->)]; rewrite Hc; [reflexivity|].
  rewrite dom_insert_L. set_solver.
Qed.

(** Without upgrade no resolution changes an entry of the cache. *)
Lemma entries_kept_fetch_tag_details repo tag :
  preserves entries_kept (fetch_tag_details api repo tag false).
Proof.
  intros w. unfold entries_kept.
  destruct (fetch_tag_details_cases repo tag false w)
    as (w1 & (Hc & _) & [(_ & _ & d & _ & ->) | ([?|Hmiss] & ->)]);
    [reflexivity|discriminate|].
  destruct (fetch_uncached_cases repo (target_of api repo tag false w) w1)
    as [(_ & ->) | (h & v & _ & _ & ->)]; rewrite Hc; [reflexivity|].
  apply insert_subseteq. exact Hmiss.
Qed.

End CacheAfter.

(** ** Counting the requests *)

Lemma costs_ret {A : Type} (a : A) (n : nat) : costs n (ret a).
Proof. intros w. cbn. lia. Qed.

Lemma costs_bind {A B : Type} (n1 n2 n : nat) (m : M A) (k : A -> M B) :
  (n1 + n2 <= n)%nat -> costs n1 m -> (forall a, costs n2 (k a)) -> costs n (bind m k).
Proof.
  intros Hn Hm Hk w. rewrite bind_run.
  specialize (Hm w). specialize (Hk (fst (m w)) (snd (m w))). lia.
Qed.

Lemma costs_state_kept_free {A : Type} (m : M A) (n : nat) :
  (forall w, requests (snd (m w)) = requests w) -> costs n m.
Proof. intros H w. rewrite H. lia. Qed.

Lemma costs_fetch_json {A : Type} (view : string -> option A) url (n : nat) :
  (1 <= n)%nat -> costs n (fetch_json view url).
Proof. intros Hn w. cbn. lia. Qed.

Section RequestCount.

Context (api : remote).

Lemma costs_get_latest_version repo tag : costs 1 (get_latest_version api repo tag).
Proof.
  unfold get_latest_version, get_all_releases.
  destruct (parse_semver tag) as [[] [v|]]; try apply costs_ret.
  apply (costs_bind 1 0); [lia| |intros releases; destruct releases; apply costs_ret].
  apply (costs_bind 1 0); [lia|apply costs_fetch_json; lia|intros; apply costs_ret].
Qed.

Lemma costs_get_tag_sha repo tag : costs 1 (get_tag_sha api repo tag).
Proof.
  unfold get_tag_sha.
  apply (costs_bind 1 0); [lia|apply costs_fetch_json; lia|].
  intros [[[h|]]|]; apply costs_ret.
Qed.

Lemma costs_get_exact_tag_match repo tag : costs 1 (get_exact_tag_match api repo tag).
Proof.
  unfold get_exact_tag_match.
  apply (costs_bind 1 0); [lia|apply costs_fetch_json; lia|].
  intros [[|t ts]|]; try apply costs_ret. destruct (find _ _); apply costs_ret.
Qed.

Lemma costs_get_latest_release_tag repo tag : costs 1 (get_latest_release_tag api repo tag).
Proof.
  unfold get_latest_release_tag. destruct (_ || _); [apply costs_ret|].
  apply (costs_bind 1 0); [lia|apply costs_fetch_json; lia|].
  intros [[[l|]]|]; try apply costs_ret. cbn [latest_tag_name].
  destruct (Str.startswith l tag); apply costs_ret.
Qed.

Lemma costs_fetch_uncached repo tag : costs 3 (fetch_uncached api repo tag).
Proof.
  unfold fetch_uncached.
  apply (costs_bind 1 2); [lia|apply costs_get_tag_sha|].
  intros [h|]; [|apply costs_ret]. destruct (String.eqb h ""); [apply costs_ret|].
  apply (costs_bind 1 1); [lia|apply costs_get_exact_tag_match|]. intros fv.
  apply (costs_bind 1 0); [lia| |].
  - destruct (String.eqb fv tag); [apply costs_get_latest_release_tag|apply costs_ret].
  - intros fv'. apply (costs_bind 0 0); [lia| |intros; apply costs_ret].
    unfold update_cache. intros w. cbn. lia.
Qed.

Lemma costs_get_cached_details repo tag c : costs 0 (get_cached_details repo tag c).
Proof. intros w. rewrite get_cached_details_world. lia. Qed.

Lemma costs_fetch_tag_details repo tag (c : bool) :
  costs (if c then 4 else 3) (fetch_tag_details api repo tag c).
Proof.
  unfold fetch_tag_details.
  apply (costs_bind 0 (if c then 4 else 3)); [lia|apply costs_get_cached_details|].
  intros [d|]; [apply costs_ret|]. destruct c; cbn [negb]; [|apply costs_fetch_uncached].
  apply (costs_bind 1 3); [lia|apply costs_get_latest_version|]. intros latest_tag.
  destruct (String.eqb latest_tag tag); cbn [negb]; [apply costs_fetch_uncached|].
  apply (costs_bind 0 3); [lia|apply costs_get_cached_details|].
  intros [d|]; [apply costs_ret|apply costs_fetch_uncached].
Qed.

Lemma costs_process_line line (c : bool) : costs (if c then 4 else 3) (process_line api line c).
Proof.
  unfold process_line, process_pinned_action, process_unpinned_action.
  destruct (is_pinned_action line).
  - destruct c; cbn [negb]; [|apply costs_ret].
    destruct (Re.search pinned_pattern line); [|apply costs_ret].
    apply (costs_bind 4 0); [lia|apply (costs_fetch_tag_details _ _ true)|].
    intros [s v]. destruct (_ || _); [apply costs_ret|].
    destruct (Re.sub _ _ _); apply costs_ret.
  - destruct (Re.search unpinned_pattern line); [|apply costs_ret].
    apply (costs_bind (if c then 4 else 3) 0); [lia|apply costs_fetch_tag_details|].
    intros [s v]. destruct (Str.falsy s); apply costs_ret.
Qed.

(** X3. Processing a line makes at most three requests, four in upgrade
    mode, and each goes to a URL under [https://api.github.com/repos/]. *)
Theorem requests_of_a_line (line : string) (check_for_updates : bool) (w : world) :
  let w' := snd (process_line api line check_for_updates w) in
  (exists new, requests w' = (new ++ requests w)%list /\
               Forall (fun u => api_url u = true) new) /\
  (length (requests w') <= length (requests w) + (if check_for_updates then 4 else 3))%nat.
Proof.
  split; [apply requests_process_line | apply costs_process_line].
Qed.

End RequestCount.

(** ** What processing a file keeps *)

Section FileKeeps.

Context (api : remote).

Lemma lines_world_preserves (R : world -> world -> Prop) `{!PreOrder R} c :
  (forall line, preserves R (process_line api line c)) ->
  forall lines w, R w (lines_world api c lines w).
Proof.
  intros Hline. induction lines as [|line rest IH]; intros w; cbn [lines_world].
  - reflexivity.
  - pose proof (Hline line w) as H.
    destruct (process_line api line c w) as [[r|] w']; cbn [snd] in H; [|exact H].
    etransitivity; [exact H | apply IH].
Qed.

#[local] Hint Resolve keys_kept_fetch_tag_details entries_kept_fetch_tag_details : kept.

Lemma keys_kept_process_line line c : preserves keys_kept (process_line api line c).
Proof.
  unfold process_line, process_pinned_action, process_unpinned_action.
  destruct (is_pinned_action line); preserves_tac.
Qed.

Lemma entries_kept_process_line line : preserves entries_kept (process_line api line false).
Proof.
  unfold process_line, process_pinned_action, process_unpinned_action.
  destruct (is_pinned_action line); cbn [negb]; preserves_tac.
Qed.

(** The cache file is not touched by a resolution. *)
Lemma cache_file_kept_process_line line c :
  preserves cache_file_kept (process_line api line c).
Proof.
  assert (Hj : forall A (view : string -> option A) url,
             preserves cache_file_kept (fetch_json view url)) by (intros A v u w; reflexivity).
  assert (Hu : forall repo tag h v, preserves cache_file_kept (update_cache repo tag h v))
    by (intros repo tag h v w; reflexivity).
  assert (Hf : forall repo tag c', preserves cache_file_kept (fetch_tag_details api repo tag c')).
  { intros repo tag c'.
    unfold fetch_tag_details, fetch_uncached, get_cached_details, get_latest_version,
      get_all_releases, get_tag_sha, get_exact_tag_match, get_latest_release_tag.
    preserves_tac. }
  unfold process_line, process_pinned_action, process_unpinned_action.
  destruct (is_pinned_action line); preserves_tac.
Qed.

(** The world after [process_workflow_file]: the one the lines left, with
    the file written when no line has raised, a line has changed and the
    path can be written. *)
Lemma process_workflow_file_world file_path c w content :
  files w !! file_path = Some content ->
  let results := line_results api c (Str.splitlines content) w in
  let w1 := lines_world api c (Str.splitlines content) w in
  snd (process_workflow_file api file_path c w)
  = if negb (lines_raise api c (Str.splitlines content) w) && existsb snd results
       && negb (bool_decide (file_path ∈ readonly w1))
    then write_file file_path (Str.join (String Str.LF "") (map fst results)) w1
    else w1.
Proof.
  intros Hread results w1. rewrite (process_workflow_file_run _ _ _ _ _ Hread).
  fold results. fold w1. destruct (lines_raise _ _ _ _); [reflexivity|].
  destruct (existsb snd results); [|reflexivity]. cbn [snd negb andb].
  unfold write_text. run_prog. destruct (bool_decide _); reflexivity.
Qed.

(** X4. Processing a file never removes a key from the cache, and without
    upgrade it never changes an entry that is there. *)
Theorem processing_keeps_cache_entries (file_path : string) (check_for_updates : bool)
    (w : world) :
  let w' := snd (process_workflow_file api file_path check_for_updates w) in
  dom (cache w) ⊆ dom (cache w') /\
  (check_for_updates = false -> cache w ⊆ cache w').
Proof.
  intros w'. subst w'.
  destruct (files w !! file_path) as [content|] eqn:Hread.
  - rewrite (process_workflow_file_world _ _ _ _ Hread).
    assert (E : forall (p : bool) s w1,
               cache (if p then write_file file_path s w1 else w1) = cache w1)
      by (intros [] ? ?; reflexivity).
    rewrite E. split.
    + apply (lines_world_preserves keys_kept check_for_updates
               (fun line => keys_kept_process_line line check_for_updates)).
    + intros ->. apply (lines_world_preserves entries_kept false entries_kept_process_line).
  - unfold process_workflow_file. run_prog. rewrite Hread. split; [reflexivity|].
    intros _. reflexivity.
Qed.

(** X5. Processing a file leaves every other file as it is and makes at
    most one write, to the file itself; the read-only paths and the cache
    file stay. A file that cannot be read leaves the whole world as it is,
    and a file that cannot be opened for writing keeps its content. *)
Theorem only_the_processed_file_changes (file_path : string) (check_for_updates : bool)
    (w : world) :
  let w' := snd (process_workflow_file api file_path check_for_updates w) in
  (forall other, other <> file_path -> files w' !! other = files w !! other) /\
  ((writes w' = writes w /\ files w' = files w) \/
   (exists content, writes w' = (file_path, content) :: writes w /\
                    files w' = <[file_path := content]> (files w))) /\
  readonly w' = readonly w /\ cache_file w' = cache_file w /\
  (files w !! file_path = None -> w' = w) /\
  (file_path ∈ readonly w -> files w' = files w /\ writes w' = writes w).
Proof.
  intros w'. subst w'.
  destruct (files w !! file_path) as [content|] eqn:Hread.
  - rewrite (process_workflow_file_world _ _ _ _ Hread).
    destruct (same_disk_lines_world api check_for_updates (Str.splitlines content) w)
      as (Hf & Hw & Hr).
    pose proof (lines_world_preserves cache_file_kept check_for_updates
                  (fun line => cache_file_kept_process_line line check_for_updates)
                  (Str.splitlines content) w) as Hc.
    unfold cache_file_kept in Hc.
    set (w1 := lines_world api check_for_updates (Str.splitlines content) w) in *.
    destruct (negb (lines_raise _ _ _ _) && existsb snd _); cbn [andb].
    + destruct (bool_decide_reflect (file_path ∈ readonly w1)) as [Hin|Hout]; cbn [negb].
      * repeat split; try congruence. left. auto.
      * cbn [write_file files writes readonly cache_file]. repeat split; try congruence.
        -- intros other Hne. rewrite lookup_insert_ne by congruence. congruence.
        -- right. eexists. rewrite Hf, Hw. split; reflexivity.
    + repeat split; try congruence. left. auto.
  - unfold process_workflow_file. run_prog. rewrite Hread. cbn [snd].
    repeat split; auto.
Qed.

End FileKeeps.

(** ** Requests of a file, and a file when the API gives no hash *)

Section FileRequests.

Context (api : remote).

Lemma costs_lines_world (c : bool) lines : forall w,
  (length (requests (lines_world api c lines w))
   <= length (requests w) + (if c then 4 else 3) * length lines)%nat.
Proof.
  induction lines as [|line rest IH]; intros w; cbn [lines_world length].
  - lia.
  - specialize (IH (snd (process_line api line c w))).
    pose proof (costs_process_line api line c w) as H.
    destruct (process_line api line c w) as [[r|] w']; cbn [snd] in *; lia.
Qed.

(** X6. Processing a file that can be read makes at most three requests
    for each of its lines, four in upgrade mode, all of them to URLs under
    [https://api.github.com/repos/]. *)
Theorem requests_of_a_file (file_path : string) (check_for_updates : bool) (w : world)
    (content : string) :
  files w !! file_path = Some content ->
  let w' := snd (process_workflow_file api file_path check_for_updates w) in
  (exists new, requests w' = (new ++ requests w)%list /\
               Forall (fun u => api_url u = true) new) /\
  (length (requests w')
   <= length (requests w)
      + (if check_for_updates then 4 else 3) * length (Str.splitlines content))%nat.
Proof.
  intros Hread w'. subst w'. rewrite (process_workflow_file_world _ _ _ _ _ Hread).
  assert (E : forall (p : bool) s w1,
             requests (if p then write_file file_path s w1 else w1) = requests w1)
    by (intros [] ? ?; reflexivity).
  rewrite E. split.
  - apply (lines_world_preserves api requests_extend check_for_updates
             (fun line => requests_process_line api line check_for_updates)).
  - apply costs_lines_world.
Qed.

(** When no tag reference is found, a line comes back as it is and the
    cache stays, in upgrade mode or from an empty cache. *)
Lemma line_without_reference line (c : bool) w :
  (forall url, ref_at api url = None) ->
  c = true \/ cache w = ∅ ->
  fst (process_line api line c w) = Value (line, false) /\
  cache (snd (process_line api line c w)) = cache w.
Proof.
  intros Href Hc.
  assert (Hres : forall repo tag c', (c' = true \/ cache w = ∅) ->
             fst (fetch_tag_details api repo tag c' w) = (None, None) /\
             cache (snd (fetch_tag_details api repo tag c' w)) = cache w).
  { intros repo tag c' Hc'.
    destruct (fetch_tag_details_cases api repo tag c' w)
      as (w1 & (Hk & _) & [(-> & _ & d & Hd & _) | (_ & ->)]).
    - destruct Hc' as [?|He]; [discriminate|]. rewrite He, lookup_empty in Hd. discriminate.
    - rewrite missing_reference_yields_null by (left; apply Href). cbn. auto. }
  unfold process_line. destruct (is_pinned_action line).
  - unfold process_pinned_action. destruct c; cbn [negb]; [|auto].
    destruct (Re.search pinned_pattern line) as [m|]; [|auto].
    rewrite bind_run. destruct (Hres (Re.group m 1) (Re.group m 3) true (or_introl eq_refl))
      as [Hv Hk].
    destruct (fetch_tag_details api _ _ true w) as [[s v] w']. cbn [fst snd] in *.
    injection Hv as -> ->. auto.
  - unfold process_unpinned_action.
    destruct (Re.search unpinned_pattern line) as [m|]; [|auto].
    rewrite bind_run. destruct (Hres (Re.group m 1) (Re.group m 2) c Hc) as [Hv Hk].
    destruct (fetch_tag_details api _ _ c w) as [[s v] w']. cbn [fst snd] in *.
    injection Hv as -> ->. auto.
Qed.

Lemma lines_without_reference (c : bool) lines : forall w,
  (forall url, ref_at api url = None) ->
  c = true \/ cache w = ∅ ->
  existsb snd (line_results api c lines w) = false /\
  cache (lines_world api c lines w) = cache w.
Proof.
  induction lines as [|line rest IH]; intros w Href Hc; cbn [line_results lines_world].
  - auto.
  - destruct (line_without_reference line c w Href Hc) as [Hv Hk].
    destruct (process_line api line c w) as [[[l b]|] w1]; cbn [fst snd] in *;
      [|discriminate Hv].
    injection Hv as -> ->.
    destruct (IH w1 Href) as [Hno Hk'].
    { destruct Hc as [?|He]; [auto|right; congruence]. }
    cbn [existsb snd orb]. split; [exact Hno|congruence].
Qed.

(** X7. When the API finds no tag reference at all (it cannot be reached,
    say), processing a file in upgrade mode, or from an empty cache, writes
    nothing: the files, the writes made and the cache are as before. *)
Theorem unreachable_api_changes_nothing (file_path : string) (check_for_updates : bool)
    (w : world) :
  (forall url, ref_at api url = None) ->
  check_for_updates = true \/ cache w = ∅ ->
  let w' := snd (process_workflow_file api file_path check_for_updates w) in
  files w' = files w /\ writes w' = writes w /\ cache w' = cache w.
Proof.
  intros Href Hc w'. subst w'.
  destruct (files w !! file_path) as [content|] eqn:Hread.
  - rewrite (process_workflow_file_world _ _ _ _ _ Hread).
    destruct (lines_without_reference check_for_updates (Str.splitlines content) w Href Hc)
      as [-> Hk].
    rewrite andb_false_r. cbn [andb].
    destruct (same_disk_lines_world api check_for_updates (Str.splitlines content) w)
      as (Hf & Hw & _).
    auto.
  - unfold process_workflow_file. run_prog. rewrite Hread. auto.
Qed.

End FileRequests.

Lemma requests_of_a_file_witness :
  let w := fresh Missing Scenario.workflow ∅ in
  (length (requests (snd (process_workflow_file Scenario.checkout_v4 "ci.yml" false w)))
   <= 0 + 3 * 2)%nat.
Proof.
  apply (proj2 (requests_of_a_file Scenario.checkout_v4 "ci.yml" false
                  (fresh Missing Scenario.workflow ∅)
                  (file_text Scenario.workflow_rows "") eq_refl)).
Defined.

Lemma unreachable_api_changes_nothing_witness :
  let w := fresh Missing Scenario.workflow ∅ in
  let w' := snd (process_workflow_file Scenario.offline "ci.yml" true w) in
  files w' = Scenario.workflow /\ writes w' = [] /\ cache w' = ∅.
Proof.
  apply (unreachable_api_changes_nothing Scenario.offline "ci.yml" true
           (fresh Missing Scenario.workflow ∅)).
  - intros url. reflexivity.
  - left. reflexivity.
Defined.

(** ** Lines without a reference, and the version in the comment *)

Section LineShapes.

Context (api : remote).

Import Re.

(** The text of a match of the pinned pattern, part by part. *)
Lemma word_pinned_inv x :
  word pinned_pattern x ->
  exists repo h s1 s2 v,
    x = repo +:+ "@" +:+ h +:+ s1 +:+ "#" +:+ s2 +:+ v /\
    word owner_repo repo /\ word spaces s2 /\ word v_version v.
Proof.
  unfold pinned_pattern. intros H.
  apply word_cat_inv in H as (repo & x1 & -> & Hrepo%word_grp_inv & H).
  apply word_cat_inv in H as (at_ & x2 & -> & ->%word_chr_inv & H).
  apply word_cat_inv in H as (h & x3 & -> & _ & H).
  apply word_cat_inv in H as (s1 & x4 & -> & _ & H).
  apply word_cat_inv in H as (hash & x5 & -> & ->%word_chr_inv & H).
  apply word_cat_inv in H as (s2 & v & -> & Hs2 & Hv%word_grp_inv).
  exists repo, h, s1, s2, v. auto.
Qed.

Lemma no_at_app (a b : string) : no_at (a +:+ "@" +:+ b) = false.
Proof.
  unfold no_at. induction a as [|c a IH]; [reflexivity|].
  rewrite StrFacts.app_cons. cbn [Str.all]. rewrite IH. apply andb_false_r.
Qed.

(** A line that a pattern of the script matches has an [@]. *)
Lemma search_needs_at line :
  no_at line = true ->
  search pinned_pattern line = None /\ search unpinned_pattern line = None.
Proof.
  intros Hno. split.
  - destruct (search pinned_pattern line) as [m|] eqn:Hs; [exfalso|reflexivity].
    unfold search in Hs. apply search_from_leftmost in Hs as (a & b & -> & _ & Hm & _ & _).
    unfold match_here in Hm.
    apply ReFacts.run_sound in Hm as (x & s1 & g1 & -> & Hx & _); [|reflexivity].
    apply word_pinned_inv in Hx as (repo & h & s1' & s2 & v & -> & _).
    rewrite !StrFacts.app_assoc, <- (StrFacts.app_assoc a repo), no_at_app in Hno.
    discriminate.
  - destruct (search unpinned_pattern line) as [m|] eqn:Hs; [exfalso|reflexivity].
    destruct (search_unpinned_shape _ _ Hs) as (Hl & Ht & _).
    rewrite Hl, Ht in Hno.
    rewrite !StrFacts.app_assoc, <- (StrFacts.app_assoc (pre m)), no_at_app in Hno.
    discriminate.
Qed.

(** X8. A line without [@] comes back as it is, reported unchanged, and
    the world is as before: no request is made for it. *)
Theorem line_without_at_untouched (line : string) (check_for_updates : bool) (w : world) :
  no_at line = true ->
  process_line api line check_for_updates w = (Value (line, false), w).
Proof.
  intros Hno. destruct (search_needs_at line Hno) as [Hp Hu].
  unfold process_line, is_pinned_action. rewrite Hp.
  unfold process_unpinned_action. rewrite Hu. reflexivity.
Qed.

(** The match of the comment pattern at the beginning of a text. *)
Lemma match_here_comment b rest g :
  match_here comment_pattern b = Some (rest, g) ->
  exists v, word v_version v /\ g = <[1 := v]> ∅.
Proof.
  unfold match_here, comment_pattern. rewrite ReFacts.run_cat. intros H.
  apply ReFacts.run_chr in H as (s1 & -> & H). rewrite ReFacts.run_cat in H.
  apply ReFacts.run_sound in H as (x & s2 & g2 & -> & _ & H & Hg); [|reflexivity].
  rewrite (Hg eq_refl), ReFacts.run_grp in H.
  apply ReFacts.run_sound in H as (v & s3 & g3 & -> & Hv & H & Hg3); [|reflexivity].
  rewrite (Hg3 eq_refl), StrFacts.take_consumed in H. injection H as <- <-.
  exists v. auto.
Qed.

(** X9. On a line that matches the pinned pattern, [extract_comment_version]
    finds a version, and whatever it finds on any line is a word of the
    version part: [v], digits, and further groups of a dot and digits. *)
Theorem pinned_line_has_comment_version (line : string) :
  (is_pinned_action line = true -> extract_comment_version line <> None) /\
  (forall v, extract_comment_version line = Some v -> word v_version v).
Proof.
  unfold extract_comment_version. split.
  - unfold is_pinned_action.
    destruct (search pinned_pattern line) as [m|] eqn:Hs; [intros _|discriminate].
    unfold search in Hs. apply search_from_leftmost in Hs as (a & b & -> & _ & Hm & _ & _).
    unfold match_here in Hm.
    apply ReFacts.run_sound in Hm as (x & rest & g1 & -> & Hx & _); [|reflexivity].
    apply word_pinned_inv in Hx as (repo & h & s1 & s2 & v & -> & _ & Hs2 & Hv).
    assert (Hfound : search comment_pattern
                       ((a +:+ repo +:+ "@" +:+ h +:+ s1) +:+ ("#" +:+ s2 +:+ v) +:+ rest)
                     <> None).
    { apply search_from_complete.
      apply (ReFacts.run_complete comment_pattern ("#" +:+ s2 +:+ v)); [|discriminate].
      unfold comment_pattern.
      apply (word_cat _ _ "#"); [apply word_cls; reflexivity|].
      apply word_cat; [exact Hs2 | apply word_grp, Hv]. }
    rewrite !StrFacts.app_assoc in *.
    destruct (search comment_pattern _); [discriminate|congruence].
  - intros v. destruct (search comment_pattern line) as [m|] eqn:Hs; [|discriminate].
    intros [= <-]. unfold search in Hs.
    apply search_from_leftmost in Hs as (a & b & _ & _ & Hm & _ & _).
    apply match_here_comment in Hm as (v & Hv & Hg).
    unfold group. rewrite Hg, lookup_insert_eq. exact Hv.
Qed.

End LineShapes.

Lemma line_without_at_untouched_witness :
  process_line Scenario.checkout_v4 "    runs-on: ubuntu-latest  # v4" true Scenario.start
  = (Value ("    runs-on: ubuntu-latest  # v4", false), Scenario.start).
Proof.
  apply (line_without_at_untouched Scenario.checkout_v4). vm_compute. reflexivity.
Defined.

(** ** Saving and loading the cache *)

(** X10. What [save_cache] writes, [load_cache] reads back: after a save at
    time [now] that goes through, a load at time [now'] gives the saved
    cache when less than 24 hours have passed and leaves the in-memory cache
    alone otherwise. After a save that breaks off, a load leaves the
    in-memory cache alone; a save that cannot open the file leaves the file
    as it was. *)
Theorem save_then_load (now now' : Z) (outcome : write_outcome) (w w0 : world) :
  cache_file w0 = cache_file (snd (save_cache now outcome w)) ->
  match outcome with
  | Written =>
      cache (snd (load_cache now' w0))
      = if (24 * HOURS <=? now' - now)%Z then cache w0 else cache w
  | Broken => cache (snd (load_cache now' w0)) = cache w0
  | NotOpened => cache_file w0 = cache_file w
  end.
Proof.
  unfold save_cache, load_cache. run_prog. destruct outcome; cbn; intros ->; cbn.
  - destruct (24 * HOURS <=? now' - now)%Z; reflexivity.
  - reflexivity.
  - reflexivity.
Qed.

Lemma save_then_load_witness :
  let saved := snd (save_cache 0 Written (set_cache Scenario.warm_cache Scenario.start)) in
  cache (snd (load_cache (23 * HOURS) (fresh (cache_file saved) ∅ ∅))) = Scenario.warm_cache.
Proof.
  apply (save_then_load 0 (23 * HOURS) Written
           (set_cache Scenario.warm_cache Scenario.start)
           (fresh (cache_file (snd (save_cache 0 Written
                                      (set_cache Scenario.warm_cache Scenario.start)))) ∅ ∅)).
  reflexivity.
Defined.

(** ** The target tag of an upgrade *)

Section TargetFacts.

Context (api : remote).

Lemma same_major_version_parse major_version tag p :
  same_major_version major_version tag = Some p ->
  parse_semver tag = (true, Some p) /\ Semver.major p = major_version.
Proof.
  unfold same_major_version. rewrite parse_semver_strip.
  destruct (Semver.parse (strip_v tag)) as [q|]; [|discriminate].
  destruct (N.eqb_spec (Semver.major q) major_version); [|discriminate].
  intros [= <-]. auto.
Qed.

(** The value of [get_latest_version] does not depend on the world. *)
Lemma get_latest_version_unparsed repo tag w :
  parse_semver tag = (false, None) -> fst (get_latest_version api repo tag w) = tag.
Proof. intros Hp. unfold get_latest_version. rewrite Hp. reflexivity. Qed.

Lemma parse_semver_cases tag :
  parse_semver tag = (false, None) \/ exists v, parse_semver tag = (true, Some v).
Proof.
  rewrite parse_semver_strip. destruct (Semver.parse (strip_v tag)); eauto.
Qed.

(** Once a release has been chosen, the loop only goes from chosen release
    to chosen release. *)
Lemma fold_chosen major_version releases : forall t p,
  snd (fold_left (latest_step major_version) releases (t, Some p)) <> None.
Proof.
  induction releases as [|r rs IH]; intros t p; cbn [fold_left]; [discriminate|].
  rewrite latest_step_same_major. cbn [snd].
  destruct (same_major_version major_version (tag_name r)) as [q|]; [|apply IH].
  destruct (Semver.gt q p); apply IH.
Qed.

(** The tag the loop starts from matters only when no release is chosen. *)
Lemma fold_initial_tag major_version releases : forall t0 t1,
  (fold_left (latest_step major_version) releases (t0, None) = (t0, None) /\
   fold_left (latest_step major_version) releases (t1, None) = (t1, None)) \/
  (fold_left (latest_step major_version) releases (t0, None)
   = fold_left (latest_step major_version) releases (t1, None)).
Proof.
  induction releases as [|r rs IH]; intros t0 t1; cbn [fold_left]; [left; auto|].
  rewrite !latest_step_same_major. cbn [snd].
  destruct (same_major_version major_version (tag_name r)) as [q|]; [right; reflexivity|].
  apply IH.
Qed.

(** The target tag of a tag that parses: it parses too, with the same major
    number, and it is the tag itself or the tag of a release that no release
    of this major number exceeds. *)
Lemma target_parses repo tag w v :
  parse_semver tag = (true, Some v) ->
  let target := fst (get_latest_version api repo tag w) in
  exists v', parse_semver target = (true, Some v') /\ Semver.major v' = Semver.major v /\
    (target = tag \/
     forall r' p', In r' (releases_of api repo) ->
       same_major_version (Semver.major v) (tag_name r') = Some p' ->
       Semver.gt p' v' = false) /\
    ((exists r, In r (releases_of api repo) /\
                same_major_version (Semver.major v) (tag_name r) <> None) ->
     forall r' p', In r' (releases_of api repo) ->
       same_major_version (Semver.major v) (tag_name r') = Some p' ->
       Semver.gt p' v' = false).
Proof.
  intros Hp target. subst target. rewrite (get_latest_version_value _ _ _ _ _ Hp).
  pose proof (loop_invariant_fold (Semver.major v) tag (releases_of api repo) []
                (tag, None)) as Hinv.
  cbn [app] in Hinv.
  destruct Hinv as [[-> Hnone] | (r & p & Hin & -> & Hr & Hmax)].
  - left. split; [reflexivity | intros r []].
  - exists v. cbn [fst]. repeat split; auto.
    intros (r & Hin & Hr). elim Hr. auto.
  - apply same_major_version_parse in Hr as [Hpr Hmaj].
    exists p. cbn [fst]. repeat split; auto.
Qed.

(** X11. When the tag itself is among the releases listed, the target tag
    is not a lower version: the version of the tag does not exceed it. *)
Theorem no_downgrade_when_listed (repo tag : string) (w : world) (v : Semver.VersionInfo) :
  parse_semver tag = (true, Some v) ->
  In {| tag_name := tag |} (releases_of api repo) ->
  exists v', parse_semver (fst (get_latest_version api repo tag w)) = (true, Some v') /\
             Semver.gt v v' = false.
Proof.
  intros Hp Hin. destruct (target_parses repo tag w v Hp) as (v' & H1 & _ & _ & Hmax).
  exists v'. split; [exact H1|].
  assert (Hself : same_major_version (Semver.major v) tag = Some v).
  { unfold same_major_version. rewrite parse_semver_strip in Hp.
    destruct (Semver.parse (strip_v tag)) as [q|]; [|discriminate].
    injection Hp as ->. rewrite N.eqb_refl. reflexivity. }
  assert (Hsome : same_major_version (Semver.major v) (tag_name {| tag_name := tag |})
                  <> None).
  { cbn [tag_name]. rewrite Hself. discriminate. }
  apply (Hmax (ex_intro _ {| tag_name := tag |} (conj Hin Hsome))
              {| tag_name := tag |} v Hin Hself).
Qed.

(** X12. The target tag is stable: asking for the target tag of a target
    tag gives it back, whatever the world. *)
Theorem upgrade_is_stable (repo tag : string) (w w' : world) :
  fst (get_latest_version api repo (fst (get_latest_version api repo tag w)) w')
  = fst (get_latest_version api repo tag w).
Proof.
  destruct (parse_semver_cases tag) as [Hp | [v Hp]].
  - rewrite (get_latest_version_unparsed repo tag w Hp).
    apply get_latest_version_unparsed, Hp.
  - destruct (target_parses repo tag w v Hp) as (v' & Hp' & Hmaj & _).
    rewrite (get_latest_version_value _ _ _ _ _ Hp'), Hmaj.
    rewrite (get_latest_version_value _ _ _ _ _ Hp).
    destruct (fold_initial_tag (Semver.major v) (releases_of api repo) tag
                (fst (fold_left (latest_step (Semver.major v)) (releases_of api repo)
                        (tag, None)))) as [[H0 H1] | E].
    + rewrite H1. reflexivity.
    + rewrite <- E. reflexivity.
Qed.

End TargetFacts.

Lemma no_downgrade_when_listed_witness :
  exists v', parse_semver (fst (get_latest_version Scenario.releases_only
                                  "actions/checkout" "v4.1.0" Scenario.start))
             = (true, Some v') /\ Semver.gt Scenario.v4_1_0 v' = false.
Proof.
  apply (no_downgrade_when_listed Scenario.releases_only "actions/checkout" "v4.1.0"
           Scenario.start Scenario.v4_1_0).
  - vm_compute. reflexivity.
  - vm_compute. left. reflexivity.
Defined.

(** ** The leading v of a version *)

Lemma parse_rejects_v (rest : string) : Semver.parse (String "v" rest) = None.
Proof. reflexivity. Qed.

(** X13. [parse_semver] reads a version with and without a leading [v]
    alike: for a string that the semantic version parser accepts, putting a
    [v] in front changes nothing. *)
Theorem parse_semver_ignores_v (version : string) (parsed : Semver.VersionInfo) :
  Semver.parse version = Some parsed ->
  parse_semver ("v" +:+ version) = (true, Some parsed) /\
  parse_semver version = (true, Some parsed).
Proof.
  intros Hp.
  assert (Hv : Str.startswith version "v" = false).
  { destruct version as [|c rest]; [reflexivity|].
    destruct (Ascii.eqb_spec c "v") as [->|Hne].
    - rewrite parse_rejects_v in Hp. discriminate.
    - unfold Str.startswith. cbn [String.prefix].
      destruct (ascii_dec "v" c); [congruence|reflexivity]. }
  rewrite !parse_semver_strip. unfold strip_v.
  rewrite Hv, (StrFacts.startswith_app "v" version).
  rewrite StrFacts.app_cons, StrFacts.app_nil_l. cbn [Str.drop].
  rewrite Hp. auto.
Qed.

Lemma parse_semver_ignores_v_witness :
  parse_semver ("v" +:+ "4.1.0") = (true, Some Scenario.v4_1_0) /\
  parse_semver "4.1.0" = (true, Some Scenario.v4_1_0).
Proof.
  apply (parse_semver_ignores_v "4.1.0" Scenario.v4_1_0). vm_compute. reflexivity.
Defined.

(** ** The whole run *)

#[local] Instance writes_within_preorder paths : PreOrder (writes_within paths).
Proof.
  split.
  - intros w. split; [exists []; split; [reflexivity | constructor] | auto].
  - intros w1 w2 w3 ((n1 & E1 & F1) & K1 & R1) ((n2 & E2 & F2) & K2 & R2). split.
    + exists (n2 ++ n1)%list. split.
      * rewrite E2, E1. apply app_assoc.
      * apply Forall_app; auto.
    + split; [|congruence]. intros path Hout. rewrite K2, K1; auto.
Qed.

Section WholeRun.

Context (api : remote).

(** What holds of every line and of a write to the file holds of the file. *)
Lemma process_workflow_file_preserves (R : world -> world -> Prop) `{!PreOrder R}
    file_path c :
  (forall line, preserves R (process_line api line c)) ->
  (forall content w, R w (write_file file_path content w)) ->
  preserves R (process_workflow_file api file_path c).
Proof.
  intros Hline Hwrite w.
  destruct (files w !! file_path) as [content|] eqn:Hread.
  - rewrite (process_workflow_file_world _ _ _ _ _ Hread).
    etransitivity; [apply (lines_world_preserves api R c Hline (Str.splitlines content) w)|].
    destruct (_ && _); [apply Hwrite | reflexivity].
  - unfold process_workflow_file. run_prog. rewrite Hread. reflexivity.
Qed.

(** What holds of every file processed and of saving the cache holds of
    the run from the search for the workflow files on. *)
Lemma process_all_preserves (R : world -> world -> Prop) `{!PreOrder R} args sys now_save :
  (dry_run args = false ->
   forall file_path, In file_path (found_files (discovered sys)) ->
     preserves R (process_workflow_file api file_path (upgrade args))) ->
  (forall f w, R w (set_cache_file f w)) ->
  preserves R (process_all api args sys now_save).
Proof.
  intros Hfile Hsave. unfold process_all.
  destruct (discovered sys) as [| |workflow_files]; try (intros w; reflexivity).
  cbn [found_files] in Hfile.
  destruct workflow_files as [|file rest]; [intros w; reflexivity|].
  set (all := file :: rest) in *. clearbody all.
  refine (preserves_bind R _ _ _ _); [|intros [[]|]].
  - assert (Hloop : forall l, (forall p, In p l -> In p all) -> forall (u : unit),
              preserves R (for_each (fun (_ : unit) file_path =>
                             if dry_run args then ret (Value tt)
                             else process_workflow_file api file_path (upgrade args)) l u)).
    { induction l as [|p l IH]; intros Hin u; cbn [for_each].
      - exact (preserves_ret R (Value u)).
      - refine (preserves_bind R _ _ _ _).
        + destruct (dry_run args) eqn:Hdry.
          * exact (preserves_ret R (Value tt)).
          * apply Hfile; [reflexivity|]. apply Hin. now left.
        + intros [u'|]; [|exact (preserves_ret R Exception)].
          apply IH. intros q Hq. apply Hin. now right. }
    apply Hloop. auto.
  - refine (preserves_bind R _ _ _ _); [|intros _; exact (preserves_ret R Returned)].
    unfold save_cache. intros w. run_prog. destruct (saving sys); cbn [snd].
    + apply Hsave.
    + reflexivity.
    + apply Hsave.
  - exact (preserves_ret R Returned).
Qed.

(** The world after [main]: the cache file removed or the cache loaded,
    and then the run from the search on. *)
Lemma main_run args sys now_load now_save w :
  main api args sys now_load now_save w
  = if clear_cache args && cache_file_exists w then
      if removable sys then process_all api args sys now_save (set_cache_file Missing w)
      else (Raised, w)
    else process_all api args sys now_save (snd (load_cache now_load w)).
Proof.
  unfold main. run_prog. destruct (clear_cache args && cache_file_exists w).
  - destruct (removable sys); reflexivity.
  - destruct (load_cache now_load w) as [[] w1]. reflexivity.
Qed.

Lemma load_cache_state now w :
  let w1 := snd (load_cache now w) in
  requests w1 = requests w /\ files w1 = files w /\ writes w1 = writes w /\
  readonly w1 = readonly w /\ cache_file w1 = cache_file w.
Proof.
  unfold load_cache. run_prog.
  destruct (cache_file w) as [| |d] eqn:Hfile; cbn; auto.
  destruct (timestamp d) as [[t|]|]; cbn; auto.
  destruct (24 * HOURS <=? now - t)%Z; cbn; auto.
Qed.

(** Without upgrade [process_line] returns: [re.sub] is not reached. *)
Lemma process_line_returns line w :
  exists r, fst (process_line api line false w) = Value r.
Proof.
  unfold process_line. destruct (is_pinned_action line).
  - unfold process_pinned_action. cbn [negb]. eexists. reflexivity.
  - unfold process_unpinned_action.
    destruct (Re.search unpinned_pattern line) as [m|]; [|eexists; reflexivity].
    rewrite bind_run. destruct (fetch_tag_details api _ _ false w) as [[s v] w'].
    cbn [fst snd]. destruct (Str.falsy s); eexists; reflexivity.
Qed.

Lemma lines_return lines : forall w, lines_raise api false lines w = false.
Proof.
  induction lines as [|line rest IH]; intros w; cbn [lines_raise]; [reflexivity|].
  destruct (process_line_returns line w) as [r Hr].
  destruct (process_line api line false w) as [[r'|] w']; [apply IH|discriminate Hr].
Qed.

(** [process_workflow_file] raises exactly when the file can be read and
    [process_line] raises on one of its lines. *)
Lemma process_workflow_file_raises file_path c w :
  fst (process_workflow_file api file_path c w) = Exception <->
  exists content,
    files w !! file_path = Some content /\
    lines_raise api c (Str.splitlines content) w = true.
Proof.
  destruct (files w !! file_path) as [content|] eqn:Hread.
  - rewrite (process_workflow_file_run _ _ _ _ _ Hread).
    destruct (lines_raise api c (Str.splitlines content) w) eqn:Hraise.
    + split; [eauto|reflexivity].
    + split.
      * destruct (existsb snd _); discriminate.
      * intros (content' & Heq & H). injection Heq as <-. congruence.
  - unfold process_workflow_file. run_prog. rewrite Hread. split; [discriminate|].
    intros (content & H & _). discriminate.
Qed.

(** The loop over the files comes to its end when no file raises. *)
Lemma files_loop_returns args :
  dry_run args = true \/ upgrade args = false ->
  forall l (u : unit) w,
    fst (for_each (fun (_ : unit) file_path =>
                     if dry_run args then ret (Value tt)
                     else process_workflow_file api file_path (upgrade args)) l u w)
    = Value tt.
Proof.
  intros Hsafe. induction l as [|p l IH]; intros [] w; cbn [for_each]; [reflexivity|].
  rewrite bind_run.
  assert (Hp : fst ((if dry_run args then ret (Value tt)
                     else process_workflow_file api p (upgrade args)) w) = Value tt).
  { destruct (dry_run args); [reflexivity|]. destruct Hsafe as [Hd | Hu]; [discriminate|]. rewrite Hu.
    destruct (fst (process_workflow_file api p false w)) as [[]|] eqn:E; [reflexivity|].
    apply process_workflow_file_raises in E as (content & _ & E).
    rewrite lines_return in E. discriminate. }
  rewrite Hp. apply IH.
Qed.

(** The cache file after a run of [main] that ended in [w']: as before;
    or removed by [--clear-cache]; or written by [save_cache], with the
    cache of the end under the time of the save; or left unreadable by a
    save that broke off. *)
Lemma process_all_cache_file args sys now_save w :
  let w' := snd (process_all api args sys now_save w) in
  cache_file w' = cache_file w \/
  (cache_file w'
   = Stored {| timestamp := Some (Some now_save); entries := Some (cache w') |} /\
   saving sys = Written /\ found_files (discovered sys) <> []) \/
  (cache_file w' = Unreadable /\ saving sys = Broken /\ found_files (discovered sys) <> []).
Proof.
  unfold process_all.
  destruct (discovered sys) as [| |[|file rest]]; try (left; reflexivity).
  cbn [found_files]. rewrite bind_run.
  assert (Hkeep : forall l (u : unit),
            preserves cache_file_kept
              (for_each (fun (_ : unit) file_path =>
                           if dry_run args then ret (Value tt)
                           else process_workflow_file api file_path (upgrade args)) l u)).
  { intros l u. refine (preserves_for_each cache_file_kept _ l _ u). intros u' p.
    destruct (dry_run args); [exact (preserves_ret cache_file_kept (Value tt))|].
    apply process_workflow_file_preserves; [apply _| |].
    - intros line. apply cache_file_kept_process_line.
    - intros content w2. reflexivity. }
  specialize (Hkeep (file :: rest) tt w). unfold cache_file_kept in Hkeep.
  destruct (for_each _ (file :: rest) tt w) as [[[]|] w2]; cbn [fst snd] in *.
  - unfold save_cache. run_prog. destruct (saving sys) eqn:Hs; cbn.
    + right. left. repeat split. discriminate.
    + left. exact Hkeep.
    + right. right. repeat split. discriminate.
  - left. exact Hkeep.
Qed.

(** X14. A run writes no workflow file but those it has found, and apart
    from them it changes the cache file alone: every write goes to a found
    file and every other workflow file is as before; the cache file is as
    before, or removed by [--clear-cache], or written by [save_cache] with
    the cache of the end under the time of the save, or left unreadable by
    a save that broke off. Whatever the run requests, it requests from
    URLs under [https://api.github.com/repos/]. *)
Theorem run_writes_found_files_only (args : arguments) (sys : system)
    (now_load now_save : Z) (w : world) :
  let w' := snd (main api args sys now_load now_save w) in
  writes_within (found_files (discovered sys)) w w' /\ requests_extend w w' /\
  (cache_file w' = cache_file w \/
   (cache_file w' = Missing /\ clear_cache args = true /\ removable sys = true) \/
   (cache_file w'
    = Stored {| timestamp := Some (Some now_save); entries := Some (cache w') |} /\
    saving sys = Written /\ found_files (discovered sys) <> []) \/
   (cache_file w' = Unreadable /\ saving sys = Broken /\
    found_files (discovered sys) <> [])).
Proof.
  intros w'. subst w'. rewrite main_run.
  assert (Hw : preserves (writes_within (found_files (discovered sys)))
                 (process_all api args sys now_save)).
  { apply process_all_preserves; [apply _| |].
    - intros _ file_path Hin. apply process_workflow_file_preserves; [apply _| |].
      + intros line u. destruct (keeps_disk_process_line api line (upgrade args) u)
          as (Hf & Hwr & Hro).
        split; [exists []; split; [exact Hwr | constructor]|].
        split; [intros; congruence | congruence].
      + intros content u. split; [exists [(file_path, content)]; split;
                                    [reflexivity | repeat constructor; exact Hin]|].
        split; [|reflexivity]. intros path Hout. cbn [write_file files].
        apply lookup_insert_ne. intros ->. contradiction.
    - intros f u. split; [exists []; split; [reflexivity | constructor]|].
      split; [intros; reflexivity | reflexivity]. }
  assert (Hr : preserves requests_extend (process_all api args sys now_save)).
  { apply process_all_preserves; [apply _| |].
    - intros _ file_path _. apply process_workflow_file_preserves; [apply _| |].
      + intros line. apply requests_process_line.
      + intros content u. exists []. split; [reflexivity | constructor].
    - intros f u. exists []. split; [reflexivity | constructor]. }
  destruct (clear_cache args && cache_file_exists w) eqn:Hclear.
  - apply andb_prop in Hclear as [Hclear _].
    destruct (removable sys); cbn [snd];
      [|split; [reflexivity|split; [reflexivity|left; reflexivity]]].
    split; [|split].
    + etransitivity; [|apply Hw].
      split; [exists []; split; [reflexivity | constructor]|].
      split; [intros; reflexivity | reflexivity].
    + etransitivity; [|apply Hr]. exists []. split; [reflexivity | constructor].
    + destruct (process_all_cache_file args sys now_save (set_cache_file Missing w))
        as [H | [H | H]]; [|auto..].
      right. left. split; [exact H|]. split; [exact Hclear|reflexivity].
  - destruct (load_cache_state now_load w) as (E1 & E2 & E3 & E4 & E5).
    split; [|split].
    + etransitivity; [|apply Hw].
      split; [exists []; split; [exact E3 | constructor]|].
      split; [intros; congruence | congruence].
    + etransitivity; [|apply Hr]. exists []. split; [exact E1 | constructor].
    + destruct (process_all_cache_file args sys now_save (snd (load_cache now_load w)))
        as [H | [H | H]]; auto. left. congruence.
Qed.

(** X15. A dry run requests nothing, writes no workflow file and leaves
    the cache as [load_cache] made it (as it was, with [--clear-cache] and
    a cache file). It still saves the cache when workflow files were
    found: the cache file then holds that cache, stamped with the time of
    the save. *)
Theorem dry_run_writes_cache_only (args : arguments) (sys : system)
    (now_load now_save : Z) (w : world) :
  dry_run args = true ->
  let r := main api args sys now_load now_save w in
  let loaded := if clear_cache args && cache_file_exists w then cache w
                else cache (snd (load_cache now_load w)) in
  requests (snd r) = requests w /\ files (snd r) = files w /\ writes (snd r) = writes w /\
  cache (snd r) = loaded /\
  (forall file rest, discovered sys = Found (file :: rest) -> saving sys = Written ->
     fst r = Returned ->
     cache_file (snd r)
     = Stored {| timestamp := Some (Some now_save); entries := Some loaded |}).
Proof.
  intros Hdry r loaded. subst r loaded. rewrite main_run.
  assert (Hloop : forall l (u : unit) w1,
            for_each (fun (_ : unit) file_path =>
                        if dry_run args then ret (Value tt)
                        else process_workflow_file api file_path (upgrade args)) l u w1
            = (Value tt, w1)).
  { rewrite Hdry. induction l as [|p l IH]; intros [] w1; cbn [for_each]; [reflexivity|].
    run_prog. apply IH. }
  assert (Hall : forall w1,
            let r := process_all api args sys now_save w1 in
            requests (snd r) = requests w1 /\ files (snd r) = files w1 /\
            writes (snd r) = writes w1 /\ cache (snd r) = cache w1 /\
            (forall file rest, discovered sys = Found (file :: rest) -> saving sys = Written ->
               cache_file (snd r)
               = Stored {| timestamp := Some (Some now_save);
                           entries := Some (cache w1) |})).
  { intros w1. unfold process_all.
    destruct (discovered sys) as [| |[|file rest]];
      [cbn; repeat split; discriminate ..|].
    rewrite bind_run, Hloop. cbn [fst snd]. unfold save_cache. run_prog.
    destruct (saving sys); cbn; repeat split; discriminate. }
  destruct (clear_cache args && cache_file_exists w).
  - destruct (removable sys).
    + destruct (Hall (set_cache_file Missing w)) as (H1 & H2 & H3 & H4 & H5).
      repeat split; auto. intros file rest Hd Hs _. apply (H5 file rest Hd Hs).
    + cbn [fst snd]. repeat split. discriminate.
  - destruct (load_cache_state now_load w) as (E1 & E2 & E3 & _).
    destruct (Hall (snd (load_cache now_load w))) as (H1 & H2 & H3 & H4 & H5).
    repeat split; try congruence. intros file rest Hd Hs _. apply (H5 file rest Hd Hs).
Qed.

(** X16. With [--clear-cache] and a cache file that can be removed, what
    the cache file held has no influence on the run: the run ends as it
    does with no cache file. When the file cannot be removed, the run ends
    in the exception and the world stays as it is. *)
Theorem clear_cache_forgets_the_file (args : arguments) (sys : system)
    (now_load now_save : Z) (w : world) (f : cache_file_state) :
  clear_cache args = true ->
  (removable sys = true ->
   main api args sys now_load now_save (set_cache_file f w)
   = main api args sys now_load now_save (set_cache_file Missing w)) /\
  (removable sys = false -> f <> Missing ->
   main api args sys now_load now_save (set_cache_file f w) = (Raised, set_cache_file f w)).
Proof.
  intros Hclear. rewrite !main_run, Hclear. cbn [andb].
  split.
  - intros ->. unfold cache_file_exists. cbn [set_cache_file cache_file].
    destruct f; reflexivity.
  - intros -> Hf. unfold cache_file_exists. cbn [set_cache_file cache_file].
    destruct f; [contradiction|reflexivity|reflexivity].
Qed.

(** X17. When no workflow file is found (the directory is missing, the
    search fails or finds nothing), nothing is requested or written and the
    cache is not saved: the cache file is as before, or removed by
    [--clear-cache]. *)
Theorem nothing_found_nothing_done (args : arguments) (sys : system)
    (now_load now_save : Z) (w : world) :
  found_files (discovered sys) = [] ->
  let w' := snd (main api args sys now_load now_save w) in
  requests w' = requests w /\ files w' = files w /\ writes w' = writes w /\
  cache_file w'
  = if clear_cache args && cache_file_exists w && removable sys then Missing
    else cache_file w.
Proof.
  intros Hnone w'. subst w'. rewrite main_run.
  assert (Hall : forall w1, process_all api args sys now_save w1 = (Returned, w1)).
  { intros w1. unfold process_all.
    destruct (discovered sys) as [| |[|file rest]]; try reflexivity. discriminate. }
  destruct (clear_cache args && cache_file_exists w); cbn [andb].
  - destruct (removable sys); [rewrite Hall|]; cbn; auto.
  - rewrite Hall. cbn [snd]. destruct (load_cache_state now_load w) as (E1 & E2 & E3 & _ & E5).
    auto.
Qed.

(** X18. A run without [--upgrade] and without [--clear-cache] that finds
    workflow files and saves the cache keeps every entry it loaded from a
    cache file less than 24 hours old, and stamps them all with the time of
    the save: an entry expires 24 hours after the last run that saved it,
    not 24 hours after it was fetched. *)
Theorem entries_restamped (args : arguments) (sys : system) (now_load now_save : Z)
    (f : cache_file_state) (fs : gmap string string) (ro : gset string)
    (time : Z) (stored : gmap string details) (file : string) (rest : list string) :
  clear_cache args = false -> upgrade args = false ->
  f = Stored {| timestamp := Some (Some time); entries := Some stored |} ->
  (now_load - time < 24 * HOURS)%Z ->
  discovered sys = Found (file :: rest) -> saving sys = Written ->
  exists saved,
    cache_file (snd (main api args sys now_load now_save (fresh f fs ro)))
    = Stored {| timestamp := Some (Some now_save); entries := Some saved |} /\
    stored ⊆ saved.
Proof.
  intros Hclear Hup -> Hfresh Hd Hs. rewrite main_run, Hclear. cbn [andb].
  assert (Hload : snd (load_cache now_load (fresh (Stored {| timestamp := Some (Some time);
                                                             entries := Some stored |}) fs ro))
                  = set_cache stored (fresh (Stored {| timestamp := Some (Some time);
                                                       entries := Some stored |}) fs ro)).
  { unfold load_cache. run_prog. cbn.
    destruct (Z.leb_spec (24 * HOURS) (now_load - time)); [lia|reflexivity]. }
  rewrite Hload. set (w1 := set_cache stored _).
  unfold process_all. rewrite Hd. rewrite bind_run.
  assert (Hloop : forall l (u : unit),
            preserves entries_kept
              (for_each (fun (_ : unit) file_path =>
                           if dry_run args then ret (Value tt)
                           else process_workflow_file api file_path (upgrade args)) l u)).
  { intros l u. refine (preserves_for_each entries_kept _ l _ u). intros u' p.
    destruct (dry_run args); [exact (preserves_ret entries_kept (Value tt))|].
    rewrite Hup. apply process_workflow_file_preserves; [apply _| |].
    - apply entries_kept_process_line.
    - intros content w2. unfold entries_kept. cbn [write_file cache]. reflexivity. }
  specialize (Hloop (file :: rest) tt w1).
  pose proof (files_loop_returns args (or_intror Hup) (file :: rest) tt w1) as Hret.
  destruct (for_each _ (file :: rest) tt w1) as [o w2]. cbn [fst snd] in *. subst o.
  unfold save_cache. run_prog. rewrite Hs. cbn.
  exists (cache w2). split; [reflexivity|]. exact Hloop.
Qed.


End WholeRun.

(** ** Instances *)

Lemma failed_resolution_caches_nothing_witness :
  cache (snd (fetch_tag_details Scenario.offline "actions/checkout" "v4" false
                Scenario.start)) = ∅.
Proof.
  apply (failed_resolution_caches_nothing Scenario.offline "actions/checkout" "v4" false
           Scenario.start).
  vm_compute. reflexivity.
Defined.

Lemma resolution_is_cached_witness :
  let r := fetch_tag_details Scenario.checkout_v4 "actions/checkout" "v4" false
             Scenario.start in
  fetch_tag_details Scenario.checkout_v4 "actions/checkout" "v4" false (snd r)
  = (fst r, snd r).
Proof.
  apply (resolution_is_cached Scenario.checkout_v4 "actions/checkout" "v4" false
           Scenario.start Scenario.sha_a (Some "v4.2.0")).
  vm_compute. reflexivity.
Defined.

Lemma dry_run_writes_cache_only_witness :
  let args := {| dry_run := true; clear_cache := false; upgrade := false |} in
  let sys := {| discovered := Found ["ci.yml"]; removable := true; saving := Written |} in
  requests (snd (main Scenario.checkout_v4 args sys 0 0 (fresh Missing Scenario.workflow ∅)))
  = [].
Proof.
  apply (proj1 (dry_run_writes_cache_only Scenario.checkout_v4
                  {| dry_run := true; clear_cache := false; upgrade := false |}
                  {| discovered := Found ["ci.yml"]; removable := true; saving := Written |}
                  0 0 (fresh Missing Scenario.workflow ∅) eq_refl)).
Defined.

Lemma clear_cache_forgets_the_file_witness :
  let args := {| dry_run := false; clear_cache := true; upgrade := false |} in
  let sys := {| discovered := Found ["ci.yml"]; removable := true; saving := Written |} in
  main Scenario.checkout_v4 args sys (1 * HOURS) (2 * HOURS)
    (set_cache_file Scenario.old_file (fresh Missing Scenario.workflow ∅))
  = main Scenario.checkout_v4 args sys (1 * HOURS) (2 * HOURS)
      (set_cache_file Missing (fresh Missing Scenario.workflow ∅)).
Proof.
  apply (proj1 (clear_cache_forgets_the_file Scenario.checkout_v4
                  {| dry_run := false; clear_cache := true; upgrade := false |}
                  {| discovered := Found ["ci.yml"]; removable := true; saving := Written |}
                  (1 * HOURS) (2 * HOURS) (fresh Missing Scenario.workflow ∅)
                  Scenario.old_file eq_refl) eq_refl).
Defined.

Lemma nothing_found_nothing_done_witness :
  let args := {| dry_run := false; clear_cache := false; upgrade := true |} in
  let sys := {| discovered := NoDirectory; removable := true; saving := Written |} in
  let w := fresh Scenario.old_file Scenario.workflow ∅ in
  let w' := snd (main Scenario.checkout_v4 args sys (1 * HOURS) (2 * HOURS) w) in
  requests w' = [] /\ files w' = Scenario.workflow /\ writes w' = [] /\
  cache_file w' = Scenario.old_file.
Proof.
  apply (nothing_found_nothing_done Scenario.checkout_v4
           {| dry_run := false; clear_cache := false; upgrade := true |}
           {| discovered := NoDirectory; removable := true; saving := Written |}
           (1 * HOURS) (2 * HOURS) (fresh Scenario.old_file Scenario.workflow ∅) eq_refl).
Defined.

Lemma entries_restamped_witness :
  let args := {| dry_run := false; clear_cache := false; upgrade := false |} in
  let sys := {| discovered := Found ["ci.yml"]; removable := true; saving := Written |} in
  exists saved,
    cache_file (snd (main Scenario.checkout_v4 args sys (1 * HOURS) (2 * HOURS)
                       (fresh Scenario.old_file Scenario.workflow ∅)))
    = Stored {| timestamp := Some (Some (2 * HOURS)%Z); entries := Some saved |} /\
    Scenario.warm_cache ⊆ saved.
Proof.
  apply (entries_restamped Scenario.checkout_v4
           {| dry_run := false; clear_cache := false; upgrade := false |}
           {| discovered := Found ["ci.yml"]; removable := true; saving := Written |}
           (1 * HOURS) (2 * HOURS) Scenario.old_file Scenario.workflow ∅
           0 Scenario.warm_cache "ci.yml" [] eq_refl eq_refl eq_refl eq_refl eq_refl eq_refl).
Defined.

Lemma second_pass_unchanged_witness :
  let r1 := process_line Scenario.checkout_v4 "  uses: actions/checkout@v4" false
              Scenario.start in
  let new_line := "  uses: actions/checkout@" +:+ Scenario.sha_a +:+ " # v4.2.0" in
  is_pinned_action new_line = true /\
  process_line Scenario.checkout_v4 new_line false (snd r1)
  = (Value (new_line, false), snd r1).
Proof.
  apply (second_pass_unchanged Scenario.checkout_v4 "  uses: actions/checkout@v4"
           Scenario.start
           ("  uses: actions/checkout@" +:+ Scenario.sha_a +:+ " # v4.2.0")).
  - intros url h. cbn [Scenario.checkout_v4 ref_at].
    destruct (String.eqb url _); [|discriminate].
    intros [= <-]. right. vm_compute. reflexivity.
  - intros repo tag d H. change (cache Scenario.start) with (∅ : gmap string details) in H.
    rewrite lookup_empty in H. discriminate.
  - vm_compute. reflexivity.
Defined.

